(** * Credential rotation and token lifecycle of [AuthManager] (src/auth.ts)

    A shallow embedding of the [AuthManager] class: the exhaustion tracker,
    the skip-exhausted round robin, the token cache and the two upstream
    call wrappers.  Asynchronous methods become computations in a state and
    exception monad over the manager's fields and the world it talks to
    (the key-value binding, the clock, the two HTTP peers, the console). *)

From Stdlib Require Import ZArith Lia Ascii String.
From stdpp Require Import base option list strings pretty gmap.

Local Open Scope string_scope.
Local Open Scope Z_scope.
Local Open Scope list_scope.

(** ** JavaScript numbers, as far as this class uses them

    Indices, timestamps and TTLs are integers or [NaN]; doubles are exact
    on the integers the class handles (below 2^53), so an integer value is
    a [Z].  [-0] is identified with [0]: both print as "0" and compare
    alike. *)

Inductive number :=
| Int (z : Z)
| NaN.

Global Instance number_eq_dec : EqDecision number.
Proof. solve_decision. Defined.

(** [x + k] for an integer constant [k]. *)
Definition num_add (x : number) (k : Z) : number :=
  match x with Int z => Int (z + k) | NaN => NaN end.

(** [x - k]. *)
Definition num_sub (x : number) (k : Z) : number :=
  match x with Int z => Int (z - k) | NaN => NaN end.

(** [Math.floor(x / 1000)]. *)
Definition num_floor_div (x : number) (k : Z) : number :=
  match x with Int z => Int (z / k) | NaN => NaN end.

(** [Math.min(x, k)]: [NaN] is contagious. *)
Definition num_min (x : number) (k : Z) : number :=
  match x with Int z => Int (Z.min z k) | NaN => NaN end.

(** [k < x]; every comparison with [NaN] is false. *)
Definition lt_num (k : Z) (x : number) : bool :=
  match x with Int z => k <? z | NaN => false end.

(** [x >= k]. *)
Definition num_ge (x : number) (k : Z) : bool :=
  match x with Int z => k <=? z | NaN => false end.

(** [x.toString()] and [`${x}`]. *)
Definition num_to_string (x : number) : string :=
  match x with Int z => pretty z | NaN => "NaN" end.

(** *** [parseInt(s, 10)]

    Leading white space is skipped, one sign is accepted, then the longest
    run of decimal digits is read; no digit at all gives [NaN].  Strings
    are byte strings here, so only the ASCII white space is recognised;
    numbers are exact integers, without the rounding of a double beyond
    2^53. *)

Definition is_white_space (a : ascii) : bool :=
  let n := Z.of_N (N_of_ascii a) in
  (n =? 32) || ((9 <=? n) && (n <=? 13)).

Definition digit_value (a : ascii) : option Z :=
  let n := Z.of_N (N_of_ascii a) in
  if (48 <=? n) && (n <=? 57) then Some (n - 48) else None.

Fixpoint skip_white_space (s : string) : string :=
  match s with
  | String a s' => if is_white_space a then skip_white_space s' else s
  | EmptyString => s
  end.

Fixpoint read_digits (s : string) (acc : option Z) : option Z :=
  match s with
  | String a s' =>
      match digit_value a with
      | Some d => read_digits s' (Some (10 * default 0 acc + d))
      | None => acc
      end
  | EmptyString => acc
  end.

Definition parseInt (s : string) : number :=
  let signed :=
    match skip_white_space s with
    | String "-" s' => (true, s')
    | String "+" s' => (false, s')
    | s' => (false, s')
    end in
  match read_digits signed.2 None with
  | Some n => Int (if signed.1 then - n else n)
  | None => NaN
  end.

(** ** Data of the class *)

(** [OAuth2Credentials] of ./types, the decoded form of one configured
    credential. *)
Record OAuth2Credentials := {
  oa_access_token : string;
  oa_refresh_token : string;
  oa_expiry_date : Z;
  oa_id_token : string
}.

Record TokenRefreshResponse := {
  tr_access_token : string;
  tr_expires_in : Z
}.

Record CachedTokenData := {
  access_token : string;
  expiry_date : Z;
  cached_at : Z
}.

(** What a rejected promise or a [throw] carries: an [Error] and its
    message. *)
Inductive exn :=
| Error (message : string).

Definition exn_message (e : exn) : string :=
  match e with Error m => m end.

Global Instance exn_eq_dec : EqDecision exn.
Proof. solve_decision. Defined.

Inductive Completion (A : Type) :=
| Normal (a : A)
| Throw (e : exn).
Arguments Normal {A} a.
Arguments Throw {A} e.

(** ** The world outside the manager *)

(** One entry of the key-value binding [GEMINI_CLI_KV]: the text, the
    [expirationTtl] (seconds) it was written with and the time of the
    write. *)
Record kv_entry := {
  kv_value : string;
  kv_ttl : option number;
  kv_written : Z
}.

(** The store drops an entry once its time to live has elapsed. *)
Definition kv_live (t : Z) (e : kv_entry) : bool :=
  match kv_ttl e with
  | Some (Int ttl) => t <? kv_written e + ttl * 1000
  | _ => true
  end.

(** The outcome of one [fetch]: a response, or a network-level rejection. *)
Inductive fetch_outcome :=
| Response (status : Z) (text : string)
| NetworkFailure (message : string).

(** [response.ok]. *)
Definition response_ok (status : Z) : bool :=
  (200 <=? status) && (status <=? 299).

(** What the manager does to the world, in order. *)
Inductive event :=
| KvGet (key : string)
| KvPut (key value : string) (ttl : option number)
| KvDelete (key : string)
| Fetch (method : string) (bearer : option string) (body : string)
| Refresh (refresh_token : string)
| Sleep (ms : Z)
| Console (line : string).

Global Instance event_eq_dec : EqDecision event.
Proof. solve_decision. Defined.

(** [faults] schedules the coming store operations: [true] makes the
    operation reject; an empty schedule means a healthy store.  [upstream]
    and [identity] script the coming answers of the Code Assist endpoint
    and of the OAuth refresh endpoint; a peer without a scripted answer is
    unreachable.  [now] is [Date.now()]; only a timer moves it. *)
Record World := {
  kv : gmap string kv_entry;
  faults : list bool;
  now : Z;
  upstream : list fetch_outcome;
  identity : list fetch_outcome;
  trace : list event
}.

(** The private fields of the class; [env] holds the
    [GCP_SERVICE_ACCOUNT_*] variables. *)
Record AuthManager := {
  env : gmap string string;
  accessToken : option string;
  credsIndex : number;
  credsHash : Z;
  credentials : list string
}.

(** [new AuthManager(env)]. *)
Definition newAuthManager (e : gmap string string) : AuthManager :=
  {| env := e; accessToken := None; credsIndex := Int 0; credsHash := 0;
     credentials := [] |}.

Record State := {
  self : AuthManager;
  world : World
}.

(** ** The monad of asynchronous methods *)

Definition M (A : Type) : Type := State → Completion A * State.

Global Instance M_ret : MRet M := λ A a s, (Normal a, s).

Global Instance M_bind : MBind M := λ A B f m s,
  match m s with
  | (Normal a, s') => f a s'
  | (Throw e, s') => (Throw e, s')
  end.

Definition throw {A} (e : exn) : M A := λ s, (Throw e, s).

(** [try { m } catch (e) { h e }]. *)
Definition try_catch {A} (m : M A) (h : exn → M A) : M A := λ s,
  match m s with
  | (Normal a, s') => (Normal a, s')
  | (Throw e, s') => h e s'
  end.

Definition get_self : M AuthManager := λ s, (Normal (self s), s).
Definition get_world : M World := λ s, (Normal (world s), s).
Definition put_self (a : AuthManager) : M () := λ s,
  (Normal (), {| self := a; world := world s |}).
Definition put_world (w : World) : M () := λ s,
  (Normal (), {| self := self s; world := w |}).

Definition emit (e : event) : M () :=
  w ← get_world;
  put_world {| kv := kv w; faults := faults w; now := now w;
               upstream := upstream w; identity := identity w;
               trace := trace w ++ [e] |}.

(** [console.log] and [console.error]. *)
Definition console (line : string) : M () := emit (Console line).

(** The empty statement. *)
Definition skip : M () := mret ().

(** [Date.now()]. *)
Definition date_now : M Z := w ← get_world; mret (now w).

(** A timer of [ms] milliseconds: [await new Promise(r => setTimeout(r, ms))]. *)
Definition sleep (ms : Z) : M () :=
  emit (Sleep ms);;
  w ← get_world;
  put_world {| kv := kv w; faults := faults w; now := now w + Z.max 0 ms;
               upstream := upstream w; identity := identity w;
               trace := trace w |}.

(** *** Field assignments *)

Definition set_accessToken (v : option string) : M () :=
  a ← get_self;
  put_self {| env := env a; accessToken := v; credsIndex := credsIndex a;
              credsHash := credsHash a; credentials := credentials a |}.

Definition set_credsIndex (v : number) : M () :=
  a ← get_self;
  put_self {| env := env a; accessToken := accessToken a; credsIndex := v;
              credsHash := credsHash a; credentials := credentials a |}.

Definition set_credsHash (v : Z) : M () :=
  a ← get_self;
  put_self {| env := env a; accessToken := accessToken a;
              credsIndex := credsIndex a; credsHash := v;
              credentials := credentials a |}.

Definition set_credentials (v : list string) : M () :=
  a ← get_self;
  put_self {| env := env a; accessToken := accessToken a;
              credsIndex := credsIndex a; credsHash := credsHash a;
              credentials := v |}.

(** *** The key-value binding *)

Definition kv_unavailable : exn := Error "KV unavailable".

(** Every operation is recorded, then takes its turn in the fault
    schedule. *)
Definition store_op (e : event) : M () :=
  emit e;;
  w ← get_world;
  match faults w with
  | [] => skip
  | broken :: rest =>
      put_world {| kv := kv w; faults := rest; now := now w;
                   upstream := upstream w; identity := identity w;
                   trace := trace w |};;
      if broken then throw kv_unavailable else skip
  end.

(** The live text under [key] at time [t]. *)
Definition kv_read (w : World) (key : string) : option string :=
  match kv w !! key with
  | Some e => if kv_live (now w) e then Some (kv_value e) else None
  | None => None
  end.

(** [GEMINI_CLI_KV.get(key)]. *)
Definition kvGet (key : string) : M (option string) :=
  store_op (KvGet key);;
  w ← get_world;
  mret (kv_read w key).

(** [GEMINI_CLI_KV.put(key, value, { expirationTtl })]. *)
Definition kvPut (key value : string) (ttl : option number) : M () :=
  store_op (KvPut key value ttl);;
  w ← get_world;
  put_world {| kv := <[key := {| kv_value := value; kv_ttl := ttl;
                                 kv_written := now w |}]> (kv w);
               faults := faults w; now := now w; upstream := upstream w;
               identity := identity w; trace := trace w |}.

(** [GEMINI_CLI_KV.delete(key)]. *)
Definition kvDelete (key : string) : M () :=
  store_op (KvDelete key);;
  w ← get_world;
  put_world {| kv := delete key (kv w); faults := faults w; now := now w;
               upstream := upstream w; identity := identity w;
               trace := trace w |}.

(** *** The two HTTP peers *)

Definition fetch_failed : exn := Error "fetch failed".

Definition answer (o : option fetch_outcome) : M (Z * string) :=
  match o with
  | Some (Response status text) => mret (status, text)
  | Some (NetworkFailure m) => throw (Error m)
  | None => throw fetch_failed
  end.

(** [fetch(`${CODE_ASSIST_ENDPOINT}/${CODE_ASSIST_API_VERSION}:${method}`, ...)]
    with the bearer token of the manager. *)
Definition fetch_upstream (method body : string) : M (Z * string) :=
  a ← get_self;
  emit (Fetch method (accessToken a) body);;
  w ← get_world;
  put_world {| kv := kv w; faults := faults w; now := now w;
               upstream := tail (upstream w); identity := identity w;
               trace := trace w |};;
  answer (head (upstream w)).

(** [fetch(OAUTH_REFRESH_URL, ...)] with the refresh-token grant. *)
Definition fetch_identity (refresh_token : string) : M (Z * string) :=
  emit (Refresh refresh_token);;
  w ← get_world;
  put_world {| kv := kv w; faults := faults w; now := now w;
               upstream := upstream w; identity := tail (identity w);
               trace := trace w |};;
  answer (head (identity w)).

(** ** What the class imports

    ./config and ./utils/hashing are not part of the sources at hand, and
    JSON and [Date] belong to the platform: the constants and functions the
    class takes from them are parameters of the development. *)

Class Config := {
  TOKEN_BUFFER_TIME : Z;
  KV_TOKEN_KEY : string;
  KV_CREDS_INDEX : string
}.

(** [JSON_parse_*] give [None] where [JSON.parse] throws a [SyntaxError];
    [Date_parse] is [new Date(iso).getTime()], [NaN] for an invalid date.
    The class casts what it decodes without a check: a text is taken
    either not to decode or to decode to a value of the expected shape,
    all fields present. *)
Class Runtime := {
  hashString : string → Z;
  JSON_parse_credentials : string → option OAuth2Credentials;
  JSON_parse_token : string → option CachedTokenData;
  JSON_stringify_token : CachedTokenData → string;
  JSON_parse_refresh : string → option TokenRefreshResponse;
  JSON_valid : string → bool;
  Date_parse : string → number;
  Date_toISOString : Z → string
}.

Definition syntax_error : exn := Error "Unexpected token in JSON".
Definition range_error : exn := Error "Invalid time value".

Definition KV_EXHAUSTED_KEY_PREFIX : string := "exhausted_until_".
Definition EXHAUSTION_SAFETY_BUFFER : Z := 120000.

Inductive rotation_reason :=
| normal
| exhausted.

Global Instance rotation_reason_eq_dec : EqDecision rotation_reason.
Proof. solve_decision. Defined.

(** The control of one turn of a [for] loop whose body may [return] or
    [continue]. *)
Inductive loop_exit (A : Type) :=
| Return (a : A)
| Continue (lastError : option exn).
Arguments Return {A} a.
Arguments Continue {A} lastError.

(** ** The methods of [AuthManager] *)

Section AuthManager.
Context `{cfg : Config} `{rt : Runtime}.

(** [`${KV_EXHAUSTED_KEY_PREFIX}${index}`]. *)
Definition exhausted_key (index : number) : string :=
  KV_EXHAUSTED_KEY_PREFIX +:+ num_to_string index.

(** [`${KV_TOKEN_KEY}_${this.credsHash}`]. *)
Definition token_key (hash : Z) : string :=
  KV_TOKEN_KEY +:+ "_" +:+ pretty hash.

(** [new Date(t).toISOString()], which throws on an invalid date.  An
    integer is taken to be a time value: the limit of 8.64e15 ms either
    side of the epoch, beyond which the platform throws as well, is not
    checked here. *)
Definition toISOString (t : number) : M string :=
  match t with
  | Int z => mret (Date_toISOString z)
  | NaN => throw range_error
  end.

Definition markCredentialExhausted (index : number) (resetIso : string)
  : M () :=
  let resetTime := num_add (Date_parse resetIso) EXHAUSTION_SAFETY_BUFFER in
  let key := exhausted_key index in
  t ← date_now;
  kvPut key (num_to_string resetTime)
    (Some (num_add (num_floor_div (num_sub resetTime t) 1000) 3600));;
  iso ← toISOString resetTime;
  console ("Credential " +:+ num_to_string index
           +:+ " marked exhausted until " +:+ iso).

Definition isCredentialExhausted (index : number) : M bool :=
  let key := exhausted_key index in
  value ← kvGet key;
  match value with
  | None | Some "" => mret false
  | Some v =>
      let until := parseInt v in
      t ← date_now;
      let exhausted := lt_num t until in
      (if exhausted then skip else kvDelete key);;
      mret exhausted
  end.

(** The [while (attempts < total)] loop with [remaining = total - attempts]
    turns left. *)
Fixpoint scan_credentials (total : Z) (remaining : nat) (next : number)
  : M number :=
  match remaining with
  | O => mret next
  | S remaining' =>
      let next := if num_ge next (total - 1) then Int 0 else num_add next 1 in
      is_exhausted ← isCredentialExhausted next;
      if negb is_exhausted then mret next
      else scan_credentials total remaining' next
  end.

Definition getNextViableCredentialIndex (currentIndex : number) : M number :=
  a ← get_self;
  let total := length (credentials a) in
  scan_credentials (Z.of_nat total) total currentIndex.

(** [this.credentials[index]]: [undefined] out of range and at [NaN]. *)
Definition credential_at (l : list string) (index : number) : option string :=
  match index with
  | Int z => if 0 <=? z then l !! Z.to_nat z else None
  | NaN => None
  end.

(** [JSON.parse(raw)], where [raw] may be [undefined]. *)
Definition parse_credentials (raw : option string) : M OAuth2Credentials :=
  match raw ≫= JSON_parse_credentials with
  | Some c => mret c
  | None => throw syntax_error
  end.

Definition cacheTokenInKV (accessToken : string) (expiryDate : Z) : M () :=
  try_catch
    (t ← date_now;
     let tokenData := {| access_token := accessToken;
                         expiry_date := expiryDate; cached_at := t |} in
     t' ← date_now;
     let ttlSeconds := (expiryDate - t') / 1000 - 300 in
     if 0 <? ttlSeconds then
       a ← get_self;
       kvPut (token_key (credsHash a)) (JSON_stringify_token tokenData)
         (Some (Int ttlSeconds));;
       console ("Token cached in KV storage with TTL of "
                +:+ pretty ttlSeconds +:+ " seconds")
     else console "Token expires too soon, not caching in KV")
    (λ kvError,
       console ("Failed to cache token in KV storage: "
                +:+ exn_message kvError)).

Definition refreshAndCacheToken (refreshToken : string) : M () :=
  console "Refreshing OAuth token...";;
  '(status, text) ← fetch_identity refreshToken;
  if negb (response_ok status) then
    console ("Token refresh failed: " +:+ text);;
    throw (Error ("Token refresh failed: " +:+ text))
  else
    match JSON_parse_refresh text with
    | None => throw syntax_error
    | Some refreshData =>
        set_accessToken (Some (tr_access_token refreshData));;
        t ← date_now;
        let expiryTime := t + tr_expires_in refreshData * 1000 in
        console "Token refreshed successfully";;
        console ("New token expires in "
                 +:+ pretty (tr_expires_in refreshData) +:+ " seconds");;
        cacheTokenInKV (tr_access_token refreshData) expiryTime
    end.

(** [await this.env.GEMINI_CLI_KV.get(key, "json")] with its own
    [try]/[catch]: the decoded entry, or [null].  A stored value that
    decodes to something a condition takes as false gives [null] in the
    source without the line of the [catch]; here it takes the [catch]. *)
Definition read_cached_token (key : string) : M (option CachedTokenData) :=
  try_catch
    (cachedToken ← kvGet key;
     match cachedToken with
     | None => mret None
     | Some text =>
         match JSON_parse_token text with
         | None => throw syntax_error
         | Some d => console "Found cached token in KV storage";; mret (Some d)
         end
     end)
    (λ kvError,
       console ("No cached token found in KV storage or KV error: "
                +:+ exn_message kvError);;
       mret None).

(** The first [return] of the method: [true] when the cached token was
    taken. *)
Definition adopt_cached_token (cachedTokenData : option CachedTokenData)
  : M bool :=
  match cachedTokenData with
  | None => mret false
  | Some d =>
      t ← date_now;
      let timeUntilExpiry := expiry_date d - t in
      if TOKEN_BUFFER_TIME <? timeUntilExpiry then
        set_accessToken (Some (access_token d));;
        console ("Using cached token, valid for "
                 +:+ pretty (timeUntilExpiry / 1000) +:+ " more seconds");;
        mret true
      else
        console "Cached token expired or expiring soon";;
        mret false
  end.

(** The rest of the method, once the cache gave nothing usable. *)
Definition use_original_or_refresh (oauth2Creds : OAuth2Credentials) : M () :=
  t ← date_now;
  let timeUntilExpiry := oa_expiry_date oauth2Creds - t in
  if TOKEN_BUFFER_TIME <? timeUntilExpiry then
    set_accessToken (Some (oa_access_token oauth2Creds));;
    console ("Original token is valid for "
             +:+ pretty (timeUntilExpiry / 1000) +:+ " more seconds");;
    cacheTokenInKV (oa_access_token oauth2Creds) (oa_expiry_date oauth2Creds)
  else
    console "All tokens expired, refreshing...";;
    refreshAndCacheToken (oa_refresh_token oauth2Creds).

Definition not_configured : exn :=
  Error "`GCP_SERVICE_ACCOUNT_*` environment variable not set. Please provide OAuth2 credentials JSON.".

(** The outer [catch] of [initializeAuth]. *)
Definition authentication_failed {A} (e : exn) : M A :=
  console ("Failed to initialize authentication: " +:+ exn_message e);;
  throw (Error ("Authentication failed: " +:+ exn_message e)).

Definition initializeAuth : M () :=
  a ← get_self;
  if bool_decide (credentials a = []) then throw not_configured
  else
    oauth2Creds ← parse_credentials
                    (credential_at (credentials a) (credsIndex a));
    set_credsHash (hashString (oa_id_token oauth2Creds));;
    try_catch
      (a ← get_self;
       cachedTokenData ← read_cached_token (token_key (credsHash a));
       adopted ← adopt_cached_token cachedTokenData;
       if (adopted : bool) then skip
       else use_original_or_refresh oauth2Creds)
      authentication_failed.

(** The pool as the environment configures it: slots 0 to 99, the empty
    and the unset ones dropped. *)
Definition configured_credentials (e : gmap string string) : list string :=
  filter (λ s : string, s ≠ "")
    (map (λ i : nat, default "" (e !! ("GCP_SERVICE_ACCOUNT_" +:+ pretty i)))
       (seq 0%nat 100%nat)).

Definition no_variables : exn :=
  Error "No GCP_SERVICE_ACCOUNT_* variables found".

(** "Load all credentials once". *)
Definition load_credentials : M () :=
  a ← get_self;
  if bool_decide (credentials a = []) then
    let loaded := configured_credentials (env a) in
    set_credentials loaded;;
    if bool_decide (loaded = []) then throw no_variables else skip
  else skip.

(** "Load current index". *)
Definition load_current_index : M () :=
  savedIndexStr ← try_catch (kvGet KV_CREDS_INDEX) (λ _, mret (Some "0"));
  a ← get_self;
  set_credsIndex
    (num_min (parseInt (default "0" savedIndexStr))
       (Z.of_nat (length (credentials a)) - 1));;
  a ← get_self;
  console ("Current credential index: " +:+ num_to_string (credsIndex a)).

(** A string used as a condition: [undefined] and [""] are false. *)
Definition truthy (s : option string) : bool :=
  match s with
  | Some s => bool_decide (s ≠ "")
  | None => false
  end.

Definition reason_label (reason : rotation_reason) : string :=
  match reason with
  | exhausted => "skipped exhausted"
  | normal => "normal"
  end.

Definition rotateCredentials (reason : rotation_reason)
    (resetIso : option string) : M () :=
  load_credentials;;
  load_current_index;;
  a ← get_self;
  nextIndex ←
    (if bool_decide (reason = exhausted) && truthy resetIso then
       markCredentialExhausted (credsIndex a) (default "" resetIso);;
       getNextViableCredentialIndex (credsIndex a)
     else getNextViableCredentialIndex (credsIndex a));
  set_credsIndex nextIndex;;
  kvPut KV_CREDS_INDEX (num_to_string nextIndex) None;;
  console ("Rotated credentials → " +:+ num_to_string nextIndex
           +:+ " (" +:+ reason_label reason +:+ ")");;
  set_accessToken None;;
  set_credsHash 0.

Definition clearTokenCache : M () :=
  try_catch
    (a ← get_self;
     kvDelete (token_key (credsHash a));;
     console "Cleared cached token from KV storage")
    (λ kvError, console ("Error clearing KV cache: " +:+ exn_message kvError)).

Definition api_call_failed (status : Z) (errorText : string) : exn :=
  Error ("API call failed with status " +:+ pretty status
         +:+ ": " +:+ errorText).

(** [response.json()]; the decoded value is kept as its text. *)
Definition response_json (text : string) : M string :=
  if JSON_valid text then mret text else throw syntax_error.

(** The body of [callEndpoint]; [again] is the recursive call
    [this.callEndpoint(method, body, true)]. *)
Definition callEndpoint_body (again : M string) (method body : string)
    (isRetry : bool) : M string :=
  initializeAuth;;
  '(status, text) ← fetch_upstream method body;
  if negb (response_ok status) then
    if (status =? 401) && negb isRetry then
      console "Got 401 error, clearing token cache and retrying...";;
      set_accessToken None;;
      clearTokenCache;;
      initializeAuth;;
      again
    else throw (api_call_failed status text)
  else response_json text.

(** The recursive call passes [isRetry = true], which closes the branch
    that recurses: the recursion is one level deep. *)
Definition callEndpoint (method body : string) (isRetry : bool) : M string :=
  callEndpoint_body
    (callEndpoint_body (throw (Error "unreachable")) method body true)
    method body isRetry.

(** [baseDelay * Math.pow(2, attempt - 1)]. *)
Definition backoff (baseDelay attempt : Z) : Z :=
  baseDelay * 2 ^ (attempt - 1).

(** One turn of the [for] loop of [callEndpointWithRetry]: the [try] block
    and its [catch]. *)
Definition attempt_once (method body : string) (maxRetries baseDelay : Z)
    (attempt : Z) (lastError : option exn) : M (loop_exit string) :=
  try_catch
    (initializeAuth;;
     '(status, text) ← fetch_upstream method body;
     if negb (response_ok status) then
       if (status =? 401) && (attempt =? 1) then
         console "Got 401 error, clearing token cache and retrying...";;
         set_accessToken None;;
         clearTokenCache;;
         initializeAuth;;
         mret (Continue lastError)
       else
         let errorText := text in
         if (status =? 500) && bool_decide (method = "loadCodeAssist") then
           console ("MCP service error on attempt " +:+ pretty attempt
                    +:+ ": " +:+ errorText);;
           let lastError :=
             Some (Error ("MCP service unavailable: " +:+ errorText)) in
           if attempt <? maxRetries then
             let delay := backoff baseDelay attempt in
             console ("Retrying in " +:+ pretty delay +:+ "ms...");;
             sleep delay;;
             mret (Continue lastError)
           else throw (api_call_failed status errorText)
         else throw (api_call_failed status errorText)
     else mret (Return text))
    (λ error,
       (if attempt <? maxRetries then
          let delay := backoff baseDelay attempt in
          console ("Attempt " +:+ pretty attempt +:+ " failed, retrying in "
                   +:+ pretty delay +:+ "ms: " +:+ exn_message error);;
          sleep delay
        else skip);;
       mret (Continue (Some error))).

Definition all_attempts_failed (maxRetries : Z) (method : string) : exn :=
  Error ("All " +:+ pretty maxRetries +:+ " attempts failed for " +:+ method).

(** The loop [for (attempt = 1; attempt <= maxRetries; attempt++)] with
    [remaining = maxRetries - attempt + 1] turns left, and the final
    [throw]. *)
Fixpoint retry_loop (method body : string) (maxRetries baseDelay : Z)
    (remaining : nat) (attempt : Z) (lastError : option exn) : M string :=
  match remaining with
  | O => throw (default (all_attempts_failed maxRetries method) lastError)
  | S remaining' =>
      turn ← attempt_once method body maxRetries baseDelay attempt lastError;
      match turn with
      | Return text => response_json text
      | Continue lastError =>
          retry_loop method body maxRetries baseDelay remaining'
            (attempt + 1) lastError
      end
  end.

Definition callEndpointWithRetry (method body : string)
    (maxRetries baseDelay : Z) : M string :=
  retry_loop method body maxRetries baseDelay (Z.to_nat maxRetries) 1 None.

End AuthManager.

(** ** A concrete deployment

    A configuration, and a runtime whose JSON texts are space-separated
    fields and whose dates are written as epoch milliseconds.  The
    scenarios at the end run on it. *)

(** Modelled from the spec: ./config is not among the sources.  The key
    names are those the store interface lists ([token_<hash>],
    [creds_index]); the buffer is the 300 s of the stale-token scenario. *)
Definition sample_config : Config :=
  {| TOKEN_BUFFER_TIME := 300000;
     KV_TOKEN_KEY := "token";
     KV_CREDS_INDEX := "creds_index" |}.

Definition int_field (s : string) : option Z :=
  match parseInt s with Int z => Some z | NaN => None end.

Definition sample_parse_credentials (s : string) : option OAuth2Credentials :=
  match String.words s with
  | [a; r; e; i] =>
      z ← int_field e;
      Some {| oa_access_token := a; oa_refresh_token := r;
              oa_expiry_date := z; oa_id_token := i |}
  | _ => None
  end.

Definition sample_parse_token (s : string) : option CachedTokenData :=
  match String.words s with
  | [a; e; c] =>
      z ← int_field e;
      t ← int_field c;
      Some {| access_token := a; expiry_date := z; cached_at := t |}
  | _ => None
  end.

Definition sample_stringify_token (d : CachedTokenData) : string :=
  access_token d +:+ " " +:+ pretty (expiry_date d)
  +:+ " " +:+ pretty (cached_at d).

Definition sample_parse_refresh (s : string) : option TokenRefreshResponse :=
  match String.words s with
  | [a; e] =>
      z ← int_field e;
      Some {| tr_access_token := a; tr_expires_in := z |}
  | _ => None
  end.

Definition sample_runtime : Runtime :=
  {| hashString := λ s, Z.of_nat (String.length s);
     JSON_parse_credentials := sample_parse_credentials;
     JSON_parse_token := sample_parse_token;
     JSON_stringify_token := sample_stringify_token;
     JSON_parse_refresh := sample_parse_refresh;
     JSON_valid := λ s, bool_decide (s ≠ "");
     Date_parse := parseInt;
     Date_toISOString := pretty |}.

(** A quiet world at time [t] over store [m]. *)
Definition world_at (t : Z) (m : gmap string kv_entry) : World :=
  {| kv := m; faults := []; now := t; upstream := []; identity := [];
     trace := [] |}.

Definition plain_entry (v : string) : kv_entry :=
  {| kv_value := v; kv_ttl := None; kv_written := 0 |}.

(** ** Notions the properties are stated with *)

(** The keys read from the store, in order. *)
Definition kv_reads (l : list event) : list string :=
  omap (λ e, match e with KvGet k => Some k | _ => None end) l.

(** What a run from [s] to [s'] added to the trace. *)
Definition new_events (s s' : State) : list event :=
  drop (length (trace (world s))) (trace (world s')).

(** An index brought back into [0, total) after one lap. *)
Definition wrap (total i : Z) : Z := if total <=? i then i - total else i.

(** The first [m] indices of the circular scan that leaves [start]. *)
Definition visit_order (total start : Z) (m : nat) : list Z :=
  (λ k : nat, wrap total (start + Z.of_nat k)) <$> seq 1 m.

(** The exhaustion record of [index] is live and its time has not come:
    what [isCredentialExhausted] answers on a healthy store. *)
Definition exhausted_at (w : World) (index : number) : bool :=
  match kv_read w (exhausted_key index) with
  | None | Some "" => false
  | Some v => lt_num (now w) (parseInt v)
  end.

(** Every event a computation adds to the trace, from any state,
    satisfies [P]. *)
Definition emits {A} (P : event → Prop) (m : M A) : Prop :=
  ∀ s, ∃ evs,
    trace (world (m s).2) = trace (world s) ++ evs ∧ Forall P evs.

(** The requests sent to the Code Assist endpoint: method and body. *)
Definition upstream_requests (l : list event) : list (string * string) :=
  omap (λ e, match e with Fetch m _ b => Some (m, b) | _ => None end) l.

(** The timers awaited. *)
Definition delays (l : list event) : list Z :=
  omap (λ e, match e with Sleep ms => Some ms | _ => None end) l.

(** The store writes: key, text and TTL. *)
Definition kv_writes (l : list event) : list (string * string * option number) :=
  omap (λ e, match e with KvPut k v t => Some (k, v, t) | _ => None end) l.


Definition is_fetch (e : event) : bool :=
  match e with Fetch _ _ _ => true | _ => false end.

(** *** States reached along a run *)

Definition state_log (e : event) (s : State) : State :=
  {| self := self s;
     world := {| kv := kv (world s); faults := faults (world s);
                 now := now (world s); upstream := upstream (world s);
                 identity := identity (world s);
                 trace := trace (world s) ++ [e] |} |}.

(** One turn of the fault schedule has been taken. *)
Definition state_next_fault (s : State) : State :=
  {| self := self s;
     world := {| kv := kv (world s); faults := tail (faults (world s));
                 now := now (world s); upstream := upstream (world s);
                 identity := identity (world s);
                 trace := trace (world s) |} |}.

Definition state_with_hash (h : Z) (s : State) : State :=
  {| self := {| env := env (self s); accessToken := accessToken (self s);
                credsIndex := credsIndex (self s); credsHash := h;
                credentials := credentials (self s) |};
     world := world s |}.

Definition state_with_token (v : option string) (s : State) : State :=
  {| self := {| env := env (self s); accessToken := v;
                credsIndex := credsIndex (self s);
                credsHash := credsHash (self s);
                credentials := credentials (self s) |};
     world := world s |}.

(** [initializeAuth] has hashed the credential, read the token cache under
    [key] and decoded an entry from it. *)
Definition state_cache_hit (h : Z) (key : string) (s : State) : State :=
  state_log (Console "Found cached token in KV storage")
    (state_next_fault (state_log (KvGet key) (state_with_hash h s))).

(** A computation sends at most [n] requests to the Code Assist endpoint,
    from any state. *)
Definition requests_at_most {A} (n : nat) (m : M A) : Prop :=
  ∀ s, ∃ evs,
    trace (world (m s).2) = trace (world s) ++ evs
    ∧ (length (upstream_requests evs) ≤ n)%nat.

(** What [callEndpoint] does on a first 401 before it authenticates
    again. *)
Definition forget_token `{cfg : Config} : M () :=
  console "Got 401 error, clearing token cache and retrying...";;
  set_accessToken None;;
  clearTokenCache.

(** The trace without the console lines. *)
Definition effects (l : list event) : list event :=
  omap (λ e, match e with Console _ => None | _ => Some e end) l.

(** A store write, if any, is the write of the rotation cursor. *)
Definition writes_cursor_only `{cfg : Config} (e : event) : Prop :=
  match e with
  | KvPut k _ ttl => k = KV_CREDS_INDEX ∧ ttl = None
  | _ => True
  end.

(** An integer index of a pool of [total] credentials. *)
Definition in_pool (total : Z) (x : number) : Prop :=
  ∃ z, x = Int z ∧ 0 ≤ z < total.

(** The first two steps of [rotateCredentials]: the pool is loaded and the
    persisted cursor becomes the current index. *)
Definition load_rotation_state `{cfg : Config} : M () :=
  load_credentials;; load_current_index.

(** The indices of one rotation stay in the pool: the current index that
    the rotation decides from, and, when the rotation completes, the
    selected index and the cursor left in the store. *)
Definition rotation_in_range `{cfg : Config} `{rt : Runtime}
    (reason : rotation_reason) (resetIso : option string) (s : State) : Prop :=
  let loaded := load_rotation_state s in
  let total := Z.of_nat (length (credentials (self loaded.2))) in
  let out := rotateCredentials reason resetIso s in
  (loaded.1 = Normal () → in_pool total (credsIndex (self loaded.2)))
  ∧ (out.1 = Normal () →
     in_pool total (credsIndex (self out.2))
     ∧ kv_value <$> kv (world out.2) !! KV_CREDS_INDEX
       = Some (num_to_string (credsIndex (self out.2)))).

Definition state_with_index (v : number) (s : State) : State :=
  {| self := {| env := env (self s); accessToken := accessToken (self s);
                credsIndex := v; credsHash := credsHash (self s);
                credentials := credentials (self s) |};
     world := world s |}.

(** The store holds [e] under [key]. *)
Definition state_store (key : string) (e : kv_entry) (s : State) : State :=
  {| self := self s;
     world := {| kv := <[key := e]> (kv (world s));
                 faults := faults (world s); now := now (world s);
                 upstream := upstream (world s);
                 identity := identity (world s);
                 trace := trace (world s) |} |}.

(** The exhaustion record that [markCredentialExhausted] writes at time
    [t] for a reset announced at [reset]. *)
Definition exhaustion_record (t reset : Z) : kv_entry :=
  {| kv_value := pretty (reset + EXHAUSTION_SAFETY_BUFFER);
     kv_ttl := Some (Int ((reset + EXHAUSTION_SAFETY_BUFFER - t) / 1000 + 3600));
     kv_written := t |}.

(** ** Sample states *)

Definition sample_pool : list string :=
  ["a0 r0 2000000 id0"; "a1 r1 2000000 id11"; "a2 r2 100 id222"].

(** A manager whose pool of three is loaded. *)
Definition sample_manager : AuthManager :=
  {| env := ∅; accessToken := None; credsIndex := Int 0; credsHash := 0;
     credentials := sample_pool |}.

(** The manager at time 1000000 over the store [m]. *)
Definition sample_state (m : gmap string kv_entry) : State :=
  {| self := sample_manager; world := world_at 1000000 m |}.

(** The same, with the Code Assist endpoint scripted. *)
Definition sample_call (answers : list fetch_outcome) : State :=
  {| self := sample_manager;
     world := {| kv := ∅; faults := []; now := 1000000;
                 upstream := answers; identity := []; trace := [] |} |}.

(** A manager just constructed over an environment that configures one
    credential. *)
Definition fresh_state : State :=
  {| self := newAuthManager {[ "GCP_SERVICE_ACCOUNT_0" := "a0 r0 2000000 id0" ]};
     world := world_at 1000000 ∅ |}.

(** Exhaustion records that run until time 2000000. *)
Definition exhausted_until_later (indices : list Z) : gmap string kv_entry :=
  list_to_map ((λ i, (exhausted_key (Int i), plain_entry "2000000")) <$> indices).

(** The token cache holds an entry of the first credential with 500 s
    left. *)
Definition cached_state : State :=
  sample_state {[ "token_3" := plain_entry "cached 1500000 900000" ]}.

(** The clock has moved by a timer of [ms]. *)
Definition state_sleep (ms : Z) (s : State) : State :=
  {| self := self s;
     world := {| kv := kv (world s); faults := faults (world s);
                 now := now (world s) + Z.max 0 ms;
                 upstream := upstream (world s);
                 identity := identity (world s);
                 trace := trace (world s) ++ [Sleep ms] |} |}.

(** What the read of the rotation cursor gives, with its [catch]: the
    live text in the store, nothing when there is none, and "0" when the
    store rejects the read. *)
Definition cursor_read `{cfg : Config} (s : State) : option string :=
  match faults (world s) with
  | true :: _ => Some "0"
  | _ => kv_read (world s) KV_CREDS_INDEX
  end.

(** The rest of [rotateCredentials], once the pool is loaded and the
    cursor read: the decision from the current index, and what follows
    it. *)
Definition select_and_persist `{cfg : Config} `{rt : Runtime}
    (reason : rotation_reason) (resetIso : option string) : M () :=
  a ← get_self;
  nextIndex ←
    (if bool_decide (reason = exhausted) && truthy resetIso then
       markCredentialExhausted (credsIndex a) (default "" resetIso);;
       getNextViableCredentialIndex (credsIndex a)
     else getNextViableCredentialIndex (credsIndex a));
  set_credsIndex nextIndex;;
  kvPut KV_CREDS_INDEX (num_to_string nextIndex) None;;
  console ("Rotated credentials → " +:+ num_to_string nextIndex
           +:+ " (" +:+ reason_label reason +:+ ")");;
  set_accessToken None;;
  set_credsHash 0.

(** ** The other methods of [AuthManager] *)

(** [TokenCacheInfo], the answer of [getCachedTokenInfo]; a field that the
    object literal leaves out is [None]. *)
Record TokenCacheInfo := {
  info_cached : bool;
  info_cached_at : option string;
  info_expires_at : option string;
  info_time_until_expiry_seconds : option Z;
  info_is_expired : option bool;
  info_message : option string;
  info_error : option string
}.

Definition KV_PROJECT_ID_PREFIX : string := "project_id_".

Section Observers.
Context `{cfg : Config} `{rt : Runtime}.

(** [JSON_parse_falsy text]: [text] decodes to a value that a condition
    takes as false ([null], [false], [0] or the empty string). *)
Context (JSON_parse_falsy : string → bool).

(** [`${KV_PROJECT_ID_PREFIX}${this.credsIndex}`]. *)
Definition project_id_key (index : number) : string :=
  KV_PROJECT_ID_PREFIX +:+ num_to_string index.

(** [GEMINI_CLI_KV.get(key, "json")] followed by [if (cachedToken)] and
    the cast to [CachedTokenData]: [None] where the condition fails.  A
    text that does not decode makes the read throw; so does, when its
    fields are used, a value that is no token entry. *)
Definition kvGetJson (key : string) : M (option CachedTokenData) :=
  cachedToken ← kvGet key;
  match cachedToken with
  | None => mret None
  | Some text =>
      if JSON_parse_falsy text then mret None
      else
        match JSON_parse_token text with
        | None => throw syntax_error
        | Some d => mret (Some d)
        end
  end.

Definition getCachedTokenInfo : M TokenCacheInfo :=
  try_catch
    (a ← get_self;
     cachedToken ← kvGetJson (token_key (credsHash a));
     match cachedToken with
     | Some tokenData =>
         t ← date_now;
         let timeUntilExpiry := expiry_date tokenData - t in
         cached_at ← toISOString (Int (cached_at tokenData));
         expires_at ← toISOString (Int (expiry_date tokenData));
         mret {| info_cached := true;
                 info_cached_at := Some cached_at;
                 info_expires_at := Some expires_at;
                 info_time_until_expiry_seconds := Some (timeUntilExpiry / 1000);
                 info_is_expired := Some (timeUntilExpiry <? 0);
                 info_message := None; info_error := None |}
     | None =>
         mret {| info_cached := false; info_cached_at := None;
                 info_expires_at := None;
                 info_time_until_expiry_seconds := None;
                 info_is_expired := None;
                 info_message := Some "No token found in cache";
                 info_error := None |}
     end)
    (λ e,
       mret {| info_cached := false; info_cached_at := None;
               info_expires_at := None;
               info_time_until_expiry_seconds := None;
               info_is_expired := None; info_message := None;
               info_error := Some (exn_message e) |}).

Definition cacheProjectId (projectId : string) : M () :=
  try_catch
    (a ← get_self;
     let key := project_id_key (credsIndex a) in
     kvPut key projectId None;;
     console ("Cached project ID '" +:+ projectId +:+ "' for credential "
              +:+ num_to_string (credsIndex a)))
    (λ kvError,
       console ("Failed to cache project ID in KV storage: "
                +:+ exn_message kvError)).

Definition getCachedProjectId : M (option string) :=
  found ←
    try_catch
      (a ← get_self;
       let key := project_id_key (credsIndex a) in
       projectId ← kvGet key;
       if truthy projectId then
         console ("Found cached project ID '" +:+ default "" projectId
                  +:+ "' for credential " +:+ num_to_string (credsIndex a));;
         mret (Some projectId)
       else mret None)
      (λ kvError,
         console ("No cached project ID found or KV error: "
                  +:+ exn_message kvError);;
         mret None);
  match found with
  | Some projectId => mret projectId
  | None => mret None
  end.

Definition clearCachedProjectId : M () :=
  try_catch
    (a ← get_self;
     let key := project_id_key (credsIndex a) in
     kvDelete key;;
     console ("Cleared cached project ID for credential "
              +:+ num_to_string (credsIndex a)))
    (λ kvError,
       console ("Error clearing cached project ID: "
                +:+ exn_message kvError)).

Definition getCurrentCredentialIndex : M number :=
  a ← get_self; mret (credsIndex a).

Definition getAccessToken : M (option string) :=
  a ← get_self; mret (accessToken a).

End Observers.

(** ** The debug routes (src/routes/debug.ts)

    A handler builds its own manager over the environment of the request
    and answers with [c.json(body, status)]. *)

Inductive debug_body :=
| CacheStatus (cached : bool) (cached_at expires_at : option string)
    (time_until_expiry_seconds : option Z) (is_expired : option bool)
    (message : option string)
| StatusMessage (status message : string).

Record HttpResponse := {
  http_status : Z;
  http_body : debug_body
}.

(** [c.json(body)] and [c.json(body, status)]. *)
Definition json_response (body : debug_body) (status : option Z) : HttpResponse :=
  {| http_status := default 200 status; http_body := body |}.

Section DebugRoute.
Context `{cfg : Config} `{rt : Runtime}.
Context (JSON_parse_falsy : string → bool).

(** A request is served over the variables [e] in the world [w]: the
    handler runs on [new AuthManager(c.env)]. *)
Definition serve (handler : M HttpResponse) (e : gmap string string)
    (w : World) : Completion HttpResponse * World :=
  let out := handler {| self := newAuthManager e; world := w |} in
  (out.1, world out.2).

(** [DebugRoute.get("/cache", ...)]. *)
Definition debug_cache : M HttpResponse :=
  try_catch
    (cacheInfo ← getCachedTokenInfo JSON_parse_falsy;
     mret (json_response
             (CacheStatus (info_cached cacheInfo) (info_cached_at cacheInfo)
                (info_expires_at cacheInfo)
                (info_time_until_expiry_seconds cacheInfo)
                (info_is_expired cacheInfo) (info_message cacheInfo))
             None))
    (λ e, mret (json_response (StatusMessage "error" (exn_message e))
                  (Some 500))).

(** [DebugRoute.post("/token-test", ...)]. *)
Definition debug_token_test : M HttpResponse :=
  try_catch
    (console "Token test endpoint called";;
     initializeAuth;;
     console "Token test passed";;
     mret (json_response
             (StatusMessage "ok" "Token authentication successful") None))
    (λ e,
       console ("Token test error: " +:+ exn_message e);;
       mret (json_response (StatusMessage "error" (exn_message e))
               (Some 500))).

End DebugRoute.

(** ** The structured logger (src/utils/logger.ts) *)

Inductive LogLevel :=
| DEBUG
| INFO
| WARN
| ERROR.

Global Instance LogLevel_eq_dec : EqDecision LogLevel.
Proof. solve_decision. Defined.

Definition level_name (l : LogLevel) : string :=
  match l with
  | DEBUG => "DEBUG" | INFO => "INFO" | WARN => "WARN" | ERROR => "ERROR"
  end.

(** [LoggerConfig]: [createLogger] casts the variables of the environment,
    so level and format are whatever strings were configured. *)
Record LoggerConfig := {
  level : string;
  format : string;
  traceId : string
}.

(** The methods of [console] that the logger writes to. *)
Inductive console_method :=
| console_debug
| console_info
| console_warn
| console_error.

(** [Array.prototype.indexOf] on strings: the first position, or -1. *)
Fixpoint indexOf_from (l : list string) (x : string) (i : Z) : Z :=
  match l with
  | [] => -1
  | y :: l' => if bool_decide (y = x) then i else indexOf_from l' x (i + 1)
  end.

Definition indexOf (l : list string) (x : string) : Z := indexOf_from l x 0.

Definition ESC : string := String (ascii_of_nat 27) "".

Definition ANSI_RESET : string := ESC +:+ "[0m".
Definition ANSI_BRIGHT : string := ESC +:+ "[1m".
Definition ANSI_RED : string := ESC +:+ "[31m".
Definition ANSI_GREEN : string := ESC +:+ "[32m".
Definition ANSI_YELLOW : string := ESC +:+ "[33m".
Definition ANSI_GRAY : string := ESC +:+ "[90m".

Definition LOG_LEVEL_COLORS (l : LogLevel) : string :=
  match l with
  | DEBUG => ANSI_GRAY
  | INFO => ANSI_GREEN
  | WARN => ANSI_YELLOW
  | ERROR => ANSI_RED
  end.

Section Logger.
(** The details of an entry are an arbitrary object; [JSON.stringify]
    belongs to the platform. *)
Context {D : Type}.

Record LogEntry := {
  entry_timestamp : string;
  entry_level : LogLevel;
  entry_category : string;
  entry_message : string;
  entry_traceId : string;
  entry_details : option D
}.

Context (JSON_stringify_details : D → string).
Context (JSON_stringify_entry : LogEntry → string).

Definition shouldLog (config : LoggerConfig) (l : LogLevel) : bool :=
  let levels := ["DEBUG"; "INFO"; "WARN"; "ERROR"] in
  let configLevelIndex := indexOf levels (level config) in
  let messageLevelIndex := indexOf levels (level_name l) in
  configLevelIndex <=? messageLevelIndex.

(** [timestamp] is [new Date().toISOString()] at the time of the call. *)
Definition createLogEntry (config : LoggerConfig) (timestamp : string)
    (l : LogLevel) (category message : string) (details : option D)
  : LogEntry :=
  {| entry_timestamp := timestamp; entry_level := l;
     entry_category := category; entry_message := message;
     entry_traceId := traceId config; entry_details := details |}.

Definition formatConsoleOutput (entry : LogEntry) : string :=
  let color := LOG_LEVEL_COLORS (entry_level entry) in
  let reset := ANSI_RESET in
  let bright := ANSI_BRIGHT in
  color +:+ "[" +:+ entry_timestamp entry +:+ "] "
  +:+ level_name (entry_level entry) +:+ reset +:+ " " +:+ bright +:+ "["
  +:+ entry_category entry +:+ "]" +:+ reset +:+ " " +:+ entry_message entry
  +:+ " " +:+ color +:+ "{traceId: " +:+ entry_traceId entry +:+ "}" +:+ reset
  +:+ match entry_details entry with
      | Some d => " " +:+ JSON_stringify_details d
      | None => ""
      end.

Definition formatJsonOutput (entry : LogEntry) : string :=
  JSON_stringify_entry entry.

(** [output]: what is written, and to which method of [console]. *)
Definition output (config : LoggerConfig) (timestamp : string) (l : LogLevel)
    (category message : string) (details : option D)
  : option (console_method * string) :=
  if negb (shouldLog config l) then None
  else
    let entry := createLogEntry config timestamp l category message details in
    let formattedOutput :=
      if bool_decide (format config = "json") then formatJsonOutput entry
      else formatConsoleOutput entry in
    match l with
    | DEBUG => Some (console_debug, formattedOutput)
    | INFO => Some (console_info, formattedOutput)
    | WARN => Some (console_warn, formattedOutput)
    | ERROR => Some (console_error, formattedOutput)
    end.

(** [child]: a logger over a copy of the configuration. *)
Definition child (config : LoggerConfig) : LoggerConfig :=
  {| level := level config; format := format config;
     traceId := traceId config |}.

End Logger.

(** [x || fallback] on a variable of the environment: unset and empty
    both give the fallback. *)
Definition or_default (x : option string) (fallback : string) : string :=
  if truthy x then default "" x else fallback.

(** [createLogger(env, traceId)]. *)
Definition createLogger (LOG_FORMAT LOG_LEVEL : option string)
    (traceId : string) : LoggerConfig :=
  let format := or_default LOG_FORMAT "console" in
  let level := or_default LOG_LEVEL "INFO" in
  {| level := level; format := format; traceId := traceId |}.

(** ** Further states and notions *)

(** The store has dropped [key]. *)
Definition state_delete (key : string) (s : State) : State :=
  {| self := self s;
     world := {| kv := delete key (kv (world s));
                 faults := faults (world s); now := now (world s);
                 upstream := upstream (world s);
                 identity := identity (world s);
                 trace := trace (world s) |} |}.

(** A computation leaves the view [f] of the manager's fields as it was,
    from any state and whatever its completion. *)
Definition keeps {A X} (f : AuthManager → X) (m : M A) : Prop :=
  ∀ s, f (self (m s).2) = f (self s).

(** What rotation owns: the environment, the pool and the current
    index. *)
Definition rotation_view (a : AuthManager) : gmap string string * list string * number :=
  (env a, credentials a, credsIndex a).

(** The environment and the pool. *)
Definition pool_view (a : AuthManager) : gmap string string * list string :=
  (env a, credentials a).

(** The name of the variable that holds slot [i]. *)
Definition slot_name (i : nat) : string := "GCP_SERVICE_ACCOUNT_" +:+ pretty i.

(** The entry that [cacheTokenInKV] writes at time [t] for a token that
    expires at [expiry]. *)
Definition token_ttl (t expiry : Z) : Z := (expiry - t) / 1000 - 300.

Definition token_data (token : string) (t expiry : Z) : CachedTokenData :=
  {| access_token := token; expiry_date := expiry; cached_at := t |}.

(** A key of the token cache. *)
Definition is_token_key `{cfg : Config} (key : string) : Prop :=
  ∃ hash, key = token_key hash.

(** A computation leaves the store as it was outside the keys in [P],
    from any state and whatever its completion. *)
Definition touches {A} (P : string → Prop) (m : M A) : Prop :=
  ∀ s key, ¬ P key → kv (world (m s).2) !! key = kv (world s) !! key.

(** What authentication may do to the world: read and write the token
    cache, ask the identity service for a token, and log. *)
Definition authentication_event `{cfg : Config} (e : event) : Prop :=
  match e with
  | KvGet key | KvPut key _ _ => is_token_key key
  | Refresh _ | Console _ => True
  | KvDelete _ | Fetch _ _ _ | Sleep _ => False
  end.

(** What a caller of the Code Assist endpoint sees of a call: the
    requests sent and the timers awaited, in order. *)
Inductive action :=
| Request (method body : string)
| Wait (ms : Z).

Definition action_of (e : event) : option action :=
  match e with
  | Fetch method _ body => Some (Request method body)
  | Sleep ms => Some (Wait ms)
  | _ => None
  end.

Definition schedule (l : list event) : list action := omap action_of l.

Definition is_request (a : action) : bool :=
  match a with Request _ _ => true | Wait _ => false end.

(** The longest run of [callEndpointWithRetry] from attempt [attempt]
    with [remaining] attempts left: every attempt sends the request, and
    every attempt but the last one of the call waits
    [baseDelay * 2 ^ (attempt - 1)] ms before the next. *)
Fixpoint retry_schedule (method body : string) (maxRetries baseDelay : Z)
    (remaining : nat) (attempt : Z) : list action :=
  match remaining with
  | O => []
  | S remaining' =>
      Request method body
      :: (if attempt <? maxRetries then [Wait (backoff baseDelay attempt)]
          else [])
      ++ retry_schedule method body maxRetries baseDelay remaining'
           (attempt + 1)
  end.

(** From any state, the completion of a computation and the schedule it
    adds to the trace satisfy [Q]. *)
Definition sched {A} (Q : Completion A → list action → Prop) (m : M A)
  : Prop :=
  ∀ s, ∃ evs,
    trace (world (m s).2) = trace (world s) ++ evs
    ∧ Q (m s).1 (schedule evs).

(** The severity of a level. *)
Definition level_rank (l : LogLevel) : Z :=
  match l with DEBUG => 0 | INFO => 1 | WARN => 2 | ERROR => 3 end.

(** The method of [console] that takes the messages of a level. *)
Definition method_of (l : LogLevel) : console_method :=
  match l with
  | DEBUG => console_debug
  | INFO => console_info
  | WARN => console_warn
  | ERROR => console_error
  end.

(** [n] normal rotations in a row. *)
Fixpoint rotate_times `{cfg : Config} `{rt : Runtime} (n : nat) : M () :=
  match n with
  | O => skip
  | S n' => rotateCredentials normal None;; rotate_times n'
  end.

(** The store entry of a token cached at time [t]. *)
Definition token_entry `{rt : Runtime} (token : string) (t expiry : Z)
  : kv_entry :=
  {| kv_value := JSON_stringify_token (token_data token t expiry);
     kv_ttl := Some (Int (token_ttl t expiry));
     kv_written := t |}.

(** The store after [cacheTokenInKV] at time [t], on a healthy store. *)
Definition cached_store `{rt : Runtime} (key token : string) (t expiry : Z)
    (m : gmap string kv_entry) : gmap string kv_entry :=
  if bool_decide (301000 ≤ expiry - t)
  then <[key := token_entry token t expiry]> m
  else m.

Definition is_refresh (e : event) : bool :=
  match e with Refresh _ => true | _ => false end.

(** ** Further sample states *)

(** The exhaustion record of index 1 ran out at time 900000. *)
Definition lapsed_state : State :=
  sample_state {[ exhausted_key (Int 1) := plain_entry "900000" ]}.

(** The rotation cursor stands at 1. *)
Definition cursor_state : State :=
  sample_state {[ "creds_index" := plain_entry "1" ]}.

(** A project id is cached for index 0. *)
Definition project_state : State :=
  sample_state {[ "project_id_0" := plain_entry "proj" ]}.

(** The store rejects the next operation. *)
Definition broken_state : State :=
  {| self := sample_manager;
     world := {| kv := ∅; faults := [true]; now := 1000000; upstream := [];
                 identity := []; trace := [] |} |}.

(** The first credential of the sample pool, decoded. *)
Definition sample_credential : OAuth2Credentials :=
  {| oa_access_token := "a0"; oa_refresh_token := "r0";
     oa_expiry_date := 2000000; oa_id_token := "id0" |}.

(** The third one, whose token expired long ago. *)
Definition stale_credential : OAuth2Credentials :=
  {| oa_access_token := "a2"; oa_refresh_token := "r2";
     oa_expiry_date := 100; oa_id_token := "id222" |}.

(** The manager stands at the stale credential; the identity service
    will issue a token that lives an hour. *)
Definition stale_state : State :=
  {| self := {| env := ∅; accessToken := None; credsIndex := Int 2;
                credsHash := 0; credentials := sample_pool |};
     world := {| kv := ∅; faults := []; now := 1000000; upstream := [];
                 identity := [Response 200 "fresh 3600"]; trace := [] |} |}.

(** The manager has taken the token of the cache entry of its first
    credential. *)
Definition authenticated_state : State :=
  state_with_token (Some "cached") (state_with_hash 3 cached_state).

(** A manager just constructed over an environment that configures
    nothing. *)
Definition unconfigured_state : State :=
  {| self := newAuthManager ∅; world := world_at 1000000 ∅ |}.


(** The exhaustion record under [key] has lapsed: there is one, and its
    time is not ahead of the clock. *)
Definition lapsed_record (w : World) (key : string) : Prop :=
  ∃ i v, key = exhausted_key i
         ∧ kv_read w key = Some v
         ∧ v ≠ ""
         ∧ lt_num (now w) (parseInt v) = false.

(** From [s] to [s'] the clock has not moved and, the rotation cursor
    apart, the store has only lost exhaustion records that had lapsed. *)
Definition store_pruned `{cfg : Config} (s s' : State) : Prop :=
  now (world s') = now (world s)
  ∧ ∀ key, key ≠ KV_CREDS_INDEX →
      kv (world s') !! key = kv (world s) !! key
      ∨ (kv (world s') !! key = None ∧ lapsed_record (world s) key).

(** A computation relates every state to the one it ends in. *)
Definition preserves {A} (R : State → State → Prop) (m : M A) : Prop :=
  ∀ s, R s (m s).2.

(** What C10 says of the rotation: from [s] to [s'] nothing has changed
    but the rotation cursor in the store and, in the manager, the access
    token and the hash. *)
Definition changes_cursor_only `{cfg : Config} (s s' : State) : Prop :=
  (∀ key, key ≠ KV_CREDS_INDEX →
     kv (world s') !! key = kv (world s) !! key)
  ∧ env (self s') = env (self s)
  ∧ credentials (self s') = credentials (self s)
  ∧ credsIndex (self s') = credsIndex (self s).

(** The largest time value of a [Date], in milliseconds either side of the
    epoch; [toISOString] throws a [RangeError] beyond it. *)
Definition MAX_TIME_VALUE : Z := 8640000000000000.

(** ** Verification *)

Section Verification.
Context `{cfg : Config} `{rt : Runtime}.

(** *** The circular scan *)

Lemma bind_run {A B} (m : M A) (f : A → M B) s :
  (m ≫= f) s = match m s with (Normal a, s') => f a s' | (Throw e, s') => (Throw e, s') end.
Proof. reflexivity. Qed.

(** One check is one read of the store, whatever the store does. *)
Lemma isCredentialExhausted_reads index s :
  ∃ evs, trace (world (isCredentialExhausted index s).2) = trace (world s) ++ evs
    ∧ kv_reads evs = [exhausted_key index]
    ∧ self (isCredentialExhausted index s).2 = self s.
Proof.
  destruct s as [a [m f t u i tr]].
  unfold isCredentialExhausted, kvGet, kvDelete, store_op, emit, date_now, skip, throw, get_world, put_world, mbind, M_bind, mret, M_ret. simpl.
  destruct f as [|[] f]; simpl.
  - destruct (kv_read _ _) as [[|c v]|]; simpl.
    + exists [KvGet (exhausted_key index)]. done.
    + destruct (lt_num _ _); simpl.
      * exists [KvGet (exhausted_key index)]. done.
      * exists [KvGet (exhausted_key index); KvDelete (exhausted_key index)]. rewrite <- app_assoc. done.
    + exists [KvGet (exhausted_key index)]. done.
  - exists [KvGet (exhausted_key index)]. done.
  - destruct (kv_read _ _) as [[|c v]|]; simpl.
    + exists [KvGet (exhausted_key index)]. done.
    + destruct (lt_num _ _); simpl.
      * exists [KvGet (exhausted_key index)]. done.
      * destruct f as [|[] f]; simpl; exists [KvGet (exhausted_key index); KvDelete (exhausted_key index)]; rewrite <- app_assoc; done.
    + exists [KvGet (exhausted_key index)]. done.
Qed.

Lemma wrap_succ total next :
  0 ≤ next < total →
  (if num_ge (Int next) (total - 1) then Int 0 else num_add (Int next) 1)
  = Int (wrap total (next + 1)).
Proof.
  intros Hn. unfold num_ge, num_add, wrap.
  destruct (Z.leb_spec (total - 1) next), (Z.leb_spec total (next + 1)); f_equal; lia.
Qed.

Lemma wrap_range total i : 0 < total → 0 ≤ i < 2 * total → 0 ≤ wrap total i < total.
Proof. intros. unfold wrap. destruct (Z.leb_spec total i); lia. Qed.

Lemma wrap_wrap total next k :
  0 ≤ next < total → 0 ≤ k < total →
  wrap total (wrap total (next + 1) + k) = wrap total (next + (1 + k)).
Proof.
  intros. unfold wrap.
  repeat match goal with |- context [?a <=? ?b] => destruct (Z.leb_spec a b) end; lia.
Qed.

Lemma visit_order_S total next m :
  0 ≤ next < total → Z.of_nat m < total →
  visit_order total next (S m)
  = wrap total (next + 1) :: visit_order total (wrap total (next + 1)) m.
Proof.
  intros Hn Hm. unfold visit_order. cbn [seq fmap list_fmap]. f_equal.
  rewrite <- fmap_S_seq, <- list_fmap_compose.
  apply Forall_fmap_ext_1, Forall_seq. intros k Hk. simpl.
  rewrite wrap_wrap by lia. f_equal. lia.
Qed.

(** The scan reads the keys of its visit order, and what it returns is
    the index it read last. *)
Lemma scan_reads total rem next s :
  0 ≤ next < total → Z.of_nat rem ≤ total →
  ∃ evs m, (m ≤ rem)%nat
    ∧ trace (world (scan_credentials total rem (Int next) s).2)
      = trace (world s) ++ evs
    ∧ kv_reads evs = (λ i, exhausted_key (Int i)) <$> visit_order total next m
    ∧ self (scan_credentials total rem (Int next) s).2 = self s
    ∧ ∀ n, (scan_credentials total rem (Int next) s).1 = Normal n →
        n = Int (wrap total (next + Z.of_nat m)).
Proof.
  revert next s. induction rem as [|rem IH]; intros next s Hn Hrem.
  - exists [], 0%nat. simpl. rewrite app_nil_r. repeat split; try done.
    intros n [= <-]. unfold wrap. destruct (Z.leb_spec total (next + Z.of_nat 0)); f_equal; lia.
  - cbn [scan_credentials]. rewrite wrap_succ by done. rewrite bind_run.
    destruct (isCredentialExhausted_reads (Int (wrap total (next + 1))) s)
      as (evs1 & Htr1 & Hr1 & Hs1).
    destruct (isCredentialExhausted _ s) as [[[]|e] s1]; simpl in *.
    + destruct (IH (wrap total (next + 1)) s1) as (evs2 & m & Hm & Htr2 & Hr2 & Hs2 & Hres).
      { apply wrap_range; lia. } { lia. }
      exists (evs1 ++ evs2), (S m). repeat split.
      * lia.
      * rewrite Htr2, Htr1, app_assoc. done.
      * unfold kv_reads in *. rewrite omap_app, Hr1, Hr2, visit_order_S by lia. done.
      * congruence.
      * intros n Hn'. rewrite (Hres n Hn'). f_equal. rewrite wrap_wrap by lia. f_equal. lia.
    + exists evs1, 1%nat. repeat split; try done; try lia.
      intros n [= <-]. done.
    + exists evs1, 1%nat. repeat split; try done; try lia.
Qed.

Lemma new_events_app s s' evs :
  trace (world s') = trace (world s) ++ evs → new_events s s' = evs.
Proof. unfold new_events. intros ->. apply drop_app_length. Qed.

Lemma visit_order_NoDup total start m :
  0 ≤ start < total → Z.of_nat m ≤ total → NoDup (visit_order total start m).
Proof.
  intros Hs Hm. unfold visit_order.
  apply NoDup_fmap_2_strong; [|apply NoDup_seq].
  intros j k Hj%elem_of_seq Hk%elem_of_seq. unfold wrap.
  repeat match goal with |- context [?a <=? ?b] => destruct (Z.leb_spec a b) end; lia.
Qed.

Lemma visit_order_range total start m :
  0 ≤ start < total → Z.of_nat m ≤ total →
  Forall (λ i, 0 ≤ i < total) (visit_order total start m).
Proof.
  intros Hs Hm. unfold visit_order. rewrite Forall_fmap.
  apply Forall_seq. intros k Hk. simpl. apply wrap_range; lia.
Qed.

(** C4. From a start index of the pool, [getNextViableCredentialIndex]
    comes to an end having checked at most N indices, all of them in the
    pool and no index twice.  Every check is one read of the store, under
    the key of the index checked; the function is structurally recursive on
    the turns left of its [while] loop, so it is total. *)
Theorem getNextViableCredentialIndex_bounded s start :
  let N := Z.of_nat (length (credentials (self s))) in
  1 ≤ N → 0 ≤ start < N →
  ∃ r s' visited,
    getNextViableCredentialIndex (Int start) s = (r, s')
    ∧ kv_reads (new_events s s') = (λ i, exhausted_key (Int i)) <$> visited
    ∧ (length visited ≤ length (credentials (self s)))%nat
    ∧ NoDup visited
    ∧ Forall (λ i, 0 ≤ i < N) visited.
Proof.
  intros N HN Hstart.
  unfold getNextViableCredentialIndex, get_self. rewrite bind_run.
  destruct (scan_reads N (length (credentials (self s))) start s)
    as (evs & m & Hm & Htr & Hreads & _ & _); [done|lia|].
  fold N.
  destruct (scan_credentials N _ _ s) as [r s'] eqn:Hrun. simpl in *.
  exists r, s', (visit_order N start m). split; [done|].
  rewrite (new_events_app _ _ _ Htr). split; [done|]. split.
  - unfold visit_order. rewrite length_fmap, length_seq. done.
  - split; [apply visit_order_NoDup | apply visit_order_range]; lia.
Qed.

Lemma exhausted_at_ext w w' index :
  kv w' = kv w → now w' = now w → exhausted_at w' index = exhausted_at w index.
Proof. intros Hkv Hnow. unfold exhausted_at, kv_read. rewrite Hkv, Hnow. done. Qed.

(** On a healthy store the check answers [exhausted_at], and leaves the
    store alone when the answer is yes. *)
Lemma isCredentialExhausted_healthy index s :
  faults (world s) = [] →
  ∃ s', isCredentialExhausted index s = (Normal (exhausted_at (world s) index), s')
    ∧ self s' = self s ∧ faults (world s') = [] ∧ now (world s') = now (world s)
    ∧ (exhausted_at (world s) index = true →
       kv (world s') = kv (world s)
       ∧ trace (world s') = trace (world s) ++ [KvGet (exhausted_key index)]).
Proof.
  destruct s as [a [m f t u i tr]]. simpl. intros ->.
  unfold isCredentialExhausted, exhausted_at, kvGet, kvDelete, store_op, emit,
    date_now, skip, throw, get_world, put_world, mbind, M_bind, mret, M_ret.
  simpl.
  destruct (kv_read _ _) as [[|c v]|]; simpl; [eauto 10| |eauto 10].
  destruct (lt_num _ _); simpl; eauto 10.
  eexists. split; [done|]. repeat split; done.
Qed.

(** The scan stops at the first index that is free, [d] steps ahead. *)
Lemma scan_finds total v rem d next s :
  faults (world s) = [] →
  0 ≤ next < total → 1 ≤ d ≤ Z.of_nat rem → d ≤ total →
  wrap total (next + d) = v →
  (∀ k, 1 ≤ k < d →
     exhausted_at (world s) (Int (wrap total (next + k))) = true) →
  exhausted_at (world s) (Int v) = false →
  ∃ s', scan_credentials total rem (Int next) s = (Normal (Int v), s')
    ∧ self s' = self s.
Proof.
  revert d next s. induction rem as [|rem IH]; intros d next s Hf Hn Hd Hdt Hv Hex Hfree.
  { lia. }
  cbn [scan_credentials]. rewrite wrap_succ, bind_run by done.
  destruct (isCredentialExhausted_healthy (Int (wrap total (next + 1))) s Hf)
    as (s1 & -> & Hs1 & Hf1 & Hnow1 & Hkeep).
  destruct (decide (d = 1)) as [->|Hd1].
  - rewrite Hv, Hfree. simpl. eauto.
  - rewrite (Hex 1) in * by lia. simpl.
    destruct Hkeep as [Hkv1 _]; [done|].
    destruct (IH (d - 1) (wrap total (next + 1)) s1) as (s' & Hrun & Hs'); try done.
    + apply wrap_range; lia.
    + lia.
    + lia.
    + rewrite wrap_wrap by lia. rewrite <- Hv. f_equal. lia.
    + intros k Hk. rewrite (exhausted_at_ext _ _ _ Hkv1 Hnow1).
      rewrite wrap_wrap by lia. apply Hex. lia.
    + rewrite (exhausted_at_ext _ _ _ Hkv1 Hnow1). done.
    + exists s'. split; [done|congruence].
Qed.

(** C5. On a healthy store, when [v] is the only index of the pool that
    is not exhausted, [getNextViableCredentialIndex] returns [v] from every
    start index, [v] itself included. *)
Theorem getNextViableCredentialIndex_single_viable s start v :
  let N := Z.of_nat (length (credentials (self s))) in
  1 ≤ N → 0 ≤ start < N → faults (world s) = [] →
  0 ≤ v < N →
  exhausted_at (world s) (Int v) = false →
  (∀ i, 0 ≤ i < N → i ≠ v → exhausted_at (world s) (Int i) = true) →
  ∃ s', getNextViableCredentialIndex (Int start) s = (Normal (Int v), s').
Proof.
  intros N HN Hstart Hf Hv Hfree Hothers.
  unfold getNextViableCredentialIndex, get_self. rewrite bind_run. fold N.
  destruct (scan_finds N v (length (credentials (self s)))
              (if start <? v then v - start else v - start + N) start s)
    as (s' & Hrun & _); try done.
  - destruct (Z.ltb_spec start v); lia.
  - destruct (Z.ltb_spec start v); lia.
  - unfold wrap. destruct (Z.ltb_spec start v);
      match goal with |- context [?a <=? ?b] => destruct (Z.leb_spec a b) end; lia.
  - intros k Hk. apply Hothers.
    + apply wrap_range; destruct (Z.ltb_spec start v); lia.
    + unfold wrap. destruct (Z.ltb_spec start v);
        match goal with |- context [?a <=? ?b] => destruct (Z.leb_spec a b) end; lia.
  - eauto.
Qed.

(** With nothing free the scan uses all its turns. *)
Lemma scan_all_exhausted total rem next s :
  faults (world s) = [] →
  0 ≤ next < total → Z.of_nat rem ≤ total →
  (∀ i, 0 ≤ i < total → exhausted_at (world s) (Int i) = true) →
  ∃ s', scan_credentials total rem (Int next) s
        = (Normal (Int (wrap total (next + Z.of_nat rem))), s')
    ∧ self s' = self s ∧ kv (world s') = kv (world s)
    ∧ trace (world s') = trace (world s)
        ++ ((λ i, KvGet (exhausted_key (Int i))) <$> visit_order total next rem).
Proof.
  revert next s. induction rem as [|rem IH]; intros next s Hf Hn Hrem Hall.
  - exists s. simpl. rewrite app_nil_r. repeat split; try done.
    replace (wrap total (next + Z.of_nat 0)) with next; [done|].
    unfold wrap. destruct (Z.leb_spec total (next + Z.of_nat 0)); lia.
  - cbn [scan_credentials]. rewrite visit_order_S by lia.
    rewrite wrap_succ, bind_run by done.
    destruct (isCredentialExhausted_healthy (Int (wrap total (next + 1))) s Hf)
      as (s1 & -> & Hs1 & Hf1 & Hnow1 & Hkeep).
    rewrite Hall in * by (apply wrap_range; lia). simpl.
    destruct Hkeep as [Hkv1 Htr1]; [done|].
    destruct (IH (wrap total (next + 1)) s1) as (s' & -> & Hs' & Hkv' & Htr'); try done.
    + apply wrap_range; lia.
    + lia.
    + intros i Hi. rewrite (exhausted_at_ext _ _ _ Hkv1 Hnow1). auto.
    + exists s'. repeat split; try congruence.
      * rewrite wrap_wrap by lia. do 4 f_equal. lia.
      * rewrite Htr', Htr1, <- app_assoc. done.
Qed.

(** C6. On a healthy store, when every index of the pool is exhausted,
    [getNextViableCredentialIndex] completes without an error and returns
    an index of the pool: the one its scan visited last, which is the start
    index, one lap later.  The credential list and the store are left as
    they were. *)
Theorem getNextViableCredentialIndex_all_exhausted s start :
  let N := Z.of_nat (length (credentials (self s))) in
  1 ≤ N → 0 ≤ start < N → faults (world s) = [] →
  (∀ i, 0 ≤ i < N → exhausted_at (world s) (Int i) = true) →
  ∃ r s',
    getNextViableCredentialIndex (Int start) s = (Normal (Int r), s')
    ∧ 0 ≤ r < N
    ∧ last (kv_reads (new_events s s')) = Some (exhausted_key (Int r))
    ∧ r = start
    ∧ credentials (self s') = credentials (self s)
    ∧ kv (world s') = kv (world s).
Proof.
  intros N HN Hstart Hf Hall.
  unfold getNextViableCredentialIndex, get_self. rewrite bind_run. fold N.
  destruct (scan_all_exhausted N (length (credentials (self s))) start s)
    as (s' & Hrun & Hs' & Hkv' & Htr'); try done; try lia.
  simpl. rewrite Hrun.
  assert (Hr : wrap N (start + Z.of_nat (length (credentials (self s)))) = start).
  { unfold wrap. fold N. destruct (Z.leb_spec N (start + N)); lia. }
  exists start, s'. rewrite Hr. repeat split; try done; try lia; [|congruence].
  rewrite (new_events_app _ _ _ Htr').
  destruct (length (credentials (self s))) as [|n] eqn:Hlen; [lia|].
  unfold visit_order. rewrite seq_S, !fmap_app. simpl.
  unfold kv_reads. rewrite omap_app. simpl. rewrite last_snoc.
  do 3 f_equal. rewrite <- Hr. f_equal. lia.
Qed.

(** *** What a computation adds to the trace *)

Lemma emits_ret {A} P (a : A) : emits P (mret a).
Proof. intros s. exists []. by rewrite app_nil_r. Qed.

Lemma emits_throw {A} P e : emits P (throw (A:=A) e).
Proof. intros s. exists []. by rewrite app_nil_r. Qed.

Lemma emits_bind {A B} P (m : M A) (f : A → M B) :
  emits P m → (∀ a, emits P (f a)) → emits P (m ≫= f).
Proof.
  intros Hm Hf s. rewrite bind_run.
  destruct (Hm s) as (evs1 & Htr1 & HP1).
  destruct (m s) as [[a|e] s1]; simpl in *; [|by eauto].
  destruct (Hf a s1) as (evs2 & Htr2 & HP2).
  exists (evs1 ++ evs2). rewrite Htr2, Htr1, app_assoc.
  split; [done|]. by apply Forall_app.
Qed.

Lemma emits_try_catch {A} P (m : M A) (h : exn → M A) :
  emits P m → (∀ e, emits P (h e)) → emits P (try_catch m h).
Proof.
  intros Hm Hh s. unfold try_catch.
  destruct (Hm s) as (evs1 & Htr1 & HP1).
  destruct (m s) as [[a|e] s1]; simpl in *; [by eauto|].
  destruct (Hh e s1) as (evs2 & Htr2 & HP2).
  exists (evs1 ++ evs2). rewrite Htr2, Htr1, app_assoc.
  split; [done|]. by apply Forall_app.
Qed.

(** Unfolds the operations of the monad on an explicit state. *)
Ltac run_monad :=
  unfold try_catch, console, emit, sleep, date_now, set_accessToken,
    set_credsIndex, set_credsHash, set_credentials, get_world, put_world,
    get_self, put_self, throw, skip, mbind, M_bind, mret, M_ret;
  simpl.

(** A primitive adds no event or one, on every path through the fault
    schedule and the scripted answers. *)
Ltac emits_leaf :=
  let s := fresh "s" in
  intros s; destruct s as [? [? ? ? ? ? ?]];
  unfold emit, get_world, put_world, get_self, put_self, throw, skip,
    mbind, M_bind, mret, M_ret; simpl;
  repeat match goal with
         | |- context [match ?f with [] => _ | _ :: _ => _ end] =>
             is_var f; destruct f as [|[] ?]
         | |- context [answer (head ?l)] => is_var l; destruct l as [|[] ?]
         end;
  simpl;
  first [ exists []; split; [by rewrite app_nil_r | constructor]
        | eexists [_]; split; [reflexivity | by repeat constructor] ].

Lemma emits_skip P : emits P skip.
Proof. apply emits_ret. Qed.
Lemma emits_get_self P : emits P get_self.
Proof. emits_leaf. Qed.
Lemma emits_date_now P : emits P date_now.
Proof. emits_leaf. Qed.
Lemma emits_set_accessToken P v : emits P (set_accessToken v).
Proof. emits_leaf. Qed.
Lemma emits_set_credsIndex P v : emits P (set_credsIndex v).
Proof. emits_leaf. Qed.
Lemma emits_set_credsHash P v : emits P (set_credsHash v).
Proof. emits_leaf. Qed.
Lemma emits_set_credentials P v : emits P (set_credentials v).
Proof. emits_leaf. Qed.
Lemma emits_console P line : P (Console line) → emits P (console line).
Proof. intros HP. emits_leaf. Qed.
Lemma emits_sleep P ms : P (Sleep ms) → emits P (sleep ms).
Proof. intros HP. emits_leaf. Qed.
Lemma emits_kvGet P key : P (KvGet key) → emits P (kvGet key).
Proof. intros HP. unfold kvGet, store_op. emits_leaf. Qed.
Lemma emits_kvPut P key v ttl : P (KvPut key v ttl) → emits P (kvPut key v ttl).
Proof. intros HP. unfold kvPut, store_op. emits_leaf. Qed.
Lemma emits_kvDelete P key : P (KvDelete key) → emits P (kvDelete key).
Proof. intros HP. unfold kvDelete, store_op. emits_leaf. Qed.
Lemma emits_fetch_upstream P method body :
  (∀ t, P (Fetch method t body)) → emits P (fetch_upstream method body).
Proof. intros HP. unfold fetch_upstream. emits_leaf. Qed.
Lemma emits_fetch_identity P r : P (Refresh r) → emits P (fetch_identity r).
Proof. intros HP. unfold fetch_identity. emits_leaf. Qed.

(** One syntax-directed step through a method body. *)
Ltac emits_step :=
  lazymatch goal with
  | |- emits _ (mbind _ _) => apply emits_bind; [|intros ?]
  | |- emits _ (mret _) => apply emits_ret
  | |- emits _ (throw _) => apply emits_throw
  | |- emits _ skip => apply emits_skip
  | |- emits _ (try_catch _ _) => apply emits_try_catch; [|intros ?]
  | |- emits _ get_self => apply emits_get_self
  | |- emits _ date_now => apply emits_date_now
  | |- emits _ (set_accessToken _) => apply emits_set_accessToken
  | |- emits _ (set_credsIndex _) => apply emits_set_credsIndex
  | |- emits _ (set_credsHash _) => apply emits_set_credsHash
  | |- emits _ (set_credentials _) => apply emits_set_credentials
  | |- emits _ (console _) => apply emits_console
  | |- emits _ (sleep _) => apply emits_sleep
  | |- emits _ (kvGet _) => apply emits_kvGet
  | |- emits _ (kvPut _ _ _) => apply emits_kvPut
  | |- emits _ (kvDelete _) => apply emits_kvDelete
  | |- emits _ (fetch_upstream _ _) => apply emits_fetch_upstream; intros ?
  | |- emits _ (fetch_identity _) => apply emits_fetch_identity
  | |- emits _ (if ?b then _ else _) => destruct b
  | |- emits _ (match ?x with _ => _ end) => destruct x
  | |- emits _ (let '(_, _) := ?x in _) => destruct x
  end.

Ltac emits_auto := repeat emits_step; try done; auto.


(** *** The token cache *)


(** The run of [initializeAuth] up to its decision on a cache entry. *)
Lemma initializeAuth_cache_hit s c text d :
  credentials (self s) ≠ [] →
  credential_at (credentials (self s)) (credsIndex (self s))
    ≫= JSON_parse_credentials = Some c →
  head (faults (world s)) ≠ Some true →
  kv_read (world s) (token_key (hashString (oa_id_token c))) = Some text →
  JSON_parse_token text = Some d →
  let h := hashString (oa_id_token c) in
  let s1 := state_cache_hit h (token_key h) s in
  let remaining := expiry_date d - now (world s) in
  initializeAuth s =
    if TOKEN_BUFFER_TIME <? remaining then
      (Normal (),
       state_log (Console ("Using cached token, valid for "
                           +:+ pretty (remaining / 1000) +:+ " more seconds"))
         (state_with_token (Some (access_token d)) s1))
    else
      try_catch (use_original_or_refresh c) authentication_failed
        (state_log (Console "Cached token expired or expiring soon") s1).
Proof.
  intros Hpool Hcred Hfault Hread Htoken.
  destruct s as [a [m f t u i tr]]. simpl in *.
  unfold initializeAuth, parse_credentials.
  rewrite bind_run. simpl. rewrite bool_decide_false by done.
  rewrite Hcred.
  unfold read_cached_token, adopt_cached_token, kvGet, store_op, kv_read in *.
  simpl in Hread.
  run_monad.
  destruct f as [|[] f]; [|done|]; simpl; rewrite Hread, Htoken; simpl;
    destruct (TOKEN_BUFFER_TIME <? expiry_date d - t); reflexivity.
Qed.



(** *** [callEndpoint] *)

Lemma initializeAuth_no_fetch : emits (λ e, is_fetch e = false) initializeAuth.
Proof.
  unfold initializeAuth, parse_credentials, read_cached_token, adopt_cached_token,
    use_original_or_refresh, refreshAndCacheToken, cacheTokenInKV,
    authentication_failed.
  emits_auto.
Qed.

Lemma clearTokenCache_no_fetch : emits (λ e, is_fetch e = false) clearTokenCache.
Proof. unfold clearTokenCache. emits_auto. Qed.

Lemma requests_none l :
  Forall (λ e, is_fetch e = false) l → upstream_requests l = [].
Proof.
  induction 1 as [|e l He _ IH]; [done|].
  unfold upstream_requests in *. destruct e; simpl in *; done.
Qed.

Lemma requests_at_most_emits {A} (m : M A) n :
  emits (λ e, is_fetch e = false) m → requests_at_most n m.
Proof.
  intros Hm s. destruct (Hm s) as (evs & Htr & HP).
  exists evs. split; [done|]. rewrite requests_none by done. simpl. lia.
Qed.

Lemma requests_at_most_bind {A B} (m : M A) (f : A → M B) n k :
  requests_at_most n m → (∀ a, requests_at_most k (f a)) →
  requests_at_most (n + k) (m ≫= f).
Proof.
  intros Hm Hf s. rewrite bind_run.
  destruct (Hm s) as (evs1 & Htr1 & Hn).
  destruct (m s) as [[a|e] s1]; simpl in *.
  - destruct (Hf a s1) as (evs2 & Htr2 & Hk).
    exists (evs1 ++ evs2). rewrite Htr2, Htr1, app_assoc. split; [done|].
    unfold upstream_requests in *. rewrite omap_app, length_app. lia.
  - exists evs1. split; [done|lia].
Qed.

Lemma requests_at_most_fetch method body :
  requests_at_most 1 (fetch_upstream method body).
Proof.
  intros [a [m f t u i tr]]. unfold fetch_upstream. run_monad.
  exists [Fetch method (accessToken a) body].
  split; [|done]. by destruct u as [|[] u].
Qed.

Lemma response_json_no_fetch text :
  emits (λ e, is_fetch e = false) (response_json text).
Proof. unfold response_json. emits_auto. Qed.

Lemma callEndpoint_body_requests again method body (isRetry : bool) k :
  (isRetry = false → requests_at_most k again) →
  requests_at_most (1 + if isRetry then 0 else k)%nat
    (callEndpoint_body again method body isRetry).
Proof.
  intros Hagain. unfold callEndpoint_body.
  apply (requests_at_most_bind _ _ 0);
    [apply requests_at_most_emits, initializeAuth_no_fetch|intros _].
  apply (requests_at_most_bind _ _ 1); [apply requests_at_most_fetch|].
  intros [status text].
  destruct (negb (response_ok status));
    [|apply requests_at_most_emits, response_json_no_fetch].
  destruct isRetry; rewrite ?andb_false_r; simpl.
  - apply requests_at_most_emits. emits_auto.
  - destruct (status =? 401); simpl;
      [|apply requests_at_most_emits; emits_auto].
    apply (requests_at_most_bind _ _ 0);
      [apply requests_at_most_emits; emits_auto|intros _].
    apply (requests_at_most_bind _ _ 0);
      [apply requests_at_most_emits; emits_auto|intros _].
    apply (requests_at_most_bind _ _ 0);
      [apply requests_at_most_emits, clearTokenCache_no_fetch|intros _].
    apply (requests_at_most_bind _ _ 0);
      [apply requests_at_most_emits, initializeAuth_no_fetch|intros _].
    auto.
Qed.

Lemma callEndpoint_requests method body (isRetry : bool) :
  requests_at_most (if isRetry then 1 else 2)%nat
    (callEndpoint method body isRetry).
Proof.
  unfold callEndpoint.
  pose proof (callEndpoint_body_requests
                (callEndpoint_body (throw (Error "unreachable")) method body true)
                method body isRetry 1%nat) as H.
  destruct isRetry.
  - apply H. done.
  - apply H. intros _.
    apply (callEndpoint_body_requests _ method body true 0%nat). done.
Qed.

(** [clearTokenCache] never throws; it asks the store to delete the entry
    of the current credential. *)
Lemma clearTokenCache_completes s :
  ∃ s' evs, clearTokenCache s = (Normal (), s')
    ∧ self s' = self s
    ∧ trace (world s') = trace (world s) ++ evs
    ∧ KvDelete (token_key (credsHash (self s))) ∈ evs
    ∧ (head (faults (world s)) ≠ Some true →
       kv (world s') !! token_key (credsHash (self s)) = None).
Proof.
  destruct s as [a [m f t u i tr]]. unfold clearTokenCache, kvDelete, store_op.
  run_monad.
  destruct f as [|[] f]; simpl;
    (eexists; eexists [_; _]; split; [reflexivity|]; split; [done|]);
    simpl; rewrite <- ?app_assoc;
    (split; [reflexivity|split; [set_solver|]]);
    intros ?; try done; apply lookup_delete_eq.
Qed.

Lemma console_run line s :
  console line s = (Normal (), state_log (Console line) s).
Proof. reflexivity. Qed.

Lemma set_accessToken_run v s :
  set_accessToken v s = (Normal (), state_with_token v s).
Proof. reflexivity. Qed.

(** The call with [isRetry = true] never calls itself. *)
Lemma callEndpoint_body_retry again again' method body s :
  callEndpoint_body again method body true s
  = callEndpoint_body again' method body true s.
Proof.
  unfold callEndpoint_body. rewrite !bind_run.
  destruct (initializeAuth s) as [[[]|e] s1]; [|done]. rewrite !bind_run.
  destruct (fetch_upstream method body s1) as [[[status text]|e] s2]; [|done].
  by rewrite andb_false_r.
Qed.

(** C8. [callEndpoint] sends at most two requests, at most one when it is
    itself the retry.  Once the call is authenticated and the endpoint has
    answered: a 2xx answer is returned to the caller; a non-2xx answer
    other than a 401 on the first call is thrown as an error that carries
    status and body, with nothing done after it; a 401 on the first call
    clears [accessToken] and deletes the cache entry of the credential,
    and the call continues as a fresh authentication followed by
    [callEndpoint(method, body, true)], whose own answer falls under the
    two first cases. *)
Theorem callEndpoint_retries_once method body (isRetry : bool) s :
  (length (upstream_requests
             (new_events s (callEndpoint method body isRetry s).2))
   ≤ if isRetry then 1 else 2)%nat
  ∧ ∀ s1 status text s2,
      initializeAuth s = (Normal (), s1) →
      fetch_upstream method body s1 = (Normal (status, text), s2) →
      (response_ok status = true →
       callEndpoint method body isRetry s = response_json text s2)
      ∧ (response_ok status = false → status ≠ 401 ∨ isRetry = true →
         callEndpoint method body isRetry s
         = (Throw (api_call_failed status text), s2))
      ∧ (status = 401 → isRetry = false →
         ∃ s3, forget_token s2 = (Normal (), s3)
           ∧ accessToken (self s3) = None
           ∧ KvDelete (token_key (credsHash (self s2))) ∈ new_events s2 s3
           ∧ (head (faults (world s2)) ≠ Some true →
              kv (world s3) !! token_key (credsHash (self s2)) = None)
           ∧ callEndpoint method body isRetry s
             = (initializeAuth;; callEndpoint method body true) s3).
Proof.
  split.
  { destruct (callEndpoint_requests method body isRetry s) as (evs & Htr & Hlen).
    by rewrite (new_events_app _ _ _ Htr). }
  intros s1 status text s2 Hinit Hfetch.
  assert (Hstep : ∀ again,
    callEndpoint_body again method body isRetry s =
    (if negb (response_ok status) then
       if (status =? 401) && negb isRetry then
         console "Got 401 error, clearing token cache and retrying...";;
         set_accessToken None;; clearTokenCache;; initializeAuth;; again
       else throw (api_call_failed status text)
     else response_json text) s2).
  { intros again. unfold callEndpoint_body.
    by rewrite bind_run, Hinit, bind_run, Hfetch. }
  unfold callEndpoint at 1 2 3. rewrite Hstep.
  split; [|split].
  - intros ->. done.
  - intros -> Hwhy. simpl.
    replace ((status =? 401) && negb isRetry) with false; [done|].
    destruct Hwhy as [Hne| ->]; [|by rewrite andb_false_r].
    by destruct (Z.eqb_spec status 401).
  - intros -> ->. simpl.
    rewrite bind_run, console_run, bind_run, set_accessToken_run, bind_run.
    destruct (clearTokenCache_completes
                (state_with_token None
                   (state_log (Console "Got 401 error, clearing token cache and retrying...") s2)))
      as (s3 & evs & Hclear & Hself & Htr & Hin & Hgone).
    rewrite Hclear. exists s3. split; [|split; [|split; [|split]]].
    + unfold forget_token.
      by rewrite bind_run, console_run, bind_run, set_accessToken_run.
    + by rewrite Hself.
    + erewrite new_events_app;
        [|rewrite Htr; simpl; rewrite <- app_assoc; reflexivity].
      set_solver.
    + exact Hgone.
    + rewrite !bind_run. destruct (initializeAuth s3) as [[[]|e] s4]; [|done].
      apply callEndpoint_body_retry.
Qed.

(** *** Rotation *)

Lemma isCredentialExhausted_emits P index :
  (∀ k, P (KvGet k)) → (∀ k, P (KvDelete k)) →
  emits P (isCredentialExhausted index).
Proof. intros ??. unfold isCredentialExhausted. emits_auto. Qed.

Lemma scan_credentials_emits P total remaining next :
  (∀ k, P (KvGet k)) → (∀ k, P (KvDelete k)) →
  emits P (scan_credentials total remaining next).
Proof.
  intros ??. revert next. induction remaining as [|n IH]; intros next; simpl.
  - apply emits_ret.
  - apply emits_bind; [by apply isCredentialExhausted_emits|].
    intros []; simpl; [apply IH|apply emits_ret].
Qed.

Lemma getNextViableCredentialIndex_emits P index :
  (∀ k, P (KvGet k)) → (∀ k, P (KvDelete k)) →
  emits P (getNextViableCredentialIndex index).
Proof.
  intros ??. unfold getNextViableCredentialIndex.
  apply emits_bind; [apply emits_get_self|intros a].
  by apply scan_credentials_emits.
Qed.

Lemma load_credentials_emits P : emits P load_credentials.
Proof. unfold load_credentials. emits_auto. Qed.

Lemma load_current_index_emits P :
  (∀ k, P (KvGet k)) → (∀ l, P (Console l)) → emits P load_current_index.
Proof. intros ??. unfold load_current_index. emits_auto. Qed.

(** Without a reset time both reasons take the [else] branch. *)
Lemma rotateCredentials_plain reason resetIso :
  truthy resetIso = false →
  rotateCredentials reason resetIso =
    (load_credentials;;
     load_current_index;;
     a ← get_self;
     nextIndex ← getNextViableCredentialIndex (credsIndex a);
     set_credsIndex nextIndex;;
     kvPut KV_CREDS_INDEX (num_to_string nextIndex) None;;
     console ("Rotated credentials → " +:+ num_to_string nextIndex
              +:+ " (" +:+ reason_label reason +:+ ")");;
     set_accessToken None;;
     set_credsHash 0).
Proof. intros Hreset. unfold rotateCredentials. by rewrite Hreset, andb_false_r. Qed.

Lemma rotateCredentials_plain_emits reason resetIso :
  truthy resetIso = false →
  emits writes_cursor_only (rotateCredentials reason resetIso).
Proof.
  intros Hreset. rewrite rotateCredentials_plain by done.
  apply emits_bind; [apply load_credentials_emits|intros _].
  apply emits_bind; [by apply load_current_index_emits|intros _].
  apply emits_bind; [apply emits_get_self|intros a].
  apply emits_bind; [by apply getNextViableCredentialIndex_emits|intros next].
  emits_auto.
Qed.

Lemma load_credentials_run s :
  world (load_credentials s).2 = world s
  ∧ ((load_credentials s).1 = Normal () →
     credentials (self (load_credentials s).2) ≠ []).
Proof.
  destruct s as [a w]. unfold load_credentials. run_monad.
  destruct (bool_decide_reflect (credentials a = [])) as [Ha|Ha]; simpl; [|done].
  destruct (bool_decide_reflect (configured_credentials (env a) = [])); simpl; done.
Qed.

Lemma load_current_index_run s :
  (∀ v, kv_read (world s) KV_CREDS_INDEX = Some v →
        ∃ z, parseInt v = Int z ∧ 0 ≤ z) →
  credentials (self s) ≠ [] →
  (load_current_index s).1 = Normal ()
  ∧ credentials (self (load_current_index s).2) = credentials (self s)
  ∧ in_pool (Z.of_nat (length (credentials (self s))))
      (credsIndex (self (load_current_index s).2)).
Proof.
  destruct s as [a [m f t u i tr]]. simpl. intros Hstored Hpool.
  assert (0 < Z.of_nat (length (credentials a))) by (destruct (credentials a); simpl; [done|lia]).
  unfold load_current_index, kvGet, store_op. run_monad.
  assert (Hzero : in_pool (Z.of_nat (length (credentials a)))
            (num_min (parseInt "0") (Z.of_nat (length (credentials a)) - 1))).
  { exists 0. split; [|lia]. simpl. f_equal. lia. }
  destruct f as [|[] f]; simpl; try done.
  all: destruct (kv_read _ _) as [v|] eqn:Hv; simpl; try done.
  all: destruct (Hstored v) as (z & -> & Hz); [done|]; simpl.
  all: repeat split; exists (Z.min z (Z.of_nat (length (credentials a)) - 1)); split; [done|lia].
Qed.

Lemma markCredentialExhausted_self index resetIso s :
  self (markCredentialExhausted index resetIso s).2 = self s.
Proof.
  destruct s as [a [m f t u i tr]].
  unfold markCredentialExhausted, toISOString, kvPut, store_op. run_monad.
  destruct f as [|[] f]; simpl; try done;
    destruct (num_add (Date_parse resetIso) EXHAUSTION_SAFETY_BUFFER); done.
Qed.

Lemma getNextViableCredentialIndex_in_pool s start :
  in_pool (Z.of_nat (length (credentials (self s)))) start →
  self (getNextViableCredentialIndex start s).2 = self s
  ∧ ∀ n, (getNextViableCredentialIndex start s).1 = Normal n →
      in_pool (Z.of_nat (length (credentials (self s)))) n.
Proof.
  intros (z & -> & Hz).
  unfold getNextViableCredentialIndex, get_self. rewrite bind_run.
  destruct (scan_reads (Z.of_nat (length (credentials (self s))))
              (length (credentials (self s))) z s)
    as (evs & m & Hm & _ & _ & Hself & Hres); [done|lia|].
  split; [done|]. intros n Hn. rewrite (Hres n Hn).
  eexists. split; [done|]. apply wrap_range; lia.
Qed.

Lemma kvPut_run key v ttl s :
  self (kvPut key v ttl s).2 = self s
  ∧ ((kvPut key v ttl s).1 = Normal () →
     kv_value <$> kv (world (kvPut key v ttl s).2) !! key = Some v).
Proof.
  destruct s as [a [m f t u i tr]]. unfold kvPut, store_op. run_monad.
  destruct f as [|[] f]; simpl; split; try done; intros _;
    by rewrite lookup_insert_eq.
Qed.

(** The current index after the cursor was read: the stored text, "0"
    when there is none or when the read is rejected, read by [parseInt]
    and capped at N-1 by [Math.min]. *)
Lemma load_rotation_state_index s :
  let loaded := load_rotation_state s in
  let N := Z.of_nat (length (credentials (self loaded.2))) in
  loaded.1 = Normal () →
  credsIndex (self loaded.2)
  = num_min (parseInt (default "0" (cursor_read s))) (N - 1)
  ∧ KvGet KV_CREDS_INDEX ∈ new_events s loaded.2.
Proof.
  unfold load_rotation_state. cbv zeta. rewrite bind_run.
  destruct (load_credentials_run s) as [Hw1 _].
  destruct (load_credentials s) as [[[]|e] s1]; simpl in *; [|done].
  unfold cursor_read, new_events. rewrite <- Hw1. clear Hw1.
  destruct s1 as [a [m f t u i tr]].
  unfold load_current_index, kvGet, store_op. run_monad.
  destruct f as [|[] f]; simpl; intros _;
    (split; [done|]); rewrite <- !app_assoc, drop_app_length; set_solver.
Qed.

Lemma rotateCredentials_from_loaded reason resetIso s :
  rotateCredentials reason resetIso s
  = (load_rotation_state;; select_and_persist reason resetIso) s.
Proof.
  unfold rotateCredentials, load_rotation_state, select_and_persist.
  rewrite !bind_run.
  destruct (load_credentials s) as [[[]|e] s1]; [|done].
  rewrite !bind_run.
  by destruct (load_current_index s1) as [[[]|e] s2].
Qed.

(** C9 (amended). At the start of a rotation the cursor is read from the
    store: the current index, from which the rotation decides, is the
    stored text read by [parseInt] and capped at N-1 by [Math.min], with
    "0" for the text when the store has none or rejects the read; nothing
    bounds it from below.  When the stored cursor, if there is one, reads
    as a non-negative integer, the indices of the rotation stay in the
    pool: the current index is in [0, N-1], and the selected index that is
    persisted is again in [0, N-1]. *)
Theorem rotateCredentials_cursor_in_range reason resetIso s :
  let loaded := load_rotation_state s in
  let N := Z.of_nat (length (credentials (self loaded.2))) in
  (loaded.1 = Normal () →
   credsIndex (self loaded.2)
   = num_min (parseInt (default "0" (cursor_read s))) (N - 1)
   ∧ KvGet KV_CREDS_INDEX ∈ new_events s loaded.2)
  ∧ rotateCredentials reason resetIso s
    = (load_rotation_state;; select_and_persist reason resetIso) s
  ∧ ((∀ v, kv_read (world s) KV_CREDS_INDEX = Some v →
           ∃ z, parseInt v = Int z ∧ 0 ≤ z) →
     rotation_in_range reason resetIso s).
Proof.
  intros loaded N.
  split; [apply load_rotation_state_index|].
  split; [apply rotateCredentials_from_loaded|].
  clear loaded N.
  intros Hstored. unfold rotation_in_range, load_rotation_state, rotateCredentials.
  cbv zeta. rewrite !bind_run.
  destruct (load_credentials_run s) as [Hw1 Hpool1].
  destruct (load_credentials s) as [[[]|e] s1]; simpl in *; [|done].
  specialize (Hpool1 eq_refl).
  destruct (load_current_index_run s1) as (Hok & Hcreds & Hin);
    [by rewrite Hw1|done|].
  rewrite !bind_run.
  destruct (load_current_index s1) as [[[]|e] s2]; simpl in *; [|done].
  rewrite Hcreds. split; [done|].
  set (N := Z.of_nat (length (credentials (self s1)))) in *.
  assert (Hnext : ∀ s2', self s2' = self s2 →
    let go := (nextIndex ← getNextViableCredentialIndex (credsIndex (self s2));
               set_credsIndex nextIndex;;
               kvPut KV_CREDS_INDEX (num_to_string nextIndex) None;;
               console ("Rotated credentials → " +:+ num_to_string nextIndex
                        +:+ " (" +:+ reason_label reason +:+ ")");;
               set_accessToken None;;
               set_credsHash 0) s2' in
    go.1 = Normal () →
    in_pool N (credsIndex (self go.2))
    ∧ kv_value <$> kv (world go.2) !! KV_CREDS_INDEX
      = Some (num_to_string (credsIndex (self go.2)))).
  { intros s2' Hs2'. cbv zeta. rewrite !bind_run.
    destruct (getNextViableCredentialIndex_in_pool s2' (credsIndex (self s2)))
      as [Hself3 Hres]; [by rewrite Hs2', Hcreds|].
    destruct (getNextViableCredentialIndex _ s2') as [[next|e] s3]; [|done].
    simpl in *. specialize (Hres next eq_refl).
    rewrite Hs2', Hcreds in Hres. rewrite !bind_run. simpl. rewrite !bind_run.
    match goal with |- context [kvPut ?k ?v ?t ?st] =>
      destruct (kvPut_run k v t st) as [Hself4 Hkv4];
      destruct (kvPut k v t st) as [[[]|e] s4]; [|done]
    end.
    simpl in *. intros _. rewrite Hself4. simpl. split; [done|]. by apply Hkv4. }
  unfold get_self. cbv beta iota.
  destruct (bool_decide (reason = exhausted) && truthy resetIso).
  - rewrite !bind_run.
    pose proof (markCredentialExhausted_self (credsIndex (self s2))
                  (default "" resetIso) s2) as Hmark.
    destruct (markCredentialExhausted _ _ s2) as [[[]|e] s2']; [|done].
    simpl in *. apply (Hnext s2' Hmark).
  - apply (Hnext s2 eq_refl).
Qed.

(** *** The steps of a rotation on a healthy store *)

Lemma load_credentials_loaded s :
  credentials (self s) ≠ [] → load_credentials s = (Normal (), s).
Proof.
  intros Hpool. unfold load_credentials, get_self. rewrite bind_run.
  by rewrite bool_decide_false.
Qed.

Lemma load_current_index_healthy s :
  faults (world s) = [] →
  let current :=
    num_min (parseInt (default "0" (kv_read (world s) KV_CREDS_INDEX)))
      (Z.of_nat (length (credentials (self s))) - 1) in
  load_current_index s =
    (Normal (),
     state_log (Console ("Current credential index: " +:+ num_to_string current))
       (state_with_index current (state_log (KvGet KV_CREDS_INDEX) s))).
Proof.
  destruct s as [a [m f t u i tr]]. simpl. intros ->.
  unfold load_current_index, kvGet, store_op. run_monad. reflexivity.
Qed.

Lemma markCredentialExhausted_healthy index resetIso reset s :
  faults (world s) = [] →
  Date_parse resetIso = Int reset →
  let record := exhaustion_record (now (world s)) reset in
  markCredentialExhausted index resetIso s =
    (Normal (),
     state_log (Console ("Credential " +:+ num_to_string index
                         +:+ " marked exhausted until "
                         +:+ Date_toISOString (reset + EXHAUSTION_SAFETY_BUFFER)))
       (state_store (exhausted_key index) record
          (state_log (KvPut (exhausted_key index) (kv_value record)
                        (kv_ttl record)) s))).
Proof.
  destruct s as [a [m f t u i tr]]. simpl. intros -> Hreset.
  unfold markCredentialExhausted, toISOString, kvPut, store_op.
  rewrite Hreset. run_monad. reflexivity.
Qed.

Lemma kvPut_healthy key v ttl s :
  faults (world s) = [] →
  kvPut key v ttl s =
    (Normal (),
     state_store key {| kv_value := v; kv_ttl := ttl;
                        kv_written := now (world s) |}
       (state_log (KvPut key v ttl) s)).
Proof.
  destruct s as [a [m f t u i tr]]. simpl. intros ->.
  unfold kvPut, store_op. run_monad. reflexivity.
Qed.

Lemma isCredentialExhausted_store index s :
  faults (world s) = [] →
  ∀ key, key ≠ exhausted_key index →
    kv (world (isCredentialExhausted index s).2) !! key = kv (world s) !! key.
Proof.
  destruct s as [a [m f t u i tr]]. simpl. intros -> key Hkey.
  unfold isCredentialExhausted, kvGet, kvDelete, store_op. run_monad.
  destruct (kv_read _ _) as [[|c v]|]; simpl; try done.
  destruct (lt_num _ _); simpl; try done.
  by rewrite lookup_delete_ne.
Qed.

Lemma kv_writes_none l :
  Forall (λ e, kv_writes [e] = []) l → kv_writes l = [].
Proof.
  induction 1 as [|e l He _ IH]; [done|].
  unfold kv_writes in *. destruct e; simpl in *; done.
Qed.

Lemma getNextViableCredentialIndex_next_free s :
  faults (world s) = [] →
  length (credentials (self s)) = 3%nat →
  exhausted_at (world s) (Int 1) = false →
  ∃ s', getNextViableCredentialIndex (Int 0) s = (Normal (Int 1), s')
    ∧ self s' = self s ∧ faults (world s') = []
    ∧ now (world s') = now (world s)
    ∧ (∀ key, key ≠ exhausted_key (Int 1) →
         kv (world s') !! key = kv (world s) !! key)
    ∧ ∃ evs, trace (world s') = trace (world s) ++ evs ∧ kv_writes evs = [].
Proof.
  intros Hf Hlen Hfree.
  unfold getNextViableCredentialIndex, get_self. rewrite bind_run, Hlen.
  change (scan_credentials (Z.of_nat 3) 3 (Int 0))
    with (is_exhausted ← isCredentialExhausted (Int 1);
          if negb is_exhausted then mret (Int 1)
          else scan_credentials 3 2 (Int 1)).
  rewrite bind_run.
  pose proof (isCredentialExhausted_store (Int 1) s Hf) as Hstore.
  destruct (isCredentialExhausted_emits (λ e, kv_writes [e] = []) (Int 1))
    with (s := s) as (evs & Htr & Hevs); [done..|].
  destruct (isCredentialExhausted_healthy (Int 1) s Hf)
    as (s' & Hrun & Hself & Hf' & Hnow & _).
  rewrite Hrun in *. rewrite Hfree. simpl in *.
  exists s'. repeat split; try done.
  exists evs. split; [done|]. by apply kv_writes_none.
Qed.

(** C3. Three credentials, cursor 0, nobody exhausted, a healthy store:
    [rotateCredentials("exhausted", resetIso)] with a reset 60 s ahead
    writes the exhaustion record of index 0 with
    [until = reset + 120000 = now + 180000] and a TTL of
    [(until - now) / 1000 + 3600 = 3780] seconds, selects index 1 and
    persists the cursor "1". *)
Theorem rotateCredentials_exhausted_scenario s resetIso :
  length (credentials (self s)) = 3%nat →
  faults (world s) = [] →
  (∀ i, KV_CREDS_INDEX ≠ exhausted_key i) →
  parseInt (default "0" (kv_read (world s) KV_CREDS_INDEX)) = Int 0 →
  (∀ i, 0 ≤ i < 3 → exhausted_at (world s) (Int i) = false) →
  resetIso ≠ "" →
  Date_parse resetIso = Int (now (world s) + 60000) →
  let t := now (world s) in
  let out := rotateCredentials exhausted (Some resetIso) s in
  out.1 = Normal ()
  ∧ kv (world out.2) !! exhausted_key (Int 0)
    = Some {| kv_value := pretty (t + 180000);
              kv_ttl := Some (Int 3780); kv_written := t |}
  ∧ credsIndex (self out.2) = Int 1
  ∧ kv_value <$> kv (world out.2) !! KV_CREDS_INDEX = Some "1"
  ∧ kv_writes (new_events s out.2)
    = [(exhausted_key (Int 0), pretty (t + 180000), Some (Int 3780));
       (KV_CREDS_INDEX, "1", None)].
Proof.
  intros Hlen Hf Hkeys Hcursor Hfree Hiso Hreset t out.
  assert (Hpool : credentials (self s) ≠ []) by (by destruct (credentials (self s))).
  assert (Httl : (t + 60000 + EXHAUSTION_SAFETY_BUFFER - t) / 1000 + 3600 = 3780).
  { unfold EXHAUSTION_SAFETY_BUFFER.
    replace (t + 60000 + 120000 - t) with 180000 by lia. reflexivity. }
  assert (Huntil : t + 60000 + EXHAUSTION_SAFETY_BUFFER = t + 180000).
  { unfold EXHAUSTION_SAFETY_BUFFER. lia. }
  set (s2 := state_log (Console "Current credential index: 0")
               (state_with_index (Int 0) (state_log (KvGet KV_CREDS_INDEX) s))).
  set (s3 := state_log
               (Console ("Credential 0 marked exhausted until "
                         +:+ Date_toISOString (t + 60000 + EXHAUSTION_SAFETY_BUFFER)))
               (state_store (exhausted_key (Int 0)) (exhaustion_record t (t + 60000))
                  (state_log (KvPut (exhausted_key (Int 0))
                                (kv_value (exhaustion_record t (t + 60000)))
                                (kv_ttl (exhaustion_record t (t + 60000)))) s2))).
  destruct (getNextViableCredentialIndex_next_free s3)
    as (s4 & Hnext & Hself & Hf4 & Hnow & Hkv & evs & Htr4 & Hwrites); try done.
  { unfold exhausted_at, kv_read. simpl. rewrite lookup_insert_ne by done.
    apply (Hfree 1). lia. }
  assert (Hrun : out =
    (Normal (),
     state_with_hash 0
       (state_with_token None
          (state_log (Console "Rotated credentials → 1 (skipped exhausted)")
             (state_store KV_CREDS_INDEX
                {| kv_value := "1"; kv_ttl := None; kv_written := t |}
                (state_log (KvPut KV_CREDS_INDEX "1" None)
                   (state_with_index (Int 1) s4))))))).
  { subst out. unfold rotateCredentials.
    rewrite bind_run, load_credentials_loaded by done.
    rewrite bind_run, load_current_index_healthy by done.
    rewrite Hcursor, Hlen. cbv zeta.
    change (num_min (Int 0) (Z.of_nat 3 - 1)) with (Int 0).
    change (num_to_string (Int 0)) with "0". fold s2.
    rewrite bind_run. unfold get_self at 1. cbv beta iota.
    change (credsIndex (self s2)) with (Int 0).
    rewrite bool_decide_true by done. simpl truthy.
    rewrite bool_decide_true by done. cbn [andb default].
    rewrite !bind_run.
    rewrite (markCredentialExhausted_healthy _ _ (t + 60000)) by done.
    cbv zeta.
    match goal with |- context [getNextViableCredentialIndex ?i ?st] =>
      change (getNextViableCredentialIndex i st)
        with (getNextViableCredentialIndex (Int 0) s3)
    end.
    rewrite Hnext. cbv beta iota. rewrite bind_run.
    change (set_credsIndex (Int 1) s4)
      with (Normal (), state_with_index (Int 1) s4).
    cbv beta iota. rewrite bind_run, kvPut_healthy by done.
    simpl now. rewrite Hnow. reflexivity. }
  rewrite Hrun. cbn [fst snd]. repeat split.
  - simpl. rewrite lookup_insert_ne by done. rewrite Hkv by done. simpl.
    rewrite lookup_insert_eq. unfold exhaustion_record. fold t.
    by rewrite Httl, Huntil.
  - simpl. by rewrite lookup_insert_eq.
  - erewrite new_events_app;
      [|simpl; rewrite Htr4; simpl; rewrite <- !app_assoc; reflexivity].
    unfold kv_writes in *. simpl. rewrite omap_app, Hwrites. simpl.
    fold t. by rewrite Httl, Huntil.
Qed.

(** *** The two defects *)

(** [initializeAuth] does not load the pool. *)
Lemma initializeAuth_unloaded s :
  credentials (self s) = [] → initializeAuth s = (Throw not_configured, s).
Proof.
  intros Hpool. unfold initializeAuth, get_self. rewrite bind_run.
  by rewrite bool_decide_true.
Qed.

(** An error answer that is neither the 401 of the first attempt nor a 500
    of "loadCodeAssist" is thrown inside the [try] block and caught by the
    [catch] of the same turn: while attempts remain, the turn waits for the
    backoff delay and hands the error to the next turn. *)
Lemma attempt_once_swallows_error method body maxRetries baseDelay attempt
    lastError s s1 status text s2 :
  initializeAuth s = (Normal (), s1) →
  fetch_upstream method body s1 = (Normal (status, text), s2) →
  response_ok status = false →
  ¬ (status = 401 ∧ attempt = 1) →
  ¬ (status = 500 ∧ method = "loadCodeAssist") →
  attempt < maxRetries →
  attempt_once method body maxRetries baseDelay attempt lastError s =
    (Normal (Continue (Some (api_call_failed status text))),
     state_sleep (backoff baseDelay attempt)
       (state_log
          (Console ("Attempt " +:+ pretty attempt +:+ " failed, retrying in "
                    +:+ pretty (backoff baseDelay attempt) +:+ "ms: "
                    +:+ exn_message (api_call_failed status text))) s2)).
Proof.
  intros Hinit Hfetch Hok Hnot401 Hnot500 Hleft.
  unfold attempt_once, try_catch.
  rewrite bind_run, Hinit, bind_run, Hfetch, Hok. cbn [negb].
  replace ((status =? 401) && (attempt =? 1)) with false.
  2: { destruct (Z.eqb_spec status 401), (Z.eqb_spec attempt 1); simpl; tauto. }
  replace ((status =? 500) && bool_decide (method = "loadCodeAssist")) with false.
  2: { destruct (Z.eqb_spec status 500),
         (bool_decide_reflect (method = "loadCodeAssist")); simpl; tauto. }
  unfold throw at 1. cbv beta iota.
  rewrite bind_run. destruct (Z.ltb_spec attempt maxRetries); [|lia].
  reflexivity.
Qed.

(** *** Numbers written and read back *)

Lemma pretty_N_go_first x s :
  (0 < x)%N → ∃ y rest, pretty_N_go x s = String (pretty_N_char y) rest.
Proof.
  revert s. induction (N.lt_wf_0 x) as [x _ IH]; intros s Hx.
  rewrite pretty_N_go_step by done.
  destruct (decide (x `div` 10 = 0)%N) as [->|Hdiv].
  - rewrite pretty_N_go_0. eauto.
  - apply IH.
    + apply N.div_lt; lia.
    + apply N.neq_0_lt_0. done.
Qed.

Lemma digit_value_char y :
  (y < 10)%N → digit_value (pretty_N_char y) = Some (Z.of_N y).
Proof.
  intros Hy.
  assert (y = 0 ∨ y = 1 ∨ y = 2 ∨ y = 3 ∨ y = 4 ∨ y = 5 ∨ y = 6 ∨ y = 7
          ∨ y = 8 ∨ y = 9)%N as Hcases by lia.
  repeat destruct Hcases as [->|Hcases]; try subst y; reflexivity.
Qed.

(** Reading the digits that [pretty_N_go] writes in front of [s] shifts the
    accumulator by their number and adds their value. *)
Lemma read_digits_pretty_N_go x :
  (0 < x)%N →
  ∃ k, ∀ s acc,
    read_digits (pretty_N_go x s) acc
    = read_digits s (Some (default 0 acc * k + Z.of_N x)).
Proof.
  induction (N.lt_wf_0 x) as [x _ IH]; intros Hx.
  destruct (decide (x `div` 10 = 0)%N) as [Hdiv|Hdiv].
  - exists 10. intros s acc. rewrite pretty_N_go_step, Hdiv, pretty_N_go_0 by done.
    simpl. rewrite digit_value_char by (apply N.mod_lt; lia).
    do 2 f_equal.
    assert (x = x `mod` 10)%N by (rewrite (N.div_mod x 10) at 1 by lia; lia).
    lia.
  - destruct (IH (x `div` 10)%N) as [k Hk];
      [apply N.div_lt; lia|by apply N.neq_0_lt_0|].
    exists (10 * k). intros s acc. rewrite pretty_N_go_step, Hk by done.
    simpl. rewrite digit_value_char by (apply N.mod_lt; lia).
    do 2 f_equal. simpl.
    pose proof (N.div_mod x 10). lia.
Qed.

Lemma parseInt_digit_first y rest :
  parseInt (String (pretty_N_char y) rest)
  = match read_digits (String (pretty_N_char y) rest) None with
    | Some n => Int n
    | None => NaN
    end.
Proof.
  assert (pretty_N_char y = "0" ∨ pretty_N_char y = "1" ∨ pretty_N_char y = "2"
          ∨ pretty_N_char y = "3" ∨ pretty_N_char y = "4" ∨ pretty_N_char y = "5"
          ∨ pretty_N_char y = "6" ∨ pretty_N_char y = "7" ∨ pretty_N_char y = "8"
          ∨ pretty_N_char y = "9")%char as Hchar
    by (unfold pretty_N_char; repeat case_match; tauto).
  repeat destruct Hchar as [->|Hchar]; try rewrite Hchar; reflexivity.
Qed.

Lemma parseInt_pretty_pos p : parseInt (pretty (N.pos p)) = Int (Z.pos p).
Proof.
  unfold pretty, pretty_N. rewrite decide_False by done.
  destruct (pretty_N_go_first (N.pos p) "") as (y & rest & Hfirst); [lia|].
  destruct (read_digits_pretty_N_go (N.pos p)) as [k Hk]; [lia|].
  rewrite Hfirst, parseInt_digit_first, <- Hfirst, Hk. done.
Qed.

Lemma parseInt_minus str :
  parseInt (String "-" str)
  = match read_digits str None with
    | Some n => Int (- n)
    | None => NaN
    end.
Proof. reflexivity. Qed.

(** [parseInt(String(z), 10)] is [z]. *)
Lemma parseInt_pretty z : parseInt (pretty z) = Int z.
Proof.
  destruct z as [|p|p]; [done|apply parseInt_pretty_pos|].
  change (pretty (Z.neg p)) with (String "-" (pretty (N.pos p))).
  rewrite parseInt_minus.
  unfold pretty, pretty_N. rewrite decide_False by done.
  destruct (read_digits_pretty_N_go (N.pos p)) as [k Hk]; [lia|].
  rewrite Hk. done.
Qed.

(** [parseInt] undoes [toString] on every number, [NaN] included. *)
Lemma parseInt_num_to_string x : parseInt (num_to_string x) = x.
Proof. destruct x; [apply parseInt_pretty|done]. Qed.

Lemma num_to_string_inj : Inj (=) (=) num_to_string.
Proof.
  intros x y Hxy.
  by rewrite <- (parseInt_num_to_string x), Hxy, parseInt_num_to_string.
Qed.

Lemma num_to_string_nonempty x : num_to_string x ≠ "".
Proof.
  intros Hx. pose proof (parseInt_num_to_string x) as Hp. rewrite Hx in Hp.
  destruct x; [discriminate Hp|done].
Qed.

(** *** The exhaustion tracker *)

Lemma exhausted_at_record w index reset :
  kv w !! exhausted_key index = Some (exhaustion_record (now w) reset) →
  exhausted_at w index
  = bool_decide (now w < reset + EXHAUSTION_SAFETY_BUFFER).
Proof.
  intros Hrecord. unfold exhausted_at, kv_read. rewrite Hrecord.
  unfold kv_live, exhaustion_record. simpl.
  pose proof (num_to_string_nonempty (Int (reset + EXHAUSTION_SAFETY_BUFFER)))
    as Hne.
  simpl in Hne.
  destruct (Z.ltb_spec (now w)
              (now w + ((reset + EXHAUSTION_SAFETY_BUFFER - now w) `div` 1000
                        + 3600) * 1000)) as [Hlive|Hdead].
  - destruct (pretty (reset + EXHAUSTION_SAFETY_BUFFER)) as [|c v] eqn:Hv;
      [done|].
    rewrite <- Hv, parseInt_pretty. simpl.
    destruct (Z.ltb_spec (now w) (reset + EXHAUSTION_SAFETY_BUFFER));
      [by rewrite bool_decide_true|by rewrite bool_decide_false by lia].
  - rewrite bool_decide_false; [done|].
    intros Hlt.
    assert (0 ≤ (reset + EXHAUSTION_SAFETY_BUFFER - now w) `div` 1000)
      by (apply Z.div_pos; lia).
    lia.
Qed.

(** X1. A credential marked exhausted is reported exhausted at once if and
    only if the reset time plus the safety buffer is still ahead.  The
    record is written before the date is formatted for the console, so
    the check sees it whether or not the formatting then throws; when the
    reset time plus the buffer is a date, within [MAX_TIME_VALUE] of the
    epoch, the mark completes and the two calls in a row give that
    answer. *)
Theorem markCredentialExhausted_then_check index resetIso reset s :
  faults (world s) = [] →
  Date_parse resetIso = Int reset →
  let marked := markCredentialExhausted index resetIso s in
  let answer := bool_decide (now (world s) < reset + 120000) in
  (isCredentialExhausted index marked.2).1 = Normal answer
  ∧ (Z.abs (reset + EXHAUSTION_SAFETY_BUFFER) ≤ MAX_TIME_VALUE →
     ∃ s',
       (markCredentialExhausted index resetIso;; isCredentialExhausted index) s
       = (Normal answer, s')).
Proof.
  intros Hf Hreset marked answer. subst marked answer.
  assert (Hcheck : ∃ s',
    isCredentialExhausted index (markCredentialExhausted index resetIso s).2
    = (Normal (bool_decide (now (world s) < reset + 120000)), s')).
  { rewrite (markCredentialExhausted_healthy _ _ reset) by done. cbv zeta.
    cbn [snd].
    match goal with |- context [isCredentialExhausted index ?s1] =>
      destruct (isCredentialExhausted_healthy index s1) as (s' & Hrun & _);
        [done|]; rewrite Hrun;
      rewrite (exhausted_at_record (world s1) index reset)
        by (simpl; apply lookup_insert_eq)
    end.
    eauto. }
  destruct Hcheck as [s' Hcheck]. split; [by rewrite Hcheck|].
  intros _. exists s'. rewrite bind_run.
  rewrite (markCredentialExhausted_healthy _ _ reset) in Hcheck |- * by done.
  exact Hcheck.
Qed.

(** The check on a healthy store, in full. *)
Lemma isCredentialExhausted_run index s :
  faults (world s) = [] →
  let key := exhausted_key index in
  isCredentialExhausted index s =
    match kv_read (world s) key with
    | None | Some "" => (Normal false, state_log (KvGet key) s)
    | Some v =>
        if lt_num (now (world s)) (parseInt v) then
          (Normal true, state_log (KvGet key) s)
        else
          (Normal false,
           state_delete key (state_log (KvDelete key) (state_log (KvGet key) s)))
    end.
Proof.
  destruct s as [a [m f t u i tr]]. simpl. intros ->.
  unfold isCredentialExhausted, kvGet, kvDelete, store_op, kv_read.
  run_monad.
  destruct (m !! exhausted_key index) as [e|]; [|done].
  destruct (kv_live t e); [|done].
  destruct (kv_value e) as [|c v]; [done|]. simpl.
  by destruct (lt_num t (parseInt (String c v))).
Qed.

(** X2. A record whose time has passed is deleted by the check that finds
    it. *)
Theorem isCredentialExhausted_cleans_up index s v :
  faults (world s) = [] →
  kv_read (world s) (exhausted_key index) = Some v →
  v ≠ "" →
  lt_num (now (world s)) (parseInt v) = false →
  (isCredentialExhausted index s).1 = Normal false
  ∧ kv (world (isCredentialExhausted index s).2)
    = delete (exhausted_key index) (kv (world s))
  ∧ KvDelete (exhausted_key index)
    ∈ new_events s (isCredentialExhausted index s).2.
Proof.
  intros Hf Hread Hv Hpast.
  rewrite isCredentialExhausted_run by done. cbv zeta.
  rewrite Hread, Hpast. destruct v as [|c v]; [done|].
  repeat split. unfold new_events. simpl.
  rewrite <- app_assoc, drop_app_length. set_solver.
Qed.

Lemma kv_read_state_log e s key :
  kv_read (world (state_log e s)) key = kv_read (world s) key.
Proof. reflexivity. Qed.

(** X3. Checking twice answers twice the same, and the second check leaves the
    store as the first one left it. *)
Theorem isCredentialExhausted_idempotent index s :
  faults (world s) = [] →
  let first := isCredentialExhausted index s in
  let second := isCredentialExhausted index first.2 in
  second.1 = first.1 ∧ kv (world second.2) = kv (world first.2).
Proof.
  intros Hf first second.
  assert (Hagain : ∀ s1, faults (world s1) = [] →
    (kv_read (world s1) (exhausted_key index) = None
     ∨ kv_read (world s1) (exhausted_key index) = Some "") →
    isCredentialExhausted index s1
    = (Normal false, state_log (KvGet (exhausted_key index)) s1)).
  { intros s1 Hf1 Hread1. rewrite isCredentialExhausted_run by done.
    cbv zeta. by destruct Hread1 as [-> | ->]. }
  subst second first.
  rewrite (isCredentialExhausted_run index s) by done. cbv zeta.
  destruct (kv_read (world s) (exhausted_key index)) as [[|c v]|] eqn:Hread.
  - cbn [snd]. rewrite Hagain; [done|exact Hf|].
    right. by rewrite kv_read_state_log.
  - destruct (lt_num _ _) eqn:Hlt.
    + cbn [snd]. rewrite isCredentialExhausted_run by exact Hf. cbv zeta.
      rewrite kv_read_state_log, Hread.
      change (now (world (state_log (KvGet (exhausted_key index)) s)))
        with (now (world s)).
      by rewrite Hlt.
    + cbn [snd]. rewrite Hagain; [done|exact Hf|].
      left. unfold kv_read. simpl. by rewrite lookup_delete_eq.
  - cbn [snd]. rewrite Hagain; [done|exact Hf|].
    left. by rewrite kv_read_state_log.
Qed.

(** X4. Whatever the store does, a check leaves the manager alone, never
    writes, and reads or deletes nothing but the record of its own
    index. *)
Theorem isCredentialExhausted_frame index s :
  let out := isCredentialExhausted index s in
  self out.2 = self s
  ∧ (∀ key, key ≠ exhausted_key index →
       kv (world out.2) !! key = kv (world s) !! key)
  ∧ Forall (λ e, e = KvGet (exhausted_key index)
                 ∨ e = KvDelete (exhausted_key index))
      (new_events s out.2).
Proof.
  intros out. subst out. split; [|split].
  - by destruct (isCredentialExhausted_reads index s) as (_ & _ & _ & ?).
  - intros key Hkey. destruct s as [a [m f t u i tr]].
    unfold isCredentialExhausted, kvGet, kvDelete, store_op. run_monad.
    destruct f as [|[] f]; simpl; try done;
      (destruct (kv_read _ _) as [[|c v]|]; simpl; try done);
      (destruct (lt_num _ _); simpl; try done);
      try (destruct f as [|[] f]; simpl; try done);
      by rewrite lookup_delete_ne.
  - assert (Hemits : emits (λ e, e = KvGet (exhausted_key index)
                                 ∨ e = KvDelete (exhausted_key index))
                       (isCredentialExhausted index)).
    { unfold isCredentialExhausted. emits_auto. }
    destruct (Hemits s) as (evs & Htr & Hevs).
    by rewrite (new_events_app _ _ _ Htr).
Qed.

(** *** Rotations on a healthy store *)

(** The scan on a healthy store when the index after [cur] is free. *)
Lemma getNextViableCredentialIndex_step s cur :
  faults (world s) = [] →
  let N := Z.of_nat (length (credentials (self s))) in
  0 ≤ cur < N →
  exhausted_at (world s) (Int (wrap N (cur + 1))) = false →
  ∃ s', getNextViableCredentialIndex (Int cur) s
        = (Normal (Int (wrap N (cur + 1))), s')
    ∧ self s' = self s ∧ faults (world s') = []
    ∧ now (world s') = now (world s)
    ∧ (∀ key, kv (world s') !! key = kv (world s) !! key
              ∨ kv (world s') !! key = None).
Proof.
  intros Hf N Hcur Hfree.
  unfold getNextViableCredentialIndex, get_self. rewrite bind_run. fold N.
  destruct (length (credentials (self s))) as [|n] eqn:Hlen; [simpl in *; lia|].
  cbn [scan_credentials]. rewrite wrap_succ, bind_run by done.
  rewrite isCredentialExhausted_run by done. cbv zeta.
  unfold exhausted_at in Hfree.
  destruct (kv_read (world s) (exhausted_key (Int (wrap N (cur + 1)))))
    as [[|ch v]|]; [| |].
  - eexists. split; [reflexivity|]. repeat split; auto.
  - rewrite Hfree. eexists. split; [reflexivity|]. repeat split; try done.
    intros key. simpl.
    destruct (decide (key = exhausted_key (Int (wrap N (cur + 1))))) as [->|Hne].
    + right. apply lookup_delete_eq.
    + left. by apply lookup_delete_ne.
  - eexists. split; [reflexivity|]. repeat split; auto.
Qed.

(** One rotation without exhaustion marking, on a healthy store, when the
    index after the current one is free. *)
Lemma rotateCredentials_plain_step reason resetIso s c :
  truthy resetIso = false →
  faults (world s) = [] →
  credentials (self s) ≠ [] →
  parseInt (default "0" (kv_read (world s) KV_CREDS_INDEX)) = Int c →
  0 ≤ c →
  let N := Z.of_nat (length (credentials (self s))) in
  let next := wrap N (Z.min c (N - 1) + 1) in
  exhausted_at (world s) (Int next) = false →
  ∃ s', rotateCredentials reason resetIso s = (Normal (), s')
    ∧ self s' = {| env := env (self s); accessToken := None;
                   credsIndex := Int next; credsHash := 0;
                   credentials := credentials (self s) |}
    ∧ faults (world s') = [] ∧ now (world s') = now (world s)
    ∧ kv (world s') !! KV_CREDS_INDEX
      = Some {| kv_value := pretty next; kv_ttl := None;
                kv_written := now (world s) |}
    ∧ (∀ key, key ≠ KV_CREDS_INDEX →
         kv (world s') !! key = kv (world s) !! key
         ∨ kv (world s') !! key = None).
Proof.
  intros Hreset Hf Hpool Hcursor Hc N next Hfree.
  assert (0 < N).
  { subst N. destruct (credentials (self s)); simpl; [done|lia]. }
  rewrite rotateCredentials_plain by done.
  rewrite bind_run, load_credentials_loaded by done.
  rewrite bind_run, load_current_index_healthy by done.
  rewrite Hcursor. cbv zeta. fold N.
  change (num_min (Int c) (N - 1)) with (Int (Z.min c (N - 1))).
  rewrite bind_run. unfold get_self at 1. cbv beta iota. rewrite bind_run.
  match goal with |- context [getNextViableCredentialIndex ?i ?st] =>
    change i with (Int (Z.min c (N - 1))); set (s2 := st)
  end.
  destruct (getNextViableCredentialIndex_step s2 (Z.min c (N - 1)))
    as (s3 & Hnext & Hself & Hf3 & Hnow & Hkv).
  { exact Hf. }
  { simpl. fold N. lia. }
  { exact Hfree. }
  simpl in Hnext. fold N in Hnext. fold next in Hnext.
  rewrite Hnext. cbv beta iota.
  rewrite bind_run.
  change (set_credsIndex (Int next) s3)
    with (Normal (), state_with_index (Int next) s3).
  cbv beta iota. rewrite bind_run, kvPut_healthy by done.
  eexists. split; [reflexivity|]. simpl. rewrite Hself, Hnow. simpl.
  repeat split; try done.
  - apply lookup_insert_eq.
  - intros key Hkey. rewrite lookup_insert_ne by done. apply Hkv.
Qed.

(** X5. Round robin.  On a healthy store, a rotation that marks nothing moves
    from the stored cursor [c], capped at N-1, to the index after it in
    the circle when that index is free, persists it and resets the token
    state. *)
Theorem rotateCredentials_round_robin reason resetIso s c :
  truthy resetIso = false →
  faults (world s) = [] →
  credentials (self s) ≠ [] →
  parseInt (default "0" (kv_read (world s) KV_CREDS_INDEX)) = Int c →
  0 ≤ c →
  let N := Z.of_nat (length (credentials (self s))) in
  let next := wrap N (Z.min c (N - 1) + 1) in
  let out := rotateCredentials reason resetIso s in
  exhausted_at (world s) (Int next) = false →
  out.1 = Normal ()
  ∧ credsIndex (self out.2) = Int next
  ∧ kv_value <$> kv (world out.2) !! KV_CREDS_INDEX = Some (pretty next)
  ∧ credentials (self out.2) = credentials (self s)
  ∧ accessToken (self out.2) = None
  ∧ credsHash (self out.2) = 0.
Proof.
  intros Hreset Hf Hpool Hcursor Hc N next out Hfree.
  destruct (rotateCredentials_plain_step reason resetIso s c)
    as (s' & Hrun & Hself & _ & _ & Hkv & _); try done.
  subst out. rewrite Hrun. simpl. rewrite Hself, Hkv. done.
Qed.

Lemma wrap_mod N i : 0 < N → 0 ≤ i < N → wrap N (i + 1) = (i + 1) mod N.
Proof.
  intros HN Hi. unfold wrap. destruct (Z.leb_spec N (i + 1)).
  - replace (i + 1) with N by lia. rewrite Z.mod_same by lia. lia.
  - by rewrite Z.mod_small by lia.
Qed.

(** What a chain of rotations relies on and restores. *)
Lemma rotate_times_from k pool s c :
  faults (world s) = [] →
  credentials (self s) = pool →
  pool ≠ [] →
  (∀ i, KV_CREDS_INDEX ≠ exhausted_key i) →
  (∀ i, exhausted_at (world s) i = false) →
  parseInt (default "0" (kv_read (world s) KV_CREDS_INDEX)) = Int c →
  let N := Z.of_nat (length pool) in
  0 ≤ c < N →
  ∃ s', rotate_times (S k) s = (Normal (), s')
    ∧ credsIndex (self s') = Int ((c + Z.of_nat (S k)) mod N)
    ∧ kv_value <$> kv (world s') !! KV_CREDS_INDEX
      = Some (pretty ((c + Z.of_nat (S k)) mod N))
    ∧ credentials (self s') = pool.
Proof.
  intros Hf Hpool Hne Hkeys Hfree Hcursor N Hc.
  revert s c Hf Hpool Hfree Hcursor Hc.
  induction k as [|k IH]; intros s c Hf Hpool Hfree Hcursor Hc.
  - destruct (rotateCredentials_plain_step normal None s c)
      as (s1 & Hrun1 & Hself1 & _ & _ & Hcur1 & _); try done.
    { by rewrite Hpool. } { lia. }
    rewrite Hpool in Hself1, Hcur1. fold N in Hself1, Hcur1.
    replace (Z.min c (N - 1)) with c in Hself1, Hcur1 by lia.
    rewrite wrap_mod in Hself1, Hcur1 by lia.
    exists s1. cbn [rotate_times]. rewrite bind_run, Hrun1.
    split; [done|]. rewrite Hself1, Hcur1. done.
  - destruct (rotateCredentials_plain_step normal None s c)
      as (s1 & Hrun1 & Hself1 & Hf1 & Hnow1 & Hcur1 & Hkv1); try done.
    { by rewrite Hpool. } { lia. }
    rewrite Hpool in Hself1, Hcur1. fold N in Hself1, Hcur1.
    replace (Z.min c (N - 1)) with c in Hself1, Hcur1 by lia.
    rewrite wrap_mod in Hself1, Hcur1 by lia.
    destruct (IH s1 ((c + 1) mod N)) as (s' & Hrun & Hidx & Hcur & Hpool');
      try done.
    + by rewrite Hself1.
    + intros i. unfold exhausted_at, kv_read. rewrite Hnow1.
      destruct (Hkv1 (exhausted_key i)) as [-> | ->]; [done| |done].
      apply Hfree.
    + unfold kv_read. rewrite Hcur1. simpl. apply parseInt_pretty.
    + apply Z.mod_pos_bound. lia.
    + exists s'. change (rotate_times (S (S k)) s)
        with ((rotateCredentials normal None;; rotate_times (S k)) s).
      rewrite bind_run, Hrun1. cbv beta iota. split; [done|].
      replace ((c + Z.of_nat (S (S k))) mod N)
        with (((c + 1) mod N + Z.of_nat (S k)) mod N).
      { done. }
      rewrite Zplus_mod_idemp_l. f_equal. lia.
Qed.

(** X6. Round and round.  On a healthy store with nobody exhausted, [k]
    rotations in a row complete and advance [k] places round the circle
    from the stored cursor (capped at N-1), each one starting from the
    cursor the one before persisted; after N of them the manager is back
    at the index it started from. *)
Theorem rotateCredentials_cycle k s c :
  faults (world s) = [] →
  credentials (self s) ≠ [] →
  (∀ i, KV_CREDS_INDEX ≠ exhausted_key i) →
  (∀ i, exhausted_at (world s) i = false) →
  parseInt (default "0" (kv_read (world s) KV_CREDS_INDEX)) = Int c →
  0 ≤ c →
  let N := Z.of_nat (length (credentials (self s))) in
  let start := Z.min c (N - 1) in
  let out := rotate_times (S k) s in
  let full := rotate_times (length (credentials (self s))) s in
  (out.1 = Normal ()
   ∧ credsIndex (self out.2) = Int ((start + Z.of_nat (S k)) mod N)
   ∧ kv_value <$> kv (world out.2) !! KV_CREDS_INDEX
     = Some (pretty ((start + Z.of_nat (S k)) mod N)))
  ∧ (full.1 = Normal () ∧ credsIndex (self full.2) = Int start).
Proof.
  intros Hf Hpool Hkeys Hfree Hcursor Hc N start out full.
  assert (HN : 0 < N).
  { subst N. destruct (credentials (self s)); simpl; [done|lia]. }
  assert (Hstart : 0 ≤ start < N) by (subst start; lia).
  (* the first rotation brings the cursor into the pool *)
  assert (Hchain : ∀ j, ∃ s',
    rotate_times (S j) s = (Normal (), s')
    ∧ credsIndex (self s') = Int ((start + Z.of_nat (S j)) mod N)
    ∧ kv_value <$> kv (world s') !! KV_CREDS_INDEX
      = Some (pretty ((start + Z.of_nat (S j)) mod N))).
  { intros j.
    destruct (rotateCredentials_plain_step normal None s c)
      as (s1 & Hrun1 & Hself1 & Hf1 & Hnow1 & Hcur1 & Hkv1); try done.
    fold N in Hself1, Hcur1. fold start in Hself1, Hcur1.
    rewrite wrap_mod in Hself1, Hcur1 by lia.
    destruct j as [|j].
    - exists s1. cbn [rotate_times]. rewrite bind_run, Hrun1.
      split; [done|]. by rewrite Hself1, Hcur1.
    - destruct (rotate_times_from j (credentials (self s)) s1
                  ((start + 1) mod N))
        as (s' & Hrun & Hidx & Hcur & _); try done.
      + by rewrite Hself1.
      + intros i. unfold exhausted_at, kv_read. rewrite Hnow1.
        destruct (Hkv1 (exhausted_key i)) as [-> | ->]; [done| |done].
        apply Hfree.
      + unfold kv_read. rewrite Hcur1. simpl. apply parseInt_pretty.
      + apply Z.mod_pos_bound. lia.
      + exists s'. change (rotate_times (S (S j)) s)
          with ((rotateCredentials normal None;; rotate_times (S j)) s).
        rewrite bind_run, Hrun1. cbv beta iota. split; [done|].
        fold N in Hidx, Hcur.
        replace ((start + Z.of_nat (S (S j))) mod N)
          with (((start + 1) mod N + Z.of_nat (S j)) mod N).
        { done. }
        rewrite Zplus_mod_idemp_l. f_equal. lia. }
  split.
  - subst out. destruct (Hchain k) as (s' & -> & Hidx & Hcur). done.
  - subst full.
    destruct (length (credentials (self s))) as [|n] eqn:Hlen;
      [simpl in N; lia|].
    destruct (Hchain n) as (s' & -> & Hidx & _). split; [done|].
    cbn [snd]. rewrite Hidx. f_equal. subst N.
    rewrite <- (Z.mod_small start (Z.of_nat (S n))) at 2 by lia.
    rewrite <- Zplus_mod_idemp_r, Z.mod_same, Z.add_0_r by lia. done.
Qed.

(** *** The credential pool *)

(** X7. The pool holds exactly the non-empty values of the slots 0 to 99. *)
Theorem configured_credentials_spec (e : gmap string string) (x : string) :
  (x ∈ configured_credentials e
   ↔ x ≠ "" ∧ ∃ i : nat, (i < 100)%nat ∧ e !! slot_name i = Some x)
  ∧ (length (configured_credentials e) ≤ 100)%nat.
Proof.
  unfold configured_credentials, slot_name. split.
  - rewrite list_elem_of_filter, list_elem_of_fmap. split.
    + intros (Hx & i & -> & Hi%elem_of_seq). split; [done|].
      exists i. split; [lia|].
      destruct (e !! _) as [v|]; simpl in *; [done|by destruct Hx].
    + intros (Hx & i & Hi & Hslot). split; [done|].
      exists i. rewrite Hslot. split; [done|]. apply elem_of_seq. lia.
  - etrans; [apply length_filter|]. by rewrite length_fmap, length_seq.
Qed.

Lemma keeps_ret {A X} (f : AuthManager → X) (a : A) : keeps f (mret a).
Proof. by intros s. Qed.

Lemma keeps_throw {A X} (f : AuthManager → X) e : keeps f (throw (A:=A) e).
Proof. by intros s. Qed.

Lemma keeps_bind {A B X} (f : AuthManager → X) (m : M A) (k : A → M B) :
  keeps f m → (∀ a, keeps f (k a)) → keeps f (m ≫= k).
Proof.
  intros Hm Hk s. rewrite bind_run. specialize (Hm s).
  destruct (m s) as [[a|e] s1]; simpl in *; [|done].
  by rewrite Hk.
Qed.

Lemma keeps_try_catch {A X} (f : AuthManager → X) (m : M A) (h : exn → M A) :
  keeps f m → (∀ e, keeps f (h e)) → keeps f (try_catch m h).
Proof.
  intros Hm Hh s. unfold try_catch. specialize (Hm s).
  destruct (m s) as [[a|e] s1]; simpl in *; [done|].
  by rewrite Hh.
Qed.

(** The operations on the world do not touch the manager. *)
Ltac keeps_leaf :=
  let s := fresh "s" in
  intros s; destruct s as [? [? ? ? ? ? ?]];
  unfold emit, get_world, put_world, get_self, put_self, throw, skip,
    mbind, M_bind, mret, M_ret; simpl;
  repeat match goal with
         | |- context [match ?f with [] => _ | _ :: _ => _ end] =>
             is_var f; destruct f as [|[] ?]
         | |- context [answer (head ?l)] => is_var l; destruct l as [|[] ?]
         end;
  simpl; done.

Lemma keeps_skip {X} (f : AuthManager → X) : keeps f skip.
Proof. apply keeps_ret. Qed.
Lemma keeps_get_self {X} (f : AuthManager → X) : keeps f get_self.
Proof. keeps_leaf. Qed.
Lemma keeps_date_now {X} (f : AuthManager → X) : keeps f date_now.
Proof. keeps_leaf. Qed.
Lemma keeps_console {X} (f : AuthManager → X) line : keeps f (console line).
Proof. keeps_leaf. Qed.
Lemma keeps_sleep {X} (f : AuthManager → X) ms : keeps f (sleep ms).
Proof. keeps_leaf. Qed.
Lemma keeps_kvGet {X} (f : AuthManager → X) key : keeps f (kvGet key).
Proof. unfold kvGet, store_op. keeps_leaf. Qed.
Lemma keeps_kvPut {X} (f : AuthManager → X) key v ttl :
  keeps f (kvPut key v ttl).
Proof. unfold kvPut, store_op. keeps_leaf. Qed.
Lemma keeps_kvDelete {X} (f : AuthManager → X) key : keeps f (kvDelete key).
Proof. unfold kvDelete, store_op. keeps_leaf. Qed.
Lemma keeps_fetch_upstream {X} (f : AuthManager → X) method body :
  keeps f (fetch_upstream method body).
Proof. unfold fetch_upstream. keeps_leaf. Qed.
Lemma keeps_fetch_identity {X} (f : AuthManager → X) r :
  keeps f (fetch_identity r).
Proof. unfold fetch_identity. keeps_leaf. Qed.

(** An assignment keeps every view that does not look at its field. *)
Lemma keeps_set_accessToken {X} (f : AuthManager → X) v :
  (∀ a, f {| env := env a; accessToken := v; credsIndex := credsIndex a;
             credsHash := credsHash a; credentials := credentials a |} = f a) →
  keeps f (set_accessToken v).
Proof. intros Hf s. apply Hf. Qed.
Lemma keeps_set_credsHash {X} (f : AuthManager → X) v :
  (∀ a, f {| env := env a; accessToken := accessToken a;
             credsIndex := credsIndex a; credsHash := v;
             credentials := credentials a |} = f a) →
  keeps f (set_credsHash v).
Proof. intros Hf s. apply Hf. Qed.
Lemma keeps_set_credsIndex {X} (f : AuthManager → X) v :
  (∀ a, f {| env := env a; accessToken := accessToken a; credsIndex := v;
             credsHash := credsHash a; credentials := credentials a |} = f a) →
  keeps f (set_credsIndex v).
Proof. intros Hf s. apply Hf. Qed.

Ltac keeps_step :=
  lazymatch goal with
  | |- keeps _ (mbind _ _) => apply keeps_bind; [|intros ?]
  | |- keeps _ (mret _) => apply keeps_ret
  | |- keeps _ (throw _) => apply keeps_throw
  | |- keeps _ skip => apply keeps_skip
  | |- keeps _ (try_catch _ _) => apply keeps_try_catch; [|intros ?]
  | |- keeps _ get_self => apply keeps_get_self
  | |- keeps _ date_now => apply keeps_date_now
  | |- keeps _ (set_accessToken _) => apply keeps_set_accessToken; done
  | |- keeps _ (set_credsIndex _) => apply keeps_set_credsIndex; done
  | |- keeps _ (set_credsHash _) => apply keeps_set_credsHash; done
  | |- keeps _ (console _) => apply keeps_console
  | |- keeps _ (sleep _) => apply keeps_sleep
  | |- keeps _ (kvGet _) => apply keeps_kvGet
  | |- keeps _ (kvPut _ _ _) => apply keeps_kvPut
  | |- keeps _ (kvDelete _) => apply keeps_kvDelete
  | |- keeps _ (fetch_upstream _ _) => apply keeps_fetch_upstream
  | |- keeps _ (fetch_identity _) => apply keeps_fetch_identity
  | |- keeps _ (if ?b then _ else _) => destruct b
  | |- keeps _ (match ?x with _ => _ end) => destruct x
  | |- keeps _ (let '(_, _) := ?x in _) => destruct x
  end.

Ltac keeps_auto := repeat keeps_step.

Lemma isCredentialExhausted_keeps {X} (f : AuthManager → X) index :
  keeps f (isCredentialExhausted index).
Proof. unfold isCredentialExhausted. keeps_auto. Qed.

Lemma scan_credentials_keeps {X} (f : AuthManager → X) total remaining next :
  keeps f (scan_credentials total remaining next).
Proof.
  revert next. induction remaining as [|n IH]; intros next; simpl.
  - apply keeps_ret.
  - apply keeps_bind; [apply isCredentialExhausted_keeps|].
    intros []; simpl; [apply IH|apply keeps_ret].
Qed.

Lemma getNextViableCredentialIndex_keeps {X} (f : AuthManager → X) index :
  keeps f (getNextViableCredentialIndex index).
Proof.
  unfold getNextViableCredentialIndex.
  apply keeps_bind; [apply keeps_get_self|intros a].
  apply scan_credentials_keeps.
Qed.

Lemma markCredentialExhausted_keeps {X} (f : AuthManager → X) index iso :
  keeps f (markCredentialExhausted index iso).
Proof. unfold markCredentialExhausted, toISOString. keeps_auto. Qed.

Lemma load_credentials_pool s :
  pool_view (self (load_credentials s).2)
  = (env (self s),
     if bool_decide (credentials (self s) = [])
     then configured_credentials (env (self s))
     else credentials (self s)).
Proof.
  destruct s as [a w]. unfold load_credentials, set_credentials. run_monad.
  destruct (bool_decide (credentials a = [])); simpl; [|done].
  by destruct (bool_decide (configured_credentials (env a) = [])).
Qed.

(** X8. The pool is loaded once.  Whatever a rotation does and however it
    ends, it leaves the environment alone and a loaded pool as it is; an
    unloaded pool becomes the one the environment configures. *)
Theorem rotateCredentials_loads_once reason resetIso s :
  let out := rotateCredentials reason resetIso s in
  env (self out.2) = env (self s)
  ∧ credentials (self out.2)
    = if bool_decide (credentials (self s) = [])
      then configured_credentials (env (self s))
      else credentials (self s).
Proof.
  intros out. subst out. unfold rotateCredentials. rewrite bind_run.
  pose proof (load_credentials_pool s) as Hload.
  destruct (load_credentials s) as [[u|e] s1]; simpl in Hload |- *.
  - match goal with |- context [(?m ≫= ?k) s1] =>
      assert (Hkeep : keeps pool_view (m ≫= k))
    end.
    { unfold load_current_index.
      repeat first
        [ apply getNextViableCredentialIndex_keeps
        | apply markCredentialExhausted_keeps
        | keeps_step ]. }
    specialize (Hkeep s1). rewrite Hload in Hkeep.
    unfold pool_view in Hkeep. by injection Hkeep as -> ->.
  - unfold pool_view in Hload. by injection Hload as -> ->.
Qed.

(** X9. Nothing to rotate.  On a manager whose pool is not loaded and whose
    environment configures no credential, a rotation throws "No
    GCP_SERVICE_ACCOUNT_* variables found" before it touches the store:
    the state is as it was. *)
Theorem rotateCredentials_unconfigured reason resetIso s :
  credentials (self s) = [] →
  configured_credentials (env (self s)) = [] →
  rotateCredentials reason resetIso s = (Throw no_variables, s).
Proof.
  intros Hpool Hnone. destruct s as [[e tok idx h pool] w]. simpl in *.
  subst pool. unfold rotateCredentials, load_credentials, set_credentials.
  run_monad. by rewrite Hnone.
Qed.

(** *** The token cache *)

(** X10. Caching a token never fails the caller: whatever the store does, the
    call completes, and it leaves the manager, the clock and every other
    entry of the store as they were. *)
Theorem cacheTokenInKV_never_throws token expiry s :
  let out := cacheTokenInKV token expiry s in
  out.1 = Normal ()
  ∧ self out.2 = self s
  ∧ now (world out.2) = now (world s)
  ∧ ∀ key, key ≠ token_key (credsHash (self s)) →
      kv (world out.2) !! key = kv (world s) !! key.
Proof.
  destruct s as [a [m f t u i tr]].
  unfold cacheTokenInKV, kvPut, store_op. run_monad.
  destruct (0 <? (expiry - t) `div` 1000 - 300); simpl; [|done].
  destruct f as [|[] f]; simpl; repeat split; try done;
    intros key Hkey; by rewrite lookup_insert_ne.
Qed.

Lemma cacheTokenInKV_healthy token expiry s :
  faults (world s) = [] →
  let t := now (world s) in
  let key := token_key (credsHash (self s)) in
  let text := JSON_stringify_token (token_data token t expiry) in
  let ttl := Some (Int (token_ttl t expiry)) in
  cacheTokenInKV token expiry s =
    if 0 <? token_ttl t expiry then
      (Normal (),
       state_log (Console ("Token cached in KV storage with TTL of "
                           +:+ pretty (token_ttl t expiry) +:+ " seconds"))
         (state_store key {| kv_value := text; kv_ttl := ttl; kv_written := t |}
            (state_log (KvPut key text ttl) s)))
    else
      (Normal (),
       state_log (Console "Token expires too soon, not caching in KV") s).
Proof.
  destruct s as [a [m f t u i tr]]. simpl. intros ->.
  unfold cacheTokenInKV, kvPut, store_op, token_ttl. run_monad.
  by destruct (0 <? (expiry - t) `div` 1000 - 300).
Qed.

Lemma token_ttl_positive t expiry :
  (0 <? token_ttl t expiry) = bool_decide (301000 ≤ expiry - t).
Proof.
  unfold token_ttl.
  destruct (Z.ltb_spec 0 ((expiry - t) `div` 1000 - 300)) as [Hlt|Hge];
    [rewrite bool_decide_true|rewrite bool_decide_false]; try done.
  - cut (301 ≤ (expiry - t) `div` 1000); [|lia]. intros H.
    pose proof (Z.mul_div_le (expiry - t) 1000). lia.
  - intros H. apply (Z.div_le_mono _ _ 1000) in H; [|lia].
    change (301000 `div` 1000) with 301 in H. lia.
Qed.

(** X11. A token is cached only with more than five minutes of life in whole
    seconds, and the entry leaves the store five minutes before the token
    expires.  On a healthy store with a JSON codec that reads back what
    it writes: a token with less than 301 s left is not written; one with
    more is read back, [ms] later, as it was cached if the entry is still
    there, and then the token has more than 300 s left. *)
Theorem cacheTokenInKV_then_read token expiry ms s :
  faults (world s) = [] →
  JSON_parse_token
    (JSON_stringify_token (token_data token (now (world s)) expiry))
  = Some (token_data token (now (world s)) expiry) →
  let t := now (world s) in
  let key := token_key (credsHash (self s)) in
  let out := (cacheTokenInKV token expiry;; sleep ms;;
              read_cached_token key) s in
  (expiry - t < 301000 →
   kv (world (cacheTokenInKV token expiry s).2) = kv (world s))
  ∧ (301000 ≤ expiry - t →
     out.1 = Normal (if bool_decide (Z.max 0 ms < token_ttl t expiry * 1000)
                     then Some (token_data token t expiry) else None)
     ∧ (out.1 ≠ Normal None → 300000 < expiry - now (world out.2))).
Proof.
  intros Hf Hcodec t key out. subst out.
  pose proof (token_ttl_positive t expiry) as Hstep.
  split.
  - intros Hsoon. rewrite cacheTokenInKV_healthy by done. fold t.
    rewrite Hstep, bool_decide_false by lia. done.
  - intros Hlong. rewrite !bind_run, cacheTokenInKV_healthy by done. fold t key.
    rewrite Hstep, bool_decide_true by lia. cbv beta iota.
    destruct s as [a [m f now0 u i tr]]. simpl in Hf, Hcodec, t, key. subst f.
    subst t. unfold read_cached_token, kvGet, store_op, kv_read, kv_live.
    run_monad. rewrite lookup_insert_eq. simpl.
    destruct (Z.ltb_spec (now0 + Z.max 0 ms)
                (now0 + token_ttl now0 expiry * 1000)) as [Hlive|Hgone].
    + rewrite bool_decide_true by lia. rewrite Hcodec. simpl.
      split; [done|]. intros _. unfold token_ttl in Hlive.
      pose proof (Z.mul_div_le (expiry - now0) 1000). lia.
    + rewrite bool_decide_false by lia. simpl. split; [done|]. by intros [].
Qed.

(** *** Authentication *)

Lemma touches_ret {A} P (a : A) : touches P (mret a).
Proof. by intros s. Qed.

Lemma touches_throw {A} P e : touches P (throw (A:=A) e).
Proof. by intros s. Qed.

Lemma touches_bind {A B} P (m : M A) (k : A → M B) :
  touches P m → (∀ a, touches P (k a)) → touches P (m ≫= k).
Proof.
  intros Hm Hk s key Hkey. rewrite bind_run. specialize (Hm s key Hkey).
  destruct (m s) as [[a|e] s1]; simpl in *; [|done].
  by rewrite Hk.
Qed.

Lemma touches_try_catch {A} P (m : M A) (h : exn → M A) :
  touches P m → (∀ e, touches P (h e)) → touches P (try_catch m h).
Proof.
  intros Hm Hh s key Hkey. unfold try_catch. specialize (Hm s key Hkey).
  destruct (m s) as [[a|e] s1]; simpl in *; [done|].
  by rewrite Hh.
Qed.

Ltac touches_leaf :=
  let s := fresh "s" in
  let key := fresh "key" in
  let Hkey := fresh "Hkey" in
  intros s key Hkey; destruct s as [? [? ? ? ? ? ?]];
  unfold emit, get_world, put_world, get_self, put_self, throw, skip,
    mbind, M_bind, mret, M_ret; simpl;
  repeat match goal with
         | |- context [match ?f with [] => _ | _ :: _ => _ end] =>
             is_var f; destruct f as [|[] ?]
         | |- context [answer (head ?l)] => is_var l; destruct l as [|[] ?]
         end;
  simpl; try done.

Lemma touches_skip P : touches P skip.
Proof. apply touches_ret. Qed.
Lemma touches_get_self P : touches P get_self.
Proof. touches_leaf. Qed.
Lemma touches_date_now P : touches P date_now.
Proof. touches_leaf. Qed.
Lemma touches_set_accessToken P v : touches P (set_accessToken v).
Proof. touches_leaf. Qed.
Lemma touches_set_credsIndex P v : touches P (set_credsIndex v).
Proof. touches_leaf. Qed.
Lemma touches_set_credsHash P v : touches P (set_credsHash v).
Proof. touches_leaf. Qed.
Lemma touches_console P line : touches P (console line).
Proof. touches_leaf. Qed.
Lemma touches_sleep P ms : touches P (sleep ms).
Proof. touches_leaf. Qed.
Lemma touches_kvGet P key : touches P (kvGet key).
Proof. unfold kvGet, store_op. touches_leaf. Qed.
Lemma touches_kvPut (P : string → Prop) key v ttl :
  P key → touches P (kvPut key v ttl).
Proof.
  intros HP. unfold kvPut, store_op. touches_leaf;
    rewrite lookup_insert_ne; congruence.
Qed.
Lemma touches_kvDelete (P : string → Prop) key :
  P key → touches P (kvDelete key).
Proof.
  intros HP. unfold kvDelete, store_op. touches_leaf;
    rewrite lookup_delete_ne; congruence.
Qed.
Lemma touches_fetch_upstream P method body :
  touches P (fetch_upstream method body).
Proof. unfold fetch_upstream. touches_leaf. Qed.
Lemma touches_fetch_identity P r : touches P (fetch_identity r).
Proof. unfold fetch_identity. touches_leaf. Qed.

Ltac touches_step :=
  lazymatch goal with
  | |- touches _ (mbind _ _) => apply touches_bind; [|intros ?]
  | |- touches _ (mret _) => apply touches_ret
  | |- touches _ (throw _) => apply touches_throw
  | |- touches _ skip => apply touches_skip
  | |- touches _ (try_catch _ _) => apply touches_try_catch; [|intros ?]
  | |- touches _ get_self => apply touches_get_self
  | |- touches _ date_now => apply touches_date_now
  | |- touches _ (set_accessToken _) => apply touches_set_accessToken
  | |- touches _ (set_credsIndex _) => apply touches_set_credsIndex
  | |- touches _ (set_credsHash _) => apply touches_set_credsHash
  | |- touches _ (console _) => apply touches_console
  | |- touches _ (sleep _) => apply touches_sleep
  | |- touches _ (kvGet _) => apply touches_kvGet
  | |- touches _ (kvPut _ _ _) => apply touches_kvPut
  | |- touches _ (kvDelete _) => apply touches_kvDelete
  | |- touches _ (fetch_upstream _ _) => apply touches_fetch_upstream
  | |- touches _ (fetch_identity _) => apply touches_fetch_identity
  | |- touches _ (if ?b then _ else _) => destruct b
  | |- touches _ (match ?x with _ => _ end) => destruct x
  | |- touches _ (let '(_, _) := ?x in _) => destruct x
  end.

Ltac touches_auto := repeat touches_step; try done; eauto.

Lemma token_key_is_token_key hash : is_token_key (token_key hash).
Proof. by exists hash. Qed.

Lemma initializeAuth_keeps : keeps rotation_view initializeAuth.
Proof.
  unfold initializeAuth, parse_credentials, read_cached_token,
    adopt_cached_token, use_original_or_refresh, refreshAndCacheToken,
    cacheTokenInKV, authentication_failed.
  keeps_auto.
Qed.

Lemma initializeAuth_touches : touches is_token_key initializeAuth.
Proof.
  unfold initializeAuth, parse_credentials, read_cached_token,
    adopt_cached_token, use_original_or_refresh, refreshAndCacheToken,
    cacheTokenInKV, authentication_failed.
  touches_auto; apply token_key_is_token_key.
Qed.

Lemma initializeAuth_emits : emits authentication_event initializeAuth.
Proof.
  unfold initializeAuth, parse_credentials, read_cached_token,
    adopt_cached_token, use_original_or_refresh, refreshAndCacheToken,
    cacheTokenInKV, authentication_failed.
  emits_auto; simpl; auto using token_key_is_token_key.
Qed.

(** X12. Authentication stays in its lane.  From any state, whatever the store
    and the identity service answer and however the call ends, it leaves
    the environment, the pool and the current index of the manager alone,
    changes the store at token-cache keys only, and does nothing in the
    world but read and write the token cache, ask for a fresh token and
    log: no request to the Code Assist endpoint, no deletion, no timer. *)
Theorem initializeAuth_footprint s :
  let out := initializeAuth s in
  rotation_view (self out.2) = rotation_view (self s)
  ∧ (∀ key, ¬ is_token_key key →
       kv (world out.2) !! key = kv (world s) !! key)
  ∧ ∃ evs, trace (world out.2) = trace (world s) ++ evs
           ∧ Forall authentication_event evs.
Proof.
  intros out. subst out. split; [apply initializeAuth_keeps|].
  split; [apply initializeAuth_touches|apply initializeAuth_emits].
Qed.

Lemma cacheTokenInKV_keeps_token token expiry s :
  (cacheTokenInKV token expiry s).1 = Normal ()
  ∧ accessToken (self (cacheTokenInKV token expiry s).2)
    = accessToken (self s).
Proof.
  destruct s as [a [m f t u i tr]].
  unfold cacheTokenInKV, kvPut, store_op. run_monad.
  destruct (0 <? (expiry - t) `div` 1000 - 300); simpl; [|done].
  by destruct f as [|[] f].
Qed.

Lemma date_now_run s : date_now s = (Normal (now (world s)), s).
Proof. reflexivity. Qed.

Lemma get_self_run s : get_self s = (Normal (self s), s).
Proof. reflexivity. Qed.

(** Runs the leading steps of a method on the state at hand. *)
Ltac step_run :=
  repeat (first [ rewrite bind_run | rewrite console_run
                | rewrite set_accessToken_run | rewrite date_now_run
                | rewrite get_self_run ];
          cbv beta iota).

Lemma refreshAndCacheToken_token refreshToken s :
  (refreshAndCacheToken refreshToken s).1 = Normal () →
  is_Some (accessToken (self (refreshAndCacheToken refreshToken s).2)).
Proof.
  unfold refreshAndCacheToken. step_run.
  match goal with |- context [fetch_identity refreshToken ?st] =>
    destruct (fetch_identity refreshToken st) as [[[status text]|e] s1]
  end; [|done].
  cbv beta iota. destruct (negb (response_ok status)).
  { by step_run. }
  destruct (JSON_parse_refresh text) as [d|]; [|done].
  step_run.
  match goal with |- context [cacheTokenInKV ?tok ?exp ?st] =>
    destruct (cacheTokenInKV_keeps_token tok exp st) as [_ ->]
  end.
  intros _. by eexists.
Qed.

Lemma use_original_or_refresh_token c s :
  (use_original_or_refresh c s).1 = Normal () →
  is_Some (accessToken (self (use_original_or_refresh c s).2)).
Proof.
  unfold use_original_or_refresh. step_run.
  destruct (TOKEN_BUFFER_TIME <? oa_expiry_date c - now (world s)).
  - step_run.
    match goal with |- context [cacheTokenInKV ?tok ?exp ?st] =>
      destruct (cacheTokenInKV_keeps_token tok exp st) as [_ ->]
    end.
    intros _. by eexists.
  - step_run. apply refreshAndCacheToken_token.
Qed.

Lemma adopt_cached_token_token d s :
  let out := adopt_cached_token d s in
  out.1 = Normal true ∧ is_Some (accessToken (self out.2))
  ∨ out.1 = Normal false.
Proof.
  destruct d as [d|]; [|by right]. unfold adopt_cached_token. run_monad.
  destruct (TOKEN_BUFFER_TIME <? expiry_date d - now (world s)); simpl;
    [left|by right].
  split; [done|by eexists].
Qed.

Lemma read_cached_token_completes key s :
  ∃ d, (read_cached_token key s).1 = Normal d.
Proof.
  destruct s as [a [m f t u i tr]].
  unfold read_cached_token, kvGet, store_op. run_monad.
  destruct f as [|[] f]; simpl; eauto;
    (destruct (kv_read _ key) as [text|]; simpl; eauto;
     destruct (JSON_parse_token text); simpl; eauto).
Qed.

Lemma authenticate_from_cache_or_original c s :
  let out :=
    try_catch
      (a ← get_self;
       cachedTokenData ← read_cached_token (token_key (credsHash a));
       adopted ← adopt_cached_token cachedTokenData;
       if (adopted : bool) then skip else use_original_or_refresh c)
      authentication_failed s in
  match out.1 with
  | Normal _ => is_Some (accessToken (self out.2))
  | Throw e => ∃ cause, e = Error ("Authentication failed: " +:+ cause)
  end.
Proof.
  intros out. subst out. unfold try_catch. step_run.
  destruct (read_cached_token_completes (token_key (credsHash (self s))) s)
    as [d Hread].
  destruct (read_cached_token _ s) as [rc s2]. simpl in Hread. subst rc.
  cbv beta iota. rewrite bind_run.
  destruct (adopt_cached_token_token d s2) as [[Hadopt Htoken]|Hadopt];
    destruct (adopt_cached_token d s2) as [ac s3]; simpl in Hadopt; subst ac.
  - done.
  - cbv beta iota.
    pose proof (use_original_or_refresh_token c s3) as Htoken.
    destruct (use_original_or_refresh c s3) as [[[]|e] s4]; simpl in *.
    + by apply Htoken.
    + by exists (exn_message e).
Qed.

(** X13. How authentication ends on data of the expected shape.  The
    casts of the source are unchecked, so this is said of a credential
    that decodes, and of a cache entry and an answer of the identity
    service that, where they are JSON at all, decode to a token entry and
    to a refresh response.  From any such state, whatever the store does,
    the call either completes, and then the manager holds an access
    token, or fails with an error whose message starts with
    "Authentication failed: ". *)
Theorem initializeAuth_outcomes s c :
  credential_at (credentials (self s)) (credsIndex (self s))
    ≫= JSON_parse_credentials = Some c →
  (∀ text,
     kv_read (world s) (token_key (hashString (oa_id_token c))) = Some text →
     JSON_valid text = true ↔ is_Some (JSON_parse_token text)) →
  (∀ status text,
     head (identity (world s)) = Some (Response status text) →
     response_ok status = true →
     JSON_valid text = true ↔ is_Some (JSON_parse_refresh text)) →
  let out := initializeAuth s in
  match out.1 with
  | Normal _ => is_Some (accessToken (self out.2))
  | Throw e => ∃ cause, e = Error ("Authentication failed: " +:+ cause)
  end.
Proof.
  intros Hcred _ _ out. subst out. unfold initializeAuth. step_run.
  destruct (bool_decide_reflect (credentials (self s) = [])) as [Hnil|Hpool].
  { rewrite Hnil in Hcred. destruct (credsIndex (self s)) as [z|]; [|done].
    simpl in Hcred. by destruct (0 <=? z). }
  rewrite bind_run. unfold parse_credentials. rewrite Hcred.
  change (@mret M _ _ c s) with (Normal c, s). cbv beta iota.
  rewrite bind_run.
  change (set_credsHash (hashString (oa_id_token c)) s)
    with (Normal (), state_with_hash (hashString (oa_id_token c)) s).
  cbv beta iota.
  apply (authenticate_from_cache_or_original c).
Qed.

(** *** The schedule of a call with retries *)

Lemma schedule_quiet evs :
  Forall (λ e, action_of e = None) evs → schedule evs = [].
Proof.
  induction 1 as [|e evs He _ IH]; [done|].
  unfold schedule in *. simpl. by rewrite He.
Qed.

Lemma schedule_app l1 l2 : schedule (l1 ++ l2) = schedule l1 ++ schedule l2.
Proof. apply omap_app. Qed.

Lemma sched_quiet {A} (Q : Completion A → list action → Prop) (m : M A) :
  emits (λ e, action_of e = None) m → (∀ c, Q c []) → sched Q m.
Proof.
  intros Hm HQ s. destruct (Hm s) as (evs & Htr & Hquiet).
  exists evs. split; [done|]. by rewrite schedule_quiet.
Qed.

Lemma sched_bind {A B} (Q1 : Completion A → list action → Prop)
    (Q2 : A → Completion B → list action → Prop)
    (Q : Completion B → list action → Prop) (m : M A) (k : A → M B) :
  sched Q1 m →
  (∀ a, sched (Q2 a) (k a)) →
  (∀ e l, Q1 (Throw e) l → Q (Throw e) l) →
  (∀ a l1 c l2, Q1 (Normal a) l1 → Q2 a c l2 → Q c (l1 ++ l2)) →
  sched Q (m ≫= k).
Proof.
  intros Hm Hk Hthrow Hseq s. rewrite bind_run.
  destruct (Hm s) as (evs1 & Htr1 & HQ1).
  destruct (m s) as [[a|e] s1]; simpl in *.
  - destruct (Hk a s1) as (evs2 & Htr2 & HQ2).
    exists (evs1 ++ evs2). rewrite Htr2, Htr1, app_assoc. split; [done|].
    rewrite schedule_app. by eapply Hseq.
  - exists evs1. split; [done|]. by apply Hthrow.
Qed.

Lemma sched_bind_quiet {A B} (Q : Completion B → list action → Prop)
    (m : M A) (k : A → M B) :
  emits (λ e, action_of e = None) m →
  (∀ e, Q (Throw e) []) →
  (∀ a, sched Q (k a)) →
  sched Q (m ≫= k).
Proof.
  intros Hm Hthrow Hk.
  apply (sched_bind (λ _ l, l = []) (λ _, Q)); [| done | |].
  - by apply sched_quiet.
  - by intros e l ->.
  - by intros a l1 c l2 ->.
Qed.

Lemma sched_try_catch {A} (Q1 : Completion A → list action → Prop)
    (Q2 : exn → Completion A → list action → Prop)
    (Q : Completion A → list action → Prop) (m : M A) (h : exn → M A) :
  sched Q1 m →
  (∀ e, sched (Q2 e) (h e)) →
  (∀ a l, Q1 (Normal a) l → Q (Normal a) l) →
  (∀ e l1 c l2, Q1 (Throw e) l1 → Q2 e c l2 → Q c (l1 ++ l2)) →
  sched Q (try_catch m h).
Proof.
  intros Hm Hh Hnormal Hseq s. unfold try_catch.
  destruct (Hm s) as (evs1 & Htr1 & HQ1).
  destruct (m s) as [[a|e] s1]; simpl in *.
  - exists evs1. split; [done|]. by apply Hnormal.
  - destruct (Hh e s1) as (evs2 & Htr2 & HQ2).
    exists (evs1 ++ evs2). rewrite Htr2, Htr1, app_assoc. split; [done|].
    rewrite schedule_app. by eapply Hseq.
Qed.

Lemma sched_fetch_upstream method body :
  sched (λ _ l, l = [Request method body]) (fetch_upstream method body).
Proof.
  intros [a [m f t u i tr]]. unfold fetch_upstream. run_monad.
  destruct u as [|[] u]; simpl; by eexists [_].
Qed.

Lemma sched_ret {A} (Q : Completion A → list action → Prop) (a : A) :
  Q (Normal a) [] → sched Q (mret a).
Proof. intros HQ s. exists []. by rewrite app_nil_r. Qed.

Lemma sched_throw {A} (Q : Completion A → list action → Prop) e :
  Q (Throw e) [] → sched Q (throw e).
Proof. intros HQ s. exists []. by rewrite app_nil_r. Qed.

Lemma sched_sleep ms :
  sched (λ c l, c = Normal () ∧ l = [Wait ms]) (sleep ms).
Proof. intros s. by eexists [_]. Qed.

Lemma initializeAuth_quiet : emits (λ e, action_of e = None) initializeAuth.
Proof.
  unfold initializeAuth, parse_credentials, read_cached_token,
    adopt_cached_token, use_original_or_refresh, refreshAndCacheToken,
    cacheTokenInKV, authentication_failed.
  emits_auto.
Qed.

Lemma clearTokenCache_quiet : emits (λ e, action_of e = None) clearTokenCache.
Proof. unfold clearTokenCache. emits_auto. Qed.

Lemma sched_console {A} (Q : Completion A → list action → Prop) line
    (k : M A) :
  sched Q k → sched Q (console line;; k).
Proof.
  intros Hk s. rewrite bind_run, console_run. cbv beta iota.
  destruct (Hk (state_log (Console line) s)) as (evs & Htr & HQ).
  exists (Console line :: evs). split; [|done].
  rewrite Htr. simpl. by rewrite <- app_assoc.
Qed.

(** One attempt never throws; it sends at most one request and then, if
    another attempt is due, waits at most once. *)
Lemma attempt_once_sched method body maxRetries baseDelay attempt lastError :
  sched (λ c l,
           (∃ turn, c = Normal turn)
           ∧ l `sublist_of`
               Request method body
               :: (if attempt <? maxRetries
                   then [Wait (backoff baseDelay attempt)] else []))
    (attempt_once method body maxRetries baseDelay attempt lastError).
Proof.
  unfold attempt_once.
  set (R := Request method body). set (W := Wait (backoff baseDelay attempt)).
  set (pause := if attempt <? maxRetries then [W] else []).
  apply (sched_try_catch
           (λ c l, match c with
                   | Normal _ => l `sublist_of` R :: pause
                   | Throw _ => l `sublist_of` [R]
                   end)
           (λ _ c l, (∃ turn, c = Normal turn) ∧ l `sublist_of` pause)).
  - apply sched_bind_quiet; [apply initializeAuth_quiet| |intros _].
    { intros e. apply sublist_nil_l. }
    apply (sched_bind (λ _ l, l = [R])
             (λ _ c l, match c with
                       | Normal _ => l `sublist_of` pause
                       | Throw _ => l = []
                       end)); [apply sched_fetch_upstream| | |].
    2: { by intros e l ->. }
    2: { intros a l1 [x|e] l2 -> Hl2.
         - by apply sublist_skip.
         - by subst l2. }
    intros [status text].
    destruct (negb (response_ok status)).
    2: { apply sched_ret, sublist_nil_l. }
    destruct ((status =? 401) && (attempt =? 1)).
    { apply sched_quiet.
      - repeat first [ apply initializeAuth_quiet | apply clearTokenCache_quiet
                     | emits_step ]; done.
      - intros [x|e]; [apply sublist_nil_l|done]. }
    destruct ((status =? 500) && bool_decide (method = "loadCodeAssist")).
    2: { by apply sched_throw. }
    apply sched_bind_quiet; [by apply emits_console|done|intros _].
    subst pause. destruct (attempt <? maxRetries).
    2: { by apply sched_throw. }
    apply sched_bind_quiet; [by apply emits_console|done|intros _].
    apply (sched_bind (λ c l, c = Normal () ∧ l = [W])
             (λ _ c l, (∃ x, c = Normal x) ∧ l = []));
      [apply sched_sleep| | |].
    + intros _. apply sched_ret. split; [by eexists|done].
    + by intros e l [? _].
    + intros a l1 c l2 [_ ->] [[x ->] ->]. simpl. reflexivity.
  - intros e. subst pause. destruct (attempt <? maxRetries).
    + apply (sched_bind (λ c l, c = Normal () ∧ l = [W])
               (λ _ c l, (∃ x, c = Normal x) ∧ l = [])).
      * apply sched_console, sched_sleep.
      * intros _. apply sched_ret. split; [by eexists|done].
      * by intros e' l [? _].
      * intros a l1 c l2 [_ ->] [[x ->] ->]. split; [by eexists|].
        simpl. reflexivity.
    + apply sched_ret. split; [by eexists|apply sublist_nil_l].
  - by intros a l Hl; split; [eexists|].
  - intros e l1 c l2 Hl1 [Hc Hl2]. split; [done|].
    by apply (sublist_app l1 [R] l2 pause).
Qed.

Lemma retry_loop_sched method body maxRetries baseDelay remaining attempt
    lastError :
  sched (λ _ l,
           l `sublist_of`
             retry_schedule method body maxRetries baseDelay remaining attempt)
    (retry_loop method body maxRetries baseDelay remaining attempt lastError).
Proof.
  revert attempt lastError.
  induction remaining as [|remaining IH]; intros attempt lastError; simpl.
  - by apply sched_throw.
  - apply (sched_bind _
             (λ _ _ l, l `sublist_of`
                         retry_schedule method body maxRetries baseDelay
                           remaining (attempt + 1)) _ _ _
             (attempt_once_sched method body maxRetries baseDelay attempt
                lastError)).
    + intros [text|lastError'].
      * apply sched_quiet; [unfold response_json; emits_auto|].
        intros _. apply sublist_nil_l.
      * apply IH.
    + by intros e l [[turn ?] _].
    + intros turn l1 c l2 [_ Hl1] Hl2. simpl in Hl2.
      rewrite app_comm_cons. by apply sublist_app.
Qed.

Lemma retry_schedule_S method body maxRetries baseDelay remaining attempt :
  retry_schedule method body maxRetries baseDelay (S remaining) attempt
  = Request method body
    :: (if attempt <? maxRetries then [Wait (backoff baseDelay attempt)]
        else [])
    ++ retry_schedule method body maxRetries baseDelay remaining (attempt + 1).
Proof. reflexivity. Qed.

Lemma retry_schedule_requests method body maxRetries baseDelay remaining
    attempt :
  length (filter is_request
            (retry_schedule method body maxRetries baseDelay remaining attempt))
  = remaining.
Proof.
  revert attempt. induction remaining as [|remaining IH]; intros attempt;
    [done|].
  rewrite retry_schedule_S, filter_cons_True by done.
  rewrite filter_app. cbn [length]. rewrite length_app, IH.
  by destruct (attempt <? maxRetries).
Qed.

Lemma retry_schedule_waits method body maxRetries baseDelay remaining attempt :
  (length (filter (λ a, ¬ is_request a)
             (retry_schedule method body maxRetries baseDelay remaining
                attempt))
   ≤ Z.to_nat (maxRetries - attempt))%nat.
Proof.
  revert attempt. induction remaining as [|remaining IH]; intros attempt;
    [simpl; lia|].
  rewrite retry_schedule_S, filter_cons_False by (simpl; naive_solver).
  rewrite filter_app, length_app. specialize (IH (attempt + 1)).
  destruct (Z.ltb_spec attempt maxRetries).
  - rewrite filter_cons_True by (simpl; naive_solver). simpl length. lia.
  - simpl length. lia.
Qed.

Lemma filter_sublist {A} (P : A → Prop) `{!∀ x, Decision (P x)} (l k : list A) :
  l `sublist_of` k → filter P l `sublist_of` filter P k.
Proof.
  induction 1 as [|x l k _ IH|x l k _ IH]; [done|..];
    rewrite ?(filter_cons _ x); destruct (decide (P x));
    try (by constructor); done.
Qed.

Lemma upstream_requests_schedule evs :
  length (upstream_requests evs) = length (filter is_request (schedule evs)).
Proof.
  induction evs as [|[] evs IH]; [done|..]; try exact IH.
  - change (S (length (upstream_requests evs))
            = S (length (filter is_request (schedule evs)))).
    by rewrite IH.
Qed.

Lemma delays_schedule evs :
  length (delays evs)
  = length (filter (λ a, ¬ is_request a) (schedule evs)).
Proof.
  induction evs as [|[] evs IH]; [done|..]; try exact IH.
  change (S (length (delays evs))
          = S (length (filter (λ a, ¬ is_request a) (schedule evs)))).
  by rewrite IH.
Qed.

(** X14. What a call with retries does on the wire.  From any state, whatever
    the store and the two services answer: the requests sent and the
    timers awaited form a subsequence of "request, wait [baseDelay],
    request, wait [2 * baseDelay], ..., request" with [maxRetries]
    requests.  So the call sends at most [maxRetries] requests, all for
    the method and body asked, never waits after the last attempt, and
    waits [baseDelay * 2 ^ (k - 1)] ms after attempt [k]. *)
Theorem callEndpointWithRetry_schedule method body maxRetries baseDelay s :
  let out := callEndpointWithRetry method body maxRetries baseDelay s in
  let evs := new_events s out.2 in
  schedule evs
    `sublist_of`
    retry_schedule method body maxRetries baseDelay (Z.to_nat maxRetries) 1
  ∧ (length (upstream_requests evs) ≤ Z.to_nat maxRetries)%nat
  ∧ (length (delays evs) ≤ Z.to_nat maxRetries - 1)%nat.
Proof.
  intros out evs. subst out evs. unfold callEndpointWithRetry.
  destruct (retry_loop_sched method body maxRetries baseDelay
              (Z.to_nat maxRetries) 1 None s) as (evs & Htr & Hsub).
  rewrite (new_events_app _ _ evs) by done.
  split; [done|]. split.
  - rewrite upstream_requests_schedule.
    pose proof (sublist_length _ _ (filter_sublist is_request _ _ Hsub))
      as Hle.
    by rewrite retry_schedule_requests in Hle.
  - rewrite delays_schedule.
    pose proof (sublist_length _ _
                  (filter_sublist (λ a, ¬ is_request a) _ _ Hsub)) as Hle.
    pose proof (retry_schedule_waits method body maxRetries baseDelay
                  (Z.to_nat maxRetries) 1).
    lia.
Qed.

(** *** The project id of a credential *)

Lemma project_id_key_inj : Inj (=) (=) project_id_key.
Proof.
  intros x y Hxy. unfold project_id_key in Hxy.
  apply num_to_string_inj. by simplify_eq.
Qed.

(** What [getCachedProjectId] answers on a healthy store. *)
Lemma getCachedProjectId_healthy s :
  faults (world s) = [] →
  (getCachedProjectId s).1
  = Normal (match kv_read (world s) (project_id_key (credsIndex (self s))) with
            | Some "" | None => None
            | Some projectId => Some projectId
            end).
Proof.
  destruct s as [a [m f t u i tr]]. simpl. intros ->.
  unfold getCachedProjectId, kvGet, store_op. run_monad.
  destruct (kv_read _ _) as [[|c v]|]; simpl; try done.
Qed.

(** X15. A project id that was cached is the one read back, from any healthy
    store and at any index; the empty id is stored but reads back as
    none. *)
Theorem cacheProjectId_round_trip projectId s :
  faults (world s) = [] →
  ((cacheProjectId projectId;; getCachedProjectId) s).1
  = Normal (if bool_decide (projectId = "") then None else Some projectId).
Proof.
  intros Hf. rewrite bind_run.
  assert (Hcache : ∃ tr',
    cacheProjectId projectId s
    = (Normal (),
       {| self := self s;
          world := {| kv := <[project_id_key (credsIndex (self s)) :=
                                {| kv_value := projectId; kv_ttl := None;
                                   kv_written := now (world s) |}]>
                              (kv (world s));
                      faults := []; now := now (world s);
                      upstream := upstream (world s);
                      identity := identity (world s); trace := tr' |} |})).
  { destruct s as [a [m f t u i tr]]. simpl in Hf. subst f.
    unfold cacheProjectId, kvPut, store_op. run_monad. by eexists. }
  destruct Hcache as [tr' ->]. cbv beta iota.
  rewrite getCachedProjectId_healthy by done.
  unfold kv_read. simpl. rewrite lookup_insert_eq. simpl.
  by destruct projectId.
Qed.

(** X16. A project id is cached for one credential: caching it at the current
    index does not change what is read once the manager has moved to
    another index. *)
Theorem cacheProjectId_per_credential projectId index s :
  faults (world s) = [] →
  index ≠ credsIndex (self s) →
  ((cacheProjectId projectId;; set_credsIndex index;;
    getCachedProjectId) s).1
  = ((set_credsIndex index;; getCachedProjectId) s).1.
Proof.
  intros Hf Hindex.
  destruct s as [a [m f t u i tr]]. simpl in Hf, Hindex. subst f.
  rewrite !bind_run.
  unfold cacheProjectId, kvPut, store_op. run_monad.
  rewrite !getCachedProjectId_healthy by done.
  unfold kv_read. simpl.
  rewrite lookup_insert_ne; [done|].
  intros Hkey. by apply project_id_key_inj in Hkey.
Qed.

(** X17. After clearing, nothing is read back, and only the entry of the
    current index has left the store. *)
Theorem clearCachedProjectId_then_get s :
  faults (world s) = [] →
  ((clearCachedProjectId;; getCachedProjectId) s).1 = Normal None
  ∧ kv (world (clearCachedProjectId s).2)
    = delete (project_id_key (credsIndex (self s))) (kv (world s)).
Proof.
  intros Hf. destruct s as [a [m f t u i tr]]. simpl in Hf. subst f.
  rewrite bind_run.
  unfold clearCachedProjectId, kvDelete, store_op. run_monad.
  split; [|done].
  rewrite getCachedProjectId_healthy by done.
  unfold kv_read. simpl. by rewrite lookup_delete_eq.
Qed.

(** X18. The three methods swallow the failures of the store: when the store
    rejects the operation, each of them still completes, the manager and
    the entries of the store are as they were, and the read answers
    none. *)
Theorem project_id_store_failure projectId s :
  head (faults (world s)) = Some true →
  let cached := cacheProjectId projectId s in
  let read := getCachedProjectId s in
  let cleared := clearCachedProjectId s in
  (cached.1 = Normal () ∧ self cached.2 = self s
   ∧ kv (world cached.2) = kv (world s))
  ∧ (read.1 = Normal None ∧ self read.2 = self s
     ∧ kv (world read.2) = kv (world s))
  ∧ (cleared.1 = Normal () ∧ self cleared.2 = self s
     ∧ kv (world cleared.2) = kv (world s)).
Proof.
  destruct s as [a [m f t u i tr]]. simpl. intros Hf.
  destruct f as [|[] f]; simplify_eq/=.
  unfold cacheProjectId, getCachedProjectId, clearCachedProjectId, kvPut,
    kvGet, kvDelete, store_op.
  run_monad. done.
Qed.

(** *** Looking at the token cache *)

(** X19. [getCachedTokenInfo] only looks.  From any state it completes, with
    the manager and the store as they were and one read of the token
    entry of the current hash as its only effect.  When it reports a
    cached token, the store holds a live entry that decodes to some [d],
    and the report says: expired exactly when [d] expires before now, and
    the whole seconds left (negative once expired).  Otherwise it gives
    either the message that nothing is cached or an error text, never
    both. *)
Theorem getCachedTokenInfo_reads_only (falsy : string → bool) s :
  let out := getCachedTokenInfo falsy s in
  let key := token_key (credsHash (self s)) in
  ∃ info,
    out.1 = Normal info
    ∧ self out.2 = self s
    ∧ kv (world out.2) = kv (world s)
    ∧ new_events s out.2 = [KvGet key]
    ∧ if info_cached info then
        ∃ text d,
          kv_read (world s) key = Some text
          ∧ JSON_parse_token text = Some d
          ∧ info_is_expired info
            = Some (bool_decide (expiry_date d < now (world s)))
          ∧ info_time_until_expiry_seconds info
            = Some ((expiry_date d - now (world s)) / 1000)
          ∧ info_error info = None
      else
        (info_message info = Some "No token found in cache"
         ∧ info_error info = None)
        ∨ (info_message info = None ∧ is_Some (info_error info)).
Proof.
  destruct s as [a [m f t u i tr]].
  unfold getCachedTokenInfo, kvGetJson, kvGet, store_op, toISOString,
    new_events.
  run_monad.
  assert (Hdrop : ∀ e : event, drop (length tr) (tr ++ [e]) = [e]).
  { intros e. by rewrite drop_app_length. }
  assert (Hexp : ∀ x, (x - t <? 0) = bool_decide (x < t)).
  { intros x. destruct (Z.ltb_spec (x - t) 0);
      [rewrite bool_decide_true|rewrite bool_decide_false]; lia. }
  destruct f as [|[] f]; simpl;
    try (destruct (kv_read _ _) as [text|] eqn:Hread; simpl;
         [destruct (falsy text); simpl;
          [|destruct (JSON_parse_token text) as [d|] eqn:Hparse; simpl]|]);
    eexists; (repeat split; [try done..|]); simpl; eauto 10.
  all: try (eexists _, _; rewrite Hexp; by repeat split).
Qed.

(** *** The debug routes *)

Lemma getCachedTokenInfo_looks (falsy : string → bool) s :
  ∃ info,
    (getCachedTokenInfo falsy s).1 = Normal info
    ∧ kv (world (getCachedTokenInfo falsy s).2) = kv (world s)
    ∧ trace (world (getCachedTokenInfo falsy s).2)
      = trace (world s) ++ [KvGet (token_key (credsHash (self s)))].
Proof.
  destruct s as [a [m f t u i tr]].
  unfold getCachedTokenInfo, kvGetJson, kvGet, store_op, toISOString.
  run_monad.
  destruct f as [|[] f]; simpl; eauto;
    (destruct (kv_read _ _) as [text|]; simpl; eauto;
     destruct (falsy text); simpl; eauto;
     destruct (JSON_parse_token text); simpl; eauto).
Qed.

(** X20. GET /cache always answers 200 with a cache status and leaves the
    store as it was.  The manager it builds has not hashed a credential,
    so whatever the environment configures the one entry it looks at is
    the one under the token key of hash 0. *)
Theorem debug_cache_answers (falsy : string → bool) e w :
  let out := serve (debug_cache falsy) e w in
  ∃ cached cached_at expires_at seconds is_expired message,
    out.1 = Normal {| http_status := 200;
                      http_body := CacheStatus cached cached_at expires_at
                                     seconds is_expired message |}
    ∧ kv out.2 = kv w
    ∧ trace out.2 = trace w ++ [KvGet (token_key 0)].
Proof.
  intros out. subst out. unfold serve, debug_cache.
  set (s := {| self := newAuthManager e; world := w |}).
  destruct (getCachedTokenInfo_looks falsy s) as (info & Hrun & Hkv & Htr).
  unfold try_catch. rewrite bind_run.
  destruct (getCachedTokenInfo falsy s) as [c s1]. simpl in *. subst c.
  simpl. by eexists _, _, _, _, _, _.
Qed.

(** X21. POST /token-test cannot pass.  It authenticates on a manager it has
    just built, whose pool is never loaded: whatever the environment
    configures and whatever the world is, it answers 500 with the
    configuration error, and touches neither the store nor a service. *)
Theorem debug_token_test_answers e w :
  let out := serve debug_token_test e w in
  out.1 = Normal {| http_status := 500;
                    http_body := StatusMessage "error"
                                   (exn_message not_configured) |}
  ∧ kv out.2 = kv w
  ∧ effects (trace out.2) = effects (trace w).
Proof.
  intros out. subst out. unfold serve, debug_token_test.
  destruct w as [m f t u i tr]. unfold initializeAuth. run_monad.
  split; [done|]. split; [done|].
  unfold effects. rewrite <- !app_assoc, omap_app. simpl.
  by rewrite app_nil_r.
Qed.

(** *** The logger *)

(** X22. The configured level is a threshold: a logger configured at one of
    the four levels writes a message exactly when the message is at least
    as severe. *)
Theorem shouldLog_threshold (configured l : LogLevel) fmt tid :
  shouldLog {| level := level_name configured; format := fmt;
               traceId := tid |} l
  = bool_decide (level_rank configured ≤ level_rank l).
Proof. by destruct configured, l. Qed.

(** X23. A level that is none of the four names silences nothing: the logger
    then writes the messages of every level, DEBUG included.
    [createLogger] takes the level from the environment as it is, so
    "debug" or "error" in lower case configure such a logger. *)
Theorem shouldLog_unknown_level config l :
  level config ∉ ["DEBUG"; "INFO"; "WARN"; "ERROR"] →
  shouldLog config l = true.
Proof.
  intros Hunknown. unfold shouldLog, indexOf. simpl.
  repeat (rewrite bool_decide_false; [|intros Heq; apply Hunknown;
                                       rewrite <- Heq; set_solver]).
  by destruct l.
Qed.

(** X24. A logger made from an environment that sets neither variable, or sets
    them to the empty string, writes INFO and above in the console
    format, and nothing at DEBUG. *)
Theorem createLogger_defaults {D} (stringify_details : D → string)
    (stringify_entry : LogEntry → string) LOG_FORMAT LOG_LEVEL tid timestamp l
    category message (details : option D) :
  LOG_FORMAT ∈ [None; Some ""] →
  LOG_LEVEL ∈ [None; Some ""] →
  output stringify_details stringify_entry
    (createLogger LOG_FORMAT LOG_LEVEL tid) timestamp l category message
    details
  = if bool_decide (l = DEBUG) then None
    else Some (method_of l,
               formatConsoleOutput stringify_details
                 {| entry_timestamp := timestamp; entry_level := l;
                    entry_category := category; entry_message := message;
                    entry_traceId := tid; entry_details := details |}).
Proof.
  intros Hformat Hlevel.
  assert (Hf : or_default LOG_FORMAT "console" = "console").
  { set_unfold. by destruct Hformat as [->|[->|[]]]. }
  assert (Hl : or_default LOG_LEVEL "INFO" = "INFO").
  { set_unfold. by destruct Hlevel as [->|[->|[]]]. }
  unfold createLogger, output. rewrite Hf, Hl.
  by destruct l.
Qed.

(** *** The paths of authentication on a healthy store *)

(** The run of [initializeAuth] when the cache holds nothing for the
    credential. *)
Lemma initializeAuth_cache_miss s c :
  faults (world s) = [] →
  credentials (self s) ≠ [] →
  credential_at (credentials (self s)) (credsIndex (self s))
    ≫= JSON_parse_credentials = Some c →
  kv_read (world s) (token_key (hashString (oa_id_token c))) = None →
  let h := hashString (oa_id_token c) in
  initializeAuth s
  = try_catch (use_original_or_refresh c) authentication_failed
      (state_log (KvGet (token_key h)) (state_with_hash h s)).
Proof.
  intros Hf Hpool Hcred Hread.
  destruct s as [a [m f t u i tr]]. simpl in *. subst f.
  unfold initializeAuth, parse_credentials.
  rewrite bind_run. simpl. rewrite bool_decide_false by done.
  rewrite Hcred.
  unfold read_cached_token, adopt_cached_token, kvGet, store_op, kv_read in *.
  simpl in Hread. run_monad. rewrite Hread. reflexivity.
Qed.

(** The configured token is taken when it has more than the buffer
    left. *)
Lemma use_original_valid c s :
  faults (world s) = [] →
  TOKEN_BUFFER_TIME < oa_expiry_date c - now (world s) →
  ∃ s' evs,
    try_catch (use_original_or_refresh c) authentication_failed s
    = (Normal (), s')
    ∧ self s' = self (state_with_token (Some (oa_access_token c)) s)
    ∧ faults (world s') = []
    ∧ now (world s') = now (world s)
    ∧ identity (world s') = identity (world s)
    ∧ kv (world s')
      = cached_store (token_key (credsHash (self s))) (oa_access_token c)
          (now (world s)) (oa_expiry_date c) (kv (world s))
    ∧ trace (world s') = trace (world s) ++ evs
    ∧ Forall (λ e, is_refresh e = false) evs.
Proof.
  intros Hf Hvalid. destruct s as [a [m f t u i tr]]. simpl in *. subst f.
  unfold use_original_or_refresh, cacheTokenInKV, kvPut, store_op,
    cached_store.
  rewrite <- token_ttl_positive. unfold token_ttl. run_monad.
  destruct (Z.ltb_spec TOKEN_BUFFER_TIME (oa_expiry_date c - t)); [|lia].
  simpl.
  destruct (0 <? (oa_expiry_date c - t) `div` 1000 - 300); simpl.
  - eexists _, [_; _; _]. repeat split; try done.
    + by rewrite <- !app_assoc.
    + by repeat constructor.
  - eexists _, [_; _]. repeat split; try done.
    + by rewrite <- !app_assoc.
    + by repeat constructor.
Qed.

(** X25. The first authentication of a credential whose configured token is
    still good.  On a healthy store with nothing cached for it, the call
    completes with the configured token, without asking the identity
    service, and caches the token when it has at least 301 s left. *)
Theorem initializeAuth_uses_original s c :
  faults (world s) = [] →
  credentials (self s) ≠ [] →
  credential_at (credentials (self s)) (credsIndex (self s))
    ≫= JSON_parse_credentials = Some c →
  kv_read (world s) (token_key (hashString (oa_id_token c))) = None →
  TOKEN_BUFFER_TIME < oa_expiry_date c - now (world s) →
  let out := initializeAuth s in
  out.1 = Normal ()
  ∧ accessToken (self out.2) = Some (oa_access_token c)
  ∧ credsHash (self out.2) = hashString (oa_id_token c)
  ∧ Forall (λ e, is_refresh e = false) (new_events s out.2)
  ∧ kv (world out.2)
    = cached_store (token_key (hashString (oa_id_token c)))
        (oa_access_token c) (now (world s)) (oa_expiry_date c)
        (kv (world s)).
Proof.
  intros Hf Hpool Hcred Hread Hvalid out. subst out.
  rewrite (initializeAuth_cache_miss s c) by done. cbv zeta.
  match goal with |- context [try_catch _ _ ?st] =>
    destruct (use_original_valid c st)
      as (s' & evs & -> & Hself & _ & _ & _ & Hkv & Htr & Hev)
  end; [done..|].
  simpl. rewrite Hself, Hkv. simpl. repeat split; try done.
  unfold new_events. rewrite Htr. simpl.
  rewrite <- app_assoc, drop_app_length. simpl.
  by constructor.
Qed.

(** X26. The refresh of a stale credential.  On a healthy store with nothing
    cached and a configured token at or inside the buffer, the call asks
    the identity service once, with the refresh token of the credential.
    A 2xx answer that decodes gives the manager the new token, which is
    cached when it lives more than 300 s; any other status fails the call
    with "Authentication failed: Token refresh failed: " and the body,
    and leaves the token of the manager and the store as they were. *)
Theorem initializeAuth_refreshes s c status text rest :
  faults (world s) = [] →
  credentials (self s) ≠ [] →
  credential_at (credentials (self s)) (credsIndex (self s))
    ≫= JSON_parse_credentials = Some c →
  kv_read (world s) (token_key (hashString (oa_id_token c))) = None →
  oa_expiry_date c - now (world s) ≤ TOKEN_BUFFER_TIME →
  identity (world s) = Response status text :: rest →
  let out := initializeAuth s in
  let t := now (world s) in
  filter (λ e, is_refresh e) (new_events s out.2)
  = [Refresh (oa_refresh_token c)]
  ∧ (response_ok status = false →
     out.1 = Throw (Error ("Authentication failed: Token refresh failed: "
                           +:+ text))
     ∧ accessToken (self out.2) = accessToken (self s)
     ∧ kv (world out.2) = kv (world s))
  ∧ (response_ok status = true →
     ∀ r, JSON_parse_refresh text = Some r →
       out.1 = Normal ()
       ∧ accessToken (self out.2) = Some (tr_access_token r)
       ∧ kv (world out.2)
         = cached_store (token_key (hashString (oa_id_token c)))
             (tr_access_token r) t (t + tr_expires_in r * 1000)
             (kv (world s))).
Proof.
  intros Hf Hpool Hcred Hread Hstale Hidentity out t. subst out t.
  rewrite (initializeAuth_cache_miss s c) by done. cbv zeta.
  destruct s as [a [m f now0 u i tr]]. simpl in *. subst f i.
  unfold try_catch, use_original_or_refresh, refreshAndCacheToken,
    fetch_identity, cacheTokenInKV, kvPut, store_op,
    authentication_failed, new_events.
  run_monad.
  destruct (Z.ltb_spec TOKEN_BUFFER_TIME (oa_expiry_date c - now0)); [lia|].
  simpl.
  destruct (response_ok status); simpl.
  - destruct (JSON_parse_refresh text) as [r|]; simpl.
    + pose proof (token_ttl_positive now0 (now0 + tr_expires_in r * 1000))
        as Httl.
      unfold token_ttl in Httl.
      destruct (0 <? (now0 + tr_expires_in r * 1000 - now0) `div` 1000 - 300);
        simpl; rewrite <- !app_assoc, drop_app_length; simpl;
        (split; [done|]; split; [done|]; intros _ ? [= <-];
         unfold cached_store; by rewrite <- Httl).
    + rewrite <- !app_assoc, drop_app_length. simpl.
      split; [done|]. split; [done|]. by intros _ r.
  - rewrite <- !app_assoc, drop_app_length. simpl.
    split; [done|]. split; [|done]. by intros _.
Qed.

(** X27. What the cache is for.  After a first authentication that took the
    configured token and cached it, a second one completes from the
    cache: it takes the same token, writes nothing and asks nobody. *)
Theorem initializeAuth_again_adopts s c :
  faults (world s) = [] →
  credentials (self s) ≠ [] →
  credential_at (credentials (self s)) (credsIndex (self s))
    ≫= JSON_parse_credentials = Some c →
  kv_read (world s) (token_key (hashString (oa_id_token c))) = None →
  TOKEN_BUFFER_TIME < oa_expiry_date c - now (world s) →
  301000 ≤ oa_expiry_date c - now (world s) →
  JSON_parse_token
    (JSON_stringify_token
       (token_data (oa_access_token c) (now (world s)) (oa_expiry_date c)))
  = Some (token_data (oa_access_token c) (now (world s)) (oa_expiry_date c)) →
  let first := initializeAuth s in
  let second := initializeAuth first.2 in
  second.1 = Normal ()
  ∧ accessToken (self second.2) = Some (oa_access_token c)
  ∧ kv (world second.2) = kv (world first.2)
  ∧ effects (new_events first.2 second.2)
    = [KvGet (token_key (hashString (oa_id_token c)))].
Proof.
  intros Hf Hpool Hcred Hread Hvalid Hlong Hcodec first second.
  subst second first.
  rewrite (initializeAuth_cache_miss s c) by done. cbv zeta.
  match goal with |- context [try_catch _ _ ?st] =>
    destruct (use_original_valid c st)
      as (s' & evs & -> & Hself & Hf' & Hnow & _ & Hkv & _ & _)
  end; [done..|].
  cbn [snd]. simpl in Hself, Hnow, Hkv.
  unfold cached_store in Hkv. rewrite bool_decide_true in Hkv by done.
  set (d := token_data (oa_access_token c) (now (world s)) (oa_expiry_date c))
    in *.
  assert (Httl : 0 < token_ttl (now (world s)) (oa_expiry_date c)).
  { apply Z.ltb_lt. rewrite token_ttl_positive. by apply bool_decide_eq_true. }
  rewrite (initializeAuth_cache_hit s' c (JSON_stringify_token d) d).
  - cbv zeta. rewrite Hnow.
    destruct (Z.ltb_spec TOKEN_BUFFER_TIME
                (expiry_date d - now (world s))); [|simpl in *; lia].
    simpl. split; [done|]. split; [done|]. split; [done|].
    unfold new_events. simpl.
    rewrite <- !app_assoc, drop_app_length. done.
  - by rewrite Hself.
  - by rewrite Hself.
  - by rewrite Hf'.
  - unfold kv_read, kv_live. rewrite Hkv, lookup_insert_eq, Hnow. simpl.
    destruct (Z.ltb_spec (now (world s))
                (now (world s)
                 + token_ttl (now (world s)) (oa_expiry_date c) * 1000));
      [done|lia].
  - done.
Qed.

Lemma forget_token_healthy s :
  faults (world s) = [] →
  ∃ tr',
    forget_token s
    = (Normal (),
       {| self := self (state_with_token None s);
          world := {| kv := delete (token_key (credsHash (self s)))
                              (kv (world s));
                      faults := []; now := now (world s);
                      upstream := upstream (world s);
                      identity := identity (world s);
                      trace := trace (world s) ++ tr' |} |})
    ∧ Forall (λ e, is_refresh e = false) tr'.
Proof.
  destruct s as [a [m f t u i tr]]. simpl. intros ->.
  unfold forget_token, clearTokenCache, kvDelete, store_op. run_monad.
  eexists [_; _; _]. rewrite <- !app_assoc. split; [reflexivity|].
  by repeat constructor.
Qed.

(** X28. Recovery from a 401 does not force a refresh.  When the manager has
    dropped its token and the cache entry of its credential, the next
    authentication goes back to the configured token as long as its
    stated expiry is more than the buffer away: on a healthy store the
    manager ends up with that same token, and the identity service is
    not asked. *)
Theorem forget_token_then_initializeAuth s c :
  faults (world s) = [] →
  credentials (self s) ≠ [] →
  credential_at (credentials (self s)) (credsIndex (self s))
    ≫= JSON_parse_credentials = Some c →
  credsHash (self s) = hashString (oa_id_token c) →
  TOKEN_BUFFER_TIME < oa_expiry_date c - now (world s) →
  let out := (forget_token;; initializeAuth) s in
  out.1 = Normal ()
  ∧ accessToken (self out.2) = Some (oa_access_token c)
  ∧ Forall (λ e, is_refresh e = false) (new_events s out.2).
Proof.
  intros Hf Hpool Hcred Hhash Hvalid out. subst out.
  rewrite bind_run.
  destruct (forget_token_healthy s Hf) as (tr' & -> & Hquiet).
  cbv beta iota.
  rewrite (initializeAuth_cache_miss _ c); try done.
  2: { unfold kv_read. simpl. by rewrite Hhash, lookup_delete_eq. }
  cbv zeta.
  match goal with |- context [try_catch _ _ ?st] =>
    destruct (use_original_valid c st)
      as (s' & evs & -> & Hself & _ & _ & _ & _ & Htr & Hev)
  end; [done..|].
  simpl. rewrite Hself. simpl. split; [done|]. split; [done|].
  unfold new_events. rewrite Htr. simpl.
  rewrite <- !app_assoc, drop_app_length.
  apply Forall_app. split; [done|]. by constructor.
Qed.

(** *** Rotation, then authentication *)

(** X29. Rotation is what makes authentication possible.  A rotation that
    completes leaves a loaded pool, so the authentication that follows
    does not fail with the configuration error. *)
Theorem rotateCredentials_then_initializeAuth reason resetIso s :
  (rotateCredentials reason resetIso s).1 = Normal () →
  let rotated := (rotateCredentials reason resetIso s).2 in
  credentials (self rotated) ≠ []
  ∧ (initializeAuth rotated).1 ≠ Throw not_configured.
Proof.
  intros Hdone rotated.
  assert (Hloaded : credentials (self rotated) ≠ []).
  { subst rotated. revert Hdone. unfold rotateCredentials. rewrite bind_run.
    pose proof (load_credentials_pool s) as Hload.
    assert (Hthrow : credentials (self s) = [] →
                     configured_credentials (env (self s)) = [] →
                     (load_credentials s).1 = Throw no_variables).
    { intros Hpool Hnone. destruct s as [[e tok idx h pool] w]. simpl in *.
      subst pool. unfold load_credentials, set_credentials. run_monad.
      by rewrite Hnone. }
    destruct (load_credentials s) as [[u|e] s1]; simpl in Hload, Hthrow |- *;
      [|done].
    match goal with |- context [(?m ≫= ?k) s1] =>
      assert (Hkeep : keeps pool_view (m ≫= k))
    end.
    { unfold load_current_index.
      repeat first
        [ apply getNextViableCredentialIndex_keeps
        | apply markCredentialExhausted_keeps
        | keeps_step ]. }
    specialize (Hkeep s1). rewrite Hload in Hkeep.
    unfold pool_view in Hkeep. injection Hkeep as _ ->.
    intros _.
    destruct (bool_decide_reflect (credentials (self s) = [])) as [Hnil|];
      [|done].
    intros Hnone. by specialize (Hthrow Hnil Hnone). }
  split; [done|].
  unfold initializeAuth. rewrite bind_run, get_self_run. cbv beta iota.
  rewrite bool_decide_false by done.
  rewrite bind_run. unfold parse_credentials.
  destruct (credential_at _ _ ≫= JSON_parse_credentials) as [c|]; [|done].
  change (@mret M _ _ c rotated) with (Normal c, rotated). cbv beta iota.
  rewrite bind_run.
  change (set_credsHash (hashString (oa_id_token c)) rotated)
    with (Normal (), state_with_hash (hashString (oa_id_token c)) rotated).
  cbv beta iota.
  match goal with |- context [try_catch ?m ?h ?st] =>
    pose proof (authenticate_from_cache_or_original c st) as Hbody;
    cbv zeta in Hbody;
    destruct (try_catch m h st) as [[u|e] s']
  end; simpl in *; [done|].
  destruct Hbody as [cause ->]. done.
Qed.

(** *** A rotation that marks nothing *)

Lemma store_pruned_refl s : store_pruned s s.
Proof. split; [done|]. intros key _. by left. Qed.

Lemma store_pruned_same s s' :
  kv (world s') = kv (world s) → now (world s') = now (world s) →
  store_pruned s s'.
Proof. intros Hkv Hnow. split; [done|]. intros key _. left. by rewrite Hkv. Qed.

Lemma store_pruned_trans s1 s2 s3 :
  store_pruned s1 s2 → store_pruned s2 s3 → store_pruned s1 s3.
Proof.
  intros [Hnow12 H12] [Hnow23 H23]. split; [congruence|].
  intros key Hkey.
  destruct (H12 key Hkey) as [Hsame|[Hgone Hlapsed]].
  - destruct (H23 key Hkey) as [Hsame'|[Hgone' Hlapsed']].
    + left. congruence.
    + right. split; [done|].
      destruct Hlapsed' as (i & v & Hi & Hread & Hv & Hpast).
      exists i, v. unfold kv_read in *.
      rewrite <- Hsame, <- Hnow12. done.
  - right. split; [|done].
    destruct (H23 key Hkey) as [Hsame'|[Hgone' _]]; congruence.
Qed.

Lemma preserves_ret {A} (a : A) : preserves store_pruned (mret a).
Proof. intros s. apply store_pruned_refl. Qed.

Lemma preserves_throw {A} e : preserves store_pruned (throw (A:=A) e).
Proof. intros s. apply store_pruned_refl. Qed.

Lemma preserves_bind {A B} (m : M A) (k : A → M B) :
  preserves store_pruned m → (∀ a, preserves store_pruned (k a)) →
  preserves store_pruned (m ≫= k).
Proof.
  intros Hm Hk s. rewrite bind_run. specialize (Hm s).
  destruct (m s) as [[a|e] s1]; cbn [fst snd] in *; [|done].
  exact (store_pruned_trans s s1 _ Hm (Hk a s1)).
Qed.

Lemma preserves_try_catch {A} (m : M A) (h : exn → M A) :
  preserves store_pruned m → (∀ e, preserves store_pruned (h e)) →
  preserves store_pruned (try_catch m h).
Proof.
  intros Hm Hh s. unfold try_catch. specialize (Hm s).
  destruct (m s) as [[a|e] s1]; cbn [fst snd] in *; [done|].
  exact (store_pruned_trans s s1 _ Hm (Hh e s1)).
Qed.

(** The operations that leave store and clock alone. *)
Ltac preserves_leaf :=
  let s := fresh "s" in
  intros s; destruct s as [? [? ? ? ? ? ?]];
  unfold emit, get_world, put_world, get_self, put_self, throw, skip,
    mbind, M_bind, mret, M_ret; simpl;
  repeat match goal with
         | |- context [match ?f with [] => _ | _ :: _ => _ end] =>
             is_var f; destruct f as [|[] ?]
         end;
  simpl; by apply store_pruned_same.

Lemma preserves_get_self : preserves store_pruned get_self.
Proof. preserves_leaf. Qed.
Lemma preserves_date_now : preserves store_pruned date_now.
Proof. preserves_leaf. Qed.
Lemma preserves_set_accessToken v : preserves store_pruned (set_accessToken v).
Proof. preserves_leaf. Qed.
Lemma preserves_set_credsIndex v : preserves store_pruned (set_credsIndex v).
Proof. preserves_leaf. Qed.
Lemma preserves_set_credsHash v : preserves store_pruned (set_credsHash v).
Proof. preserves_leaf. Qed.
Lemma preserves_set_credentials v : preserves store_pruned (set_credentials v).
Proof. preserves_leaf. Qed.
Lemma preserves_console line : preserves store_pruned (console line).
Proof. preserves_leaf. Qed.
Lemma preserves_kvGet key : preserves store_pruned (kvGet key).
Proof. unfold kvGet, store_op. preserves_leaf. Qed.

(** The write of the cursor is outside the frame. *)
Lemma preserves_kvPut_cursor v ttl :
  preserves store_pruned (kvPut KV_CREDS_INDEX v ttl).
Proof.
  intros [a [m f t u i tr]]. unfold kvPut, store_op. run_monad.
  destruct f as [|[] f]; simpl; (split; [done|]); intros key Hkey; left;
    simpl; by rewrite ?lookup_insert_ne.
Qed.

(** The check deletes a record only when it has lapsed. *)
Lemma preserves_isCredentialExhausted index :
  preserves store_pruned (isCredentialExhausted index).
Proof.
  intros [a [m f t u i tr]].
  unfold isCredentialExhausted, kvGet, kvDelete, store_op. run_monad.
  assert (Hlapse : ∀ v, v ≠ "" →
    kv_read {| kv := m; faults := []; now := t; upstream := u;
               identity := i; trace := tr |} (exhausted_key index) = Some v →
    lt_num t (parseInt v) = false →
    ∀ f' tr', store_pruned
      {| self := a; world := {| kv := m; faults := f; now := t;
                                upstream := u; identity := i; trace := tr |} |}
      {| self := a; world := {| kv := delete (exhausted_key index) m;
                                faults := f'; now := t; upstream := u;
                                identity := i; trace := tr' |} |}).
  { intros v Hv Hread Hpast f' tr'. split; [done|]. intros key _. simpl.
    destruct (decide (key = exhausted_key index)) as [->|Hne].
    - right. split; [apply lookup_delete_eq|]. by exists index, v.
    - left. by apply lookup_delete_ne. }
  destruct f as [|[] f]; simpl; try (by apply store_pruned_same).
  - destruct (kv_read _ _) as [[|ch v]|] eqn:Hread; simpl;
      try (by apply store_pruned_same).
    destruct (lt_num t (parseInt (String ch v))) eqn:Hpast; simpl;
      [by apply store_pruned_same|].
    by apply (Hlapse (String ch v)).
  - destruct (kv_read _ _) as [[|ch v]|] eqn:Hread; simpl;
      try (by apply store_pruned_same).
    destruct (lt_num t (parseInt (String ch v))) eqn:Hpast; simpl;
      [by apply store_pruned_same|].
    destruct f as [|[] f]; simpl; try (by apply store_pruned_same);
      by apply (Hlapse (String ch v)).
Qed.

Lemma preserves_scan_credentials total remaining next :
  preserves store_pruned (scan_credentials total remaining next).
Proof.
  revert next. induction remaining as [|n IH]; intros next; simpl.
  - apply preserves_ret.
  - apply preserves_bind; [apply preserves_isCredentialExhausted|].
    intros []; simpl; [apply IH|apply preserves_ret].
Qed.

Ltac preserves_step :=
  lazymatch goal with
  | |- preserves _ (mbind _ _) => apply preserves_bind; [|intros ?]
  | |- preserves _ (mret _) => apply preserves_ret
  | |- preserves _ (throw _) => apply preserves_throw
  | |- preserves _ skip => apply (preserves_ret ())
  | |- preserves _ (try_catch _ _) => apply preserves_try_catch; [|intros ?]
  | |- preserves _ get_self => apply preserves_get_self
  | |- preserves _ (set_accessToken _) => apply preserves_set_accessToken
  | |- preserves _ (set_credsIndex _) => apply preserves_set_credsIndex
  | |- preserves _ (set_credsHash _) => apply preserves_set_credsHash
  | |- preserves _ (set_credentials _) => apply preserves_set_credentials
  | |- preserves _ (console _) => apply preserves_console
  | |- preserves _ (kvGet _) => apply preserves_kvGet
  | |- preserves _ (kvPut KV_CREDS_INDEX _ _) => apply preserves_kvPut_cursor
  | |- preserves _ (scan_credentials _ _ _) =>
      apply preserves_scan_credentials
  | |- preserves _ (if ?b then _ else _) => destruct b
  end.

Lemma preserves_rotateCredentials_plain reason resetIso :
  truthy resetIso = false →
  preserves store_pruned (rotateCredentials reason resetIso).
Proof.
  intros Hreset. rewrite rotateCredentials_plain by done.
  unfold load_credentials, load_current_index, getNextViableCredentialIndex.
  repeat preserves_step.
Qed.

(** The pool after a rotation, however it ends. *)
Lemma rotateCredentials_pool reason resetIso s :
  pool_view (self (rotateCredentials reason resetIso s).2)
  = (env (self s),
     if bool_decide (credentials (self s) = [])
     then configured_credentials (env (self s))
     else credentials (self s)).
Proof.
  unfold rotateCredentials. rewrite bind_run.
  pose proof (load_credentials_pool s) as Hload.
  destruct (load_credentials s) as [[u|e] s1]; simpl in Hload |- *; [|done].
  match goal with |- context [(?m ≫= ?k) s1] =>
    assert (Hkeep : keeps pool_view (m ≫= k))
  end.
  { unfold load_current_index.
    repeat first
      [ apply getNextViableCredentialIndex_keeps
      | apply markCredentialExhausted_keeps
      | keeps_step ]. }
  by rewrite Hkeep.
Qed.

(** C10 (amended). [rotateCredentials("exhausted")] without a reset time
    runs as [rotateCredentials("normal")] does from the same state: same
    completion, same fields of the manager, same store and same events
    but for the wording of the console.  Its only store write is the
    cursor, written without TTL, so no exhaustion record is written.
    The cursor is not all it changes: in the store it also deletes
    exhaustion records, those that have lapsed and no other entry; in the
    manager it loads the pool if it was not loaded, leaving the
    environment alone; and when it completes, the current index is the
    selected one, which the cursor in the store repeats, [accessToken] is
    [null] and [credsHash] is 0. *)
Theorem rotateCredentials_exhausted_without_reset s resetIso :
  truthy resetIso = false →
  let out := rotateCredentials exhausted resetIso s in
  let ref := rotateCredentials normal resetIso s in
  (out.1 = ref.1 ∧ self out.2 = self ref.2
   ∧ kv (world out.2) = kv (world ref.2)
   ∧ effects (trace (world out.2)) = effects (trace (world ref.2)))
  ∧ Forall writes_cursor_only (new_events s out.2)
  ∧ ((∀ i, KV_CREDS_INDEX ≠ exhausted_key i) →
     ∀ i v ttl, KvPut (exhausted_key i) v ttl ∉ new_events s out.2)
  ∧ (out.1 = Normal () →
     accessToken (self out.2) = None ∧ credsHash (self out.2) = 0)
  ∧ store_pruned s out.2
  ∧ env (self out.2) = env (self s)
  ∧ credentials (self out.2)
    = (if bool_decide (credentials (self s) = [])
       then configured_credentials (env (self s))
       else credentials (self s))
  ∧ (out.1 = Normal () →
     kv_value <$> kv (world out.2) !! KV_CREDS_INDEX
     = Some (num_to_string (credsIndex (self out.2)))).
Proof.
  intros Hreset out ref.
  destruct (rotateCredentials_plain_emits exhausted resetIso Hreset s)
    as (evs & Htr & Hevs).
  fold out in Htr. rewrite (new_events_app _ _ _ Htr).
  assert (Hruns :
    (out.1 = ref.1 ∧ self out.2 = self ref.2
     ∧ kv (world out.2) = kv (world ref.2)
     ∧ effects (trace (world out.2)) = effects (trace (world ref.2)))
    ∧ (out.1 = Normal () →
       (accessToken (self out.2) = None ∧ credsHash (self out.2) = 0)
       ∧ kv_value <$> kv (world out.2) !! KV_CREDS_INDEX
         = Some (num_to_string (credsIndex (self out.2))))).
  { subst out ref. rewrite !rotateCredentials_plain by done.
    rewrite !bind_run.
    destruct (load_credentials s) as [[[]|e] s1]; [|done]. rewrite !bind_run.
    destruct (load_current_index s1) as [[[]|e] s2]; [|done]. rewrite !bind_run.
    simpl. rewrite !bind_run.
    destruct (getNextViableCredentialIndex (credsIndex (self s2)) s2)
      as [[next|e] s3]; [|done].
    rewrite !bind_run. simpl. rewrite !bind_run.
    match goal with |- context [kvPut ?k ?v ?t ?st] =>
      destruct (kvPut_run k v t st) as [Hself4 Hkv4];
      destruct (kvPut k v t st) as [[[]|e] s4]; [|done]
    end.
    simpl in *. unfold effects. rewrite !omap_app.
    split; [done|]. intros _. split; [done|].
    rewrite Hself4. simpl. by apply Hkv4. }
  destruct Hruns as [Hsame Hdone].
  pose proof (rotateCredentials_pool exhausted resetIso s) as Hpool.
  fold out in Hpool. unfold pool_view in Hpool. injection Hpool as Henv Hcreds.
  split; [exact Hsame|]. split; [exact Hevs|]. split.
  { intros Hkeys i v ttl Hin. rewrite Forall_forall in Hevs.
    destruct (Hevs _ Hin) as [Hk _]. by apply (Hkeys i). }
  split; [intros H; by apply Hdone|].
  split; [by apply preserves_rotateCredentials_plain|].
  split; [exact Henv|]. split; [exact Hcreds|].
  intros H. by apply Hdone.
Qed.

End Verification.

(** ** The scenarios, run on the sample deployment *)

(** C1. A 400 on the first of three attempts of "generateContent" does not
    end [callEndpointWithRetry]: the error thrown inside the [try] block is
    caught by the [catch] of the same turn, a timer of [baseDelay] is
    awaited and the request is sent again; here the second answer is
    returned to the caller. *)
Lemma callEndpointWithRetry_retries_client_error :
  let out :=
    @callEndpointWithRetry sample_config sample_runtime
      "generateContent" "{}" 3 1000
      (sample_call [Response 400 "bad"; Response 200 "{ok}"]) in
  out.1 = Normal "{ok}"
  ∧ delays (trace (world out.2)) = [1000]
  ∧ upstream_requests (trace (world out.2))
    = [("generateContent", "{}"); ("generateContent", "{}")].
Proof. vm_compute. done. Qed.

(** C2. On a manager just constructed, [initializeAuth] throws the
    configuration error without looking at the environment, although the
    environment configures a credential; the pool stays unloaded. *)
Lemma initializeAuth_fresh_manager_throws :
  configured_credentials (env (self fresh_state)) = ["a0 r0 2000000 id0"]
  ∧ @initializeAuth sample_config sample_runtime fresh_state
    = (Throw not_configured, fresh_state).
Proof. split; vm_compute; reflexivity. Qed.

(** The cursor key of the sample deployment is no exhaustion key. *)
Lemma sample_cursor_key_fresh i :
  @KV_CREDS_INDEX sample_config ≠ exhausted_key i.
Proof. done. Qed.

(** The scenario of C3 at time 1000000 over an empty store. *)
Lemma rotateCredentials_exhausted_scenario_witness :
  let out :=
    @rotateCredentials sample_config sample_runtime exhausted
      (Some "1060000") (sample_state ∅) in
  out.1 = Normal ()
  ∧ kv (world out.2) !! exhausted_key (Int 0)
    = Some {| kv_value := "1180000"; kv_ttl := Some (Int 3780);
              kv_written := 1000000 |}
  ∧ credsIndex (self out.2) = Int 1
  ∧ kv_value <$> kv (world out.2) !! "creds_index" = Some "1".
Proof.
  destruct (@rotateCredentials_exhausted_scenario sample_config sample_runtime
              (sample_state ∅) "1060000")
    as (H1 & H2 & H3 & H4 & _).
  - reflexivity.
  - reflexivity.
  - apply sample_cursor_key_fresh.
  - reflexivity.
  - intros i _. reflexivity.
  - done.
  - reflexivity.
  - repeat split; assumption.
Defined.

(** A scan from index 0 while indices 1 and 2 are exhausted. *)
Lemma getNextViableCredentialIndex_bounded_witness :
  ∃ r s' visited,
    getNextViableCredentialIndex (Int 0)
      (sample_state (exhausted_until_later [1; 2])) = (r, s')
    ∧ kv_reads (new_events (sample_state (exhausted_until_later [1; 2])) s')
      = (λ i, exhausted_key (Int i)) <$> visited
    ∧ (length visited ≤ 3)%nat
    ∧ NoDup visited
    ∧ Forall (λ i, 0 ≤ i < 3) visited.
Proof.
  apply (getNextViableCredentialIndex_bounded
           (sample_state (exhausted_until_later [1; 2])) 0); simpl; lia.
Defined.

(** Index 1 is the only viable one and the scan starts from it. *)
Lemma getNextViableCredentialIndex_single_viable_witness :
  ∃ s', getNextViableCredentialIndex (Int 1)
          (sample_state (exhausted_until_later [0; 2]))
        = (Normal (Int 1), s').
Proof.
  apply (getNextViableCredentialIndex_single_viable
           (sample_state (exhausted_until_later [0; 2])) 1 1).
  - simpl. lia.
  - simpl. lia.
  - reflexivity.
  - simpl. lia.
  - reflexivity.
  - simpl. intros i Hi Hne.
    assert (i = 0 ∨ i = 2) as [-> | ->] by lia; reflexivity.
Defined.

(** All three indices are exhausted and the scan starts from index 2. *)
Lemma getNextViableCredentialIndex_all_exhausted_witness :
  ∃ r s',
    getNextViableCredentialIndex (Int 2)
      (sample_state (exhausted_until_later [0; 1; 2])) = (Normal (Int r), s')
    ∧ 0 ≤ r < 3
    ∧ last (kv_reads
              (new_events (sample_state (exhausted_until_later [0; 1; 2])) s'))
      = Some (exhausted_key (Int r))
    ∧ r = 2
    ∧ credentials (self s') = sample_pool
    ∧ kv (world s') = exhausted_until_later [0; 1; 2].
Proof.
  apply (getNextViableCredentialIndex_all_exhausted
           (sample_state (exhausted_until_later [0; 1; 2])) 2).
  - simpl. lia.
  - simpl. lia.
  - reflexivity.
  - simpl. intros i Hi.
    assert (i = 0 ∨ i = 1 ∨ i = 2) as [-> | [-> | ->]] by lia; reflexivity.
Defined.

(** A 500 on the first call is thrown at once, status and body in the
    message. *)
Lemma callEndpoint_retries_once_witness :
  let s := sample_call [Response 500 "boom"] in
  let s1 := (@initializeAuth sample_config sample_runtime s).2 in
  let s2 := (fetch_upstream "generateContent" "{}" s1).2 in
  @callEndpoint sample_config sample_runtime "generateContent" "{}" false s
  = (Throw (api_call_failed 500 "boom"), s2).
Proof.
  intros s s1 s2.
  destruct (@callEndpoint_retries_once sample_config sample_runtime
              "generateContent" "{}" false s) as [_ Hanswer].
  destruct (Hanswer s1 500 "boom" s2) as (_ & Hfail & _).
  - reflexivity.
  - reflexivity.
  - apply Hfail; [reflexivity|left; lia].
Defined.

(** C9 as stated fails: with the cursor "-5" in the store the rotation
    decides from index -5, which is no index of the pool of three. *)
Lemma rotateCredentials_negative_cursor :
  ¬ @rotation_in_range sample_config sample_runtime normal None
      (sample_state {[ "creds_index" := plain_entry "-5" ]}).
Proof.
  intros [Hcurrent _]. destruct (Hcurrent eq_refl) as (z & Hz & Hrange).
  vm_compute in Hz. injection Hz as <-. lia.
Qed.

(** The same rotation persists the cursor "-4". *)
Lemma persisted_negative_cursor :
  kv_value <$>
    kv (world (@rotateCredentials sample_config sample_runtime normal None
                 (sample_state {[ "creds_index" := plain_entry "-5" ]})).2)
    !! "creds_index"
  = Some "-4".
Proof. vm_compute. reflexivity. Qed.

(** A stored cursor of 7 over a pool of three: the rotation decides from
    index 2. *)
Lemma rotateCredentials_cursor_in_range_witness :
  let s := sample_state {[ "creds_index" := plain_entry "7" ]} in
  let loaded := @load_rotation_state sample_config s in
  (loaded.1 = Normal () →
   credsIndex (self loaded.2) = Int 2
   ∧ KvGet "creds_index" ∈ new_events s loaded.2)
  ∧ @rotation_in_range sample_config sample_runtime normal None s.
Proof.
  destruct (@rotateCredentials_cursor_in_range sample_config sample_runtime
              normal None
              (sample_state {[ "creds_index" := plain_entry "7" ]}))
    as (Hindex & _ & Hrange).
  split; [exact Hindex|].
  apply Hrange.
  intros v Hv. vm_compute in Hv. injection Hv as <-.
  exists 7. split; [reflexivity|lia].
Defined.

(** With the cursor 7 the rotation decides from index 2, the last of the
    pool, selects index 0 and persists it. *)
Lemma capped_cursor_rotation :
  let s := sample_state {[ "creds_index" := plain_entry "7" ]} in
  credsIndex (self (@load_rotation_state sample_config s).2) = Int 2
  ∧ (@rotateCredentials sample_config sample_runtime normal None s).1 = Normal ()
  ∧ kv_value <$>
      kv (world (@rotateCredentials sample_config sample_runtime normal None s).2)
      !! "creds_index"
    = Some "0".
Proof. vm_compute. done. Qed.

(** An unreadable cursor counts as 0: the first store operation rejects,
    the rotation decides from index 0 and moves to index 1. *)
Lemma unreadable_cursor_rotation :
  let s := {| self := sample_manager;
              world := {| kv := {[ "creds_index" := plain_entry "2" ]};
                          faults := [true]; now := 1000000; upstream := [];
                          identity := []; trace := [] |} |} in
  credsIndex (self (@load_rotation_state sample_config s).2) = Int 0
  ∧ credsIndex
      (self (@rotateCredentials sample_config sample_runtime normal None s).2)
    = Int 1.
Proof. vm_compute. done. Qed.

(** A 401 on the first call and a 200 on the second: the caller sees the
    second answer only; in between the cache entry of the credential was
    deleted and the manager authenticated again. *)
Lemma callEndpoint_recovers_from_401 :
  let out :=
    @callEndpoint sample_config sample_runtime "generateContent" "{}" false
      (sample_call [Response 401 "denied"; Response 200 "{ok}"]) in
  out.1 = Normal "{ok}"
  ∧ upstream_requests (trace (world out.2))
    = [("generateContent", "{}"); ("generateContent", "{}")]
  ∧ KvDelete "token_3" ∈ trace (world out.2)
  ∧ delays (trace (world out.2)) = [].
Proof. vm_compute. split; [done|]. split; [done|]. split; [|done]. set_solver. Qed.

(** ** Further scenarios on the sample deployment *)

(** Index 1 is marked at time 1000000 for a reset at 1060000 and checked
    at once. *)
Lemma markCredentialExhausted_then_check_witness :
  let s := sample_state ∅ in
  let marked := @markCredentialExhausted sample_runtime (Int 1) "1060000" s in
  let answer := bool_decide (now (world s) < 1060000 + 120000) in
  (isCredentialExhausted (Int 1) marked.2).1 = Normal answer
  ∧ ∃ s',
      (@markCredentialExhausted sample_runtime (Int 1) "1060000";;
       isCredentialExhausted (Int 1)) s
      = (Normal answer, s').
Proof.
  destruct (@markCredentialExhausted_then_check sample_runtime (Int 1)
              "1060000" 1060000 (sample_state ∅)) as [Hcheck Hrun];
    [reflexivity|reflexivity|].
  split; [exact Hcheck|]. apply Hrun. vm_compute. discriminate.
Defined.

(** A record that ran out at 900000 is met at 1000000. *)
Lemma isCredentialExhausted_cleans_up_witness :
  (isCredentialExhausted (Int 1) lapsed_state).1 = Normal false
  ∧ kv (world (isCredentialExhausted (Int 1) lapsed_state).2)
    = delete (exhausted_key (Int 1)) (kv (world lapsed_state))
  ∧ KvDelete (exhausted_key (Int 1))
    ∈ new_events lapsed_state (isCredentialExhausted (Int 1) lapsed_state).2.
Proof.
  apply (isCredentialExhausted_cleans_up (Int 1) lapsed_state "900000");
    [reflexivity|vm_compute; reflexivity|done|reflexivity].
Defined.

Lemma isCredentialExhausted_idempotent_witness :
  let first := isCredentialExhausted (Int 1) lapsed_state in
  let second := isCredentialExhausted (Int 1) first.2 in
  second.1 = first.1 ∧ kv (world second.2) = kv (world first.2).
Proof.
  apply (isCredentialExhausted_idempotent (Int 1) lapsed_state). reflexivity.
Defined.

(** A normal rotation of the pool of three from cursor 0. *)
Lemma rotateCredentials_round_robin_witness :
  let s := sample_state ∅ in
  let N := Z.of_nat (length (credentials (self s))) in
  let next := wrap N (Z.min 0 (N - 1) + 1) in
  let out := @rotateCredentials sample_config sample_runtime normal None s in
  out.1 = Normal ()
  ∧ credsIndex (self out.2) = Int next
  ∧ kv_value <$> kv (world out.2) !! @KV_CREDS_INDEX sample_config
    = Some (pretty next)
  ∧ credentials (self out.2) = credentials (self s)
  ∧ accessToken (self out.2) = None
  ∧ credsHash (self out.2) = 0.
Proof.
  apply (@rotateCredentials_round_robin sample_config sample_runtime normal
           None (sample_state ∅) 0);
    [reflexivity|reflexivity|done|reflexivity|done|reflexivity].
Defined.

(** Two rotations from cursor 1 of the pool of three end at index 0; a
    full lap of three ends at index 1 again. *)
Lemma rotateCredentials_cycle_witness :
  let s := cursor_state in
  let N := Z.of_nat (length (credentials (self s))) in
  let start := Z.min 1 (N - 1) in
  let out := @rotate_times sample_config sample_runtime 2 s in
  let full :=
    @rotate_times sample_config sample_runtime
      (length (credentials (self s))) s in
  (out.1 = Normal ()
   ∧ credsIndex (self out.2) = Int ((start + Z.of_nat 2) mod N)
   ∧ kv_value <$> kv (world out.2) !! @KV_CREDS_INDEX sample_config
     = Some (pretty ((start + Z.of_nat 2) mod N)))
  ∧ (full.1 = Normal () ∧ credsIndex (self full.2) = Int start).
Proof.
  apply (@rotateCredentials_cycle sample_config sample_runtime 1 cursor_state
           1).
  - reflexivity.
  - done.
  - apply sample_cursor_key_fresh.
  - intros i. unfold exhausted_at, kv_read. simpl.
    rewrite lookup_singleton_ne; [reflexivity|].
    apply sample_cursor_key_fresh.
  - reflexivity.
  - done.
Defined.

(** A token with 1000 s left is cached at time 1000000 and read one
    second later. *)
Lemma cacheTokenInKV_then_read_witness :
  let s := sample_state ∅ in
  let t := now (world s) in
  let key := @token_key sample_config (credsHash (self s)) in
  let out :=
    (@cacheTokenInKV sample_config sample_runtime "tok" 2000000;;
     sleep 1000;;
     @read_cached_token sample_runtime key) s in
  (2000000 - t < 301000 →
   kv (world (@cacheTokenInKV sample_config sample_runtime "tok" 2000000 s).2)
   = kv (world s))
  ∧ (301000 ≤ 2000000 - t →
     out.1 = Normal (if bool_decide (Z.max 0 1000
                                     < token_ttl t 2000000 * 1000)
                     then Some (token_data "tok" t 2000000) else None)
     ∧ (out.1 ≠ Normal None → 300000 < 2000000 - now (world out.2))).
Proof.
  apply (@cacheTokenInKV_then_read sample_config sample_runtime "tok" 2000000
           1000 (sample_state ∅)); [reflexivity|vm_compute; reflexivity].
Defined.

Lemma cacheProjectId_round_trip_witness :
  ((cacheProjectId "proj";; getCachedProjectId) (sample_state ∅)).1
  = Normal (if bool_decide ("proj" = "") then None else Some "proj").
Proof.
  apply (cacheProjectId_round_trip "proj" (sample_state ∅)). reflexivity.
Defined.

(** The id cached at index 0 is not the one of index 1. *)
Lemma cacheProjectId_per_credential_witness :
  ((cacheProjectId "proj";; set_credsIndex (Int 1);;
    getCachedProjectId) (sample_state ∅)).1
  = ((set_credsIndex (Int 1);; getCachedProjectId) (sample_state ∅)).1.
Proof.
  apply (cacheProjectId_per_credential "proj" (Int 1) (sample_state ∅));
    [reflexivity|done].
Defined.

Lemma clearCachedProjectId_then_get_witness :
  ((clearCachedProjectId;; getCachedProjectId) project_state).1 = Normal None
  ∧ kv (world (clearCachedProjectId project_state).2)
    = delete (project_id_key (credsIndex (self project_state)))
        (kv (world project_state)).
Proof.
  apply (clearCachedProjectId_then_get project_state). reflexivity.
Defined.

Lemma project_id_store_failure_witness :
  let s := broken_state in
  let cached := cacheProjectId "proj" s in
  let read := getCachedProjectId s in
  let cleared := clearCachedProjectId s in
  (cached.1 = Normal () ∧ self cached.2 = self s
   ∧ kv (world cached.2) = kv (world s))
  ∧ (read.1 = Normal None ∧ self read.2 = self s
     ∧ kv (world read.2) = kv (world s))
  ∧ (cleared.1 = Normal () ∧ self cleared.2 = self s
     ∧ kv (world cleared.2) = kv (world s)).
Proof.
  apply (project_id_store_failure "proj" broken_state). reflexivity.
Defined.

(** LOG_LEVEL=debug, in lower case, lets DEBUG messages through. *)
Lemma shouldLog_unknown_level_witness :
  shouldLog {| level := "debug"; format := "console"; traceId := "t1" |} DEBUG
  = true.
Proof.
  apply (shouldLog_unknown_level
           {| level := "debug"; format := "console"; traceId := "t1" |} DEBUG).
  apply (bool_decide_unpack _). vm_compute. exact I.
Defined.

Lemma createLogger_defaults_witness :
  output (D:=()) (λ _, "{}") (λ _, "{}") (createLogger None (Some "") "t1")
    "2024-01-01T00:00:00.000Z" WARN "auth" "rotated" None
  = if bool_decide (WARN = DEBUG) then None
    else Some (method_of WARN,
               formatConsoleOutput (D:=()) (λ _, "{}")
                 {| entry_timestamp := "2024-01-01T00:00:00.000Z";
                    entry_level := WARN; entry_category := "auth";
                    entry_message := "rotated"; entry_traceId := "t1";
                    entry_details := None |}).
Proof.
  apply (createLogger_defaults (D:=()) (λ _, "{}") (λ _, "{}") None (Some "")
           "t1" "2024-01-01T00:00:00.000Z" WARN "auth" "rotated" None);
    repeat constructor.
Defined.

(** The first credential of the pool, 1000 s before its token expires,
    over an empty store. *)
Lemma initializeAuth_uses_original_witness :
  let s := sample_state ∅ in
  let c := sample_credential in
  let out := @initializeAuth sample_config sample_runtime s in
  out.1 = Normal ()
  ∧ accessToken (self out.2) = Some (oa_access_token c)
  ∧ credsHash (self out.2) = @hashString sample_runtime (oa_id_token c)
  ∧ Forall (λ e, is_refresh e = false) (new_events s out.2)
  ∧ kv (world out.2)
    = @cached_store sample_runtime
        (@token_key sample_config (@hashString sample_runtime (oa_id_token c)))
        (oa_access_token c) (now (world s)) (oa_expiry_date c)
        (kv (world s)).
Proof.
  apply (@initializeAuth_uses_original sample_config sample_runtime
           (sample_state ∅) sample_credential);
    [reflexivity|done|vm_compute; reflexivity|reflexivity|reflexivity].
Defined.

(** The stale credential is refreshed; the identity service answers 200
    with a token that lives 3600 s. *)
Lemma initializeAuth_refreshes_witness :
  let s := stale_state in
  let c := stale_credential in
  let out := @initializeAuth sample_config sample_runtime s in
  let t := now (world s) in
  filter (λ e, is_refresh e) (new_events s out.2)
  = [Refresh (oa_refresh_token c)]
  ∧ (response_ok 200 = false →
     out.1 = Throw (Error ("Authentication failed: Token refresh failed: "
                           +:+ "fresh 3600"))
     ∧ accessToken (self out.2) = accessToken (self s)
     ∧ kv (world out.2) = kv (world s))
  ∧ (response_ok 200 = true →
     ∀ r, @JSON_parse_refresh sample_runtime "fresh 3600" = Some r →
       out.1 = Normal ()
       ∧ accessToken (self out.2) = Some (tr_access_token r)
       ∧ kv (world out.2)
         = @cached_store sample_runtime
             (@token_key sample_config
                (@hashString sample_runtime (oa_id_token c)))
             (tr_access_token r) t (t + tr_expires_in r * 1000)
             (kv (world s))).
Proof.
  apply (@initializeAuth_refreshes sample_config sample_runtime stale_state
           stale_credential 200 "fresh 3600" []);
    [reflexivity|done|vm_compute; reflexivity|reflexivity|vm_compute; done
    |reflexivity].
Defined.

Lemma initializeAuth_again_adopts_witness :
  let s := sample_state ∅ in
  let c := sample_credential in
  let first := @initializeAuth sample_config sample_runtime s in
  let second := @initializeAuth sample_config sample_runtime first.2 in
  second.1 = Normal ()
  ∧ accessToken (self second.2) = Some (oa_access_token c)
  ∧ kv (world second.2) = kv (world first.2)
  ∧ effects (new_events first.2 second.2)
    = [KvGet (@token_key sample_config
                (@hashString sample_runtime (oa_id_token c)))].
Proof.
  apply (@initializeAuth_again_adopts sample_config sample_runtime
           (sample_state ∅) sample_credential);
    [reflexivity|done|vm_compute; reflexivity|reflexivity|reflexivity
    |vm_compute; done|vm_compute; reflexivity].
Defined.

(** The manager holds the token of the cache when the 401 arrives; it
    comes back with the configured token. *)
Lemma forget_token_then_initializeAuth_witness :
  let s := authenticated_state in
  let out :=
    (@forget_token sample_config;;
     @initializeAuth sample_config sample_runtime) s in
  out.1 = Normal ()
  ∧ accessToken (self out.2) = Some (oa_access_token sample_credential)
  ∧ Forall (λ e, is_refresh e = false) (new_events s out.2).
Proof.
  apply (@forget_token_then_initializeAuth sample_config sample_runtime
           authenticated_state sample_credential);
    [reflexivity|done|vm_compute; reflexivity|reflexivity|reflexivity].
Defined.

Lemma rotateCredentials_unconfigured_witness :
  @rotateCredentials sample_config sample_runtime normal None
    unconfigured_state
  = (Throw no_variables, unconfigured_state).
Proof.
  apply (@rotateCredentials_unconfigured sample_config sample_runtime normal
           None unconfigured_state); [reflexivity|vm_compute; reflexivity].
Defined.

(** On the manager just constructed, the rotation loads the pool that the
    authentication needs. *)
Lemma rotateCredentials_then_initializeAuth_witness :
  let rotated :=
    (@rotateCredentials sample_config sample_runtime normal None
       fresh_state).2 in
  credentials (self rotated) ≠ []
  ∧ (@initializeAuth sample_config sample_runtime rotated).1
    ≠ Throw not_configured.
Proof.
  apply (@rotateCredentials_then_initializeAuth sample_config sample_runtime
           normal None fresh_state).
  vm_compute. reflexivity.
Defined.


(** C10 as stated fails: the rotation changes more than the cursor, the
    token and the hash.  From index 0 of the pool of three, with the
    record of index 1 lapsed, [rotateCredentials("exhausted")] without a
    reset time deletes that record from the store and moves the current
    index to 1. *)
Lemma rotateCredentials_exhausted_changes_more :
  let s := lapsed_state in
  let out :=
    @rotateCredentials sample_config sample_runtime exhausted None s in
  out.1 = Normal ()
  ∧ kv (world s) !! exhausted_key (Int 1) = Some (plain_entry "900000")
  ∧ kv (world out.2) !! exhausted_key (Int 1) = None
  ∧ credsIndex (self s) = Int 0
  ∧ credsIndex (self out.2) = Int 1
  ∧ ¬ @changes_cursor_only sample_config s out.2.
Proof.
  cbv zeta. repeat split; try (vm_compute; reflexivity).
  intros (Hkv & _). specialize (Hkv (exhausted_key (Int 1))).
  vm_compute in Hkv. by specialize (Hkv ltac:(discriminate)).
Qed.

(** The same rotation, as the amended C10 has it: it runs as the normal
    one, writes the cursor only, loses the lapsed record only. *)
Lemma rotateCredentials_exhausted_without_reset_witness :
  let s := lapsed_state in
  let out :=
    @rotateCredentials sample_config sample_runtime exhausted None s in
  let ref := @rotateCredentials sample_config sample_runtime normal None s in
  (out.1 = ref.1 ∧ self out.2 = self ref.2
   ∧ kv (world out.2) = kv (world ref.2)
   ∧ effects (trace (world out.2)) = effects (trace (world ref.2)))
  ∧ Forall (@writes_cursor_only sample_config) (new_events s out.2)
  ∧ ((∀ i, @KV_CREDS_INDEX sample_config ≠ exhausted_key i) →
     ∀ i v ttl, KvPut (exhausted_key i) v ttl ∉ new_events s out.2)
  ∧ (out.1 = Normal () →
     accessToken (self out.2) = None ∧ credsHash (self out.2) = 0)
  ∧ @store_pruned sample_config s out.2
  ∧ env (self out.2) = env (self s)
  ∧ credentials (self out.2)
    = (if bool_decide (credentials (self s) = [])
       then configured_credentials (env (self s))
       else credentials (self s))
  ∧ (out.1 = Normal () →
     kv_value <$> kv (world out.2) !! @KV_CREDS_INDEX sample_config
     = Some (num_to_string (credsIndex (self out.2)))).
Proof.
  apply (@rotateCredentials_exhausted_without_reset sample_config
           sample_runtime lapsed_state None).
  reflexivity.
Defined.

(** The stale credential over an empty cache: the answer of the identity
    service is JSON and decodes; the call completes with a token. *)
Lemma initializeAuth_outcomes_witness :
  match (@initializeAuth sample_config sample_runtime stale_state).1 with
  | Normal _ =>
      is_Some
        (accessToken
           (self (@initializeAuth sample_config sample_runtime stale_state).2))
  | Throw e => ∃ cause, e = Error ("Authentication failed: " +:+ cause)
  end.
Proof.
  apply (@initializeAuth_outcomes sample_config sample_runtime stale_state
           stale_credential).
  - vm_compute. reflexivity.
  - intros text Hread. vm_compute in Hread. discriminate.
  - intros status text Hhead _. vm_compute in Hhead.
    injection Hhead as <- <-. split; [intros _; by eexists|done].
Defined.
